(** * Pixoo64: pixel buffer, rasterizer, animation encoder and reassembler

    A shallow embedding of [pixoo.py] (the controller: pixel buffer, drawing
    primitives, animation encoder) and of [simulator.py] (the receiver:
    animation manager, message handler, render tick), followed by the
    properties of the specification checked against them. *)

From Stdlib Require Import ZArith List String Lia Bool.
From Stdlib.Strings Require Import Byte.
From stdpp Require Import base option list gmap.

Local Open Scope Z_scope.

(** ** Exceptions, outcomes and the state monad shared by both programs *)

(** The Python exceptions the modelled code can raise. *)
Inductive exn : Type :=
| ValueError      (* raise ValueError(...), numpy reshape of a wrong size *)
| DecodeError     (* base64.b64decode on a malformed string *)
| TransportError. (* aiohttp failure inside send_command *)

(** What running a piece of code yields: a value, a raised exception, or
    [Diverge] when a [while] loop has used up its fuel. *)
Inductive outcome (A : Type) : Type :=
| Ret (a : A)
| Raise (e : exn)
| Diverge.
Arguments Ret {A} a.
Arguments Raise {A} e.
Arguments Diverge {A}.

(** Code that mutates an object of type [St]: mutations made before an
    exception is raised stay in the state, as in Python. *)
Definition M (St A : Type) : Type := St -> St * outcome A.

Definition ret {St A} (a : A) : M St A := fun s => (s, Ret a).

Definition raise {St A} (e : exn) : M St A := fun s => (s, Raise e).

Definition bind {St A B} (m : M St A) (k : A -> M St B) : M St B :=
  fun s =>
    match m s with
    | (s', Ret a) => k a s'
    | (s', Raise e) => (s', Raise e)
    | (s', Diverge) => (s', Diverge)
    end.

Definition get {St} : M St St := fun s => (s, Ret s).

Definition modify {St} (f : St -> St) : M St unit := fun s => (f s, Ret tt).

(** The state a run leaves behind, and its outcome. *)
Definition state_after {St A} (r : St * outcome A) : St := fst r.

Definition outcome_of {St A} (r : St * outcome A) : outcome A := snd r.

Declare Scope py_scope.
Delimit Scope py_scope with py.
Notation "'do' x <- m ; k" := (bind m (fun x => k))
  (at level 10, x name, m at level 100, k at level 200) : py_scope.
Notation "m >> k" := (bind m (fun _ => k))
  (at level 100, k at level 200, right associativity) : py_scope.
Local Open Scope py_scope.

(** [for x in xs: body x] *)
Fixpoint for_ {St A} (xs : list A) (body : A -> M St unit) : M St unit :=
  match xs with
  | [] => ret tt
  | x :: xs' => body x >> for_ xs' body
  end.

(** [while cond(l): l = body(l)], where [l] gathers the local variables the
    loop updates.  The loop gives up with [Diverge] after [fuel] tests. *)
Fixpoint while_ {St L} (fuel : nat) (cond : L -> bool) (body : L -> M St L)
    (l : L) : M St L :=
  match fuel with
  | O => fun s => (s, Diverge)
  | S fuel' => if cond l then do l' <- body l; while_ fuel' cond body l'
               else ret l
  end.

(** Python's [range(a, b)]. *)
Definition range (a b : Z) : list Z :=
  (fun i : nat => a + Z.of_nat i) <$> seq 0 (Z.to_nat (b - a)).

(** ** The wire message: the request dictionary of [Draw/SendHttpGif] *)

(** [PicData] as the receiver types it: [Union[str, bytes]]. *)
Inductive pic_data : Type :=
| Str (s : string)
| Bytes (b : list byte).

(** The JSON object exchanged between controller and device; a key that is
    absent from the dictionary is [None]. *)
Record Payload : Type := mkPayload {
  Command : option string;
  PicNum : option Z;
  PicWidth : option Z;
  PicOffset : option Z;
  PicID : option Z;
  PicSpeed : option Z;
  PicData : option pic_data
}.

(** * pixoo.py *)

Module Pixoo.

(** An [(R, G, B)] tuple, one byte per channel. *)
Definition Color : Type := (byte * byte * byte)%type.

(** [Pixoo64Animation] *)
Record Pixoo64Animation : Type := mkAnimation {
  encoded_frames : list (list byte);
  frame_delay : Z;
  pic_width : Z
}.

(** [self.buffer_width = 64], assigned once in [__init__]. *)
Definition buffer_width : Z := 64.

(** [DivoomPixoo64].  [_buffer] is the PIL image in row-major order;
    [wire] is not an attribute but the device end of the HTTP transport:
    the requests posted so far, oldest first. *)
Record DivoomPixoo64 : Type := mkPixoo {
  _pic_id_counter : Z;
  _buffer : list Color;
  wire : list Payload
}.

Definition with_buffer (f : list Color -> list Color) (d : DivoomPixoo64)
  : DivoomPixoo64 :=
  {| _pic_id_counter := _pic_id_counter d;
     _buffer := f (_buffer d);
     wire := wire d |}.

Definition black : Color := (x00, x00, x00).

(** [Image.new('RGB', (64, 64), (0, 0, 0))] *)
Definition new_image : list Color :=
  replicate (Z.to_nat (buffer_width * buffer_width)) black.

(** [DivoomPixoo64(ip_address, port, initial_pic_id)] *)
Definition init (initial_pic_id : Z) : DivoomPixoo64 :=
  {| _pic_id_counter := initial_pic_id; _buffer := new_image; wire := [] |}.

(** Position of pixel [(x, y)] in the image. *)
Definition pixel_index (x y : Z) : nat := Z.to_nat (y * buffer_width + x).

(** [Image.putpixel((x, y), color)] and [Image.getpixel((x, y))] *)
Definition putpixel (x y : Z) (color : Color) (img : list Color) : list Color :=
  <[pixel_index x y := color]> img.

Definition getpixel (img : list Color) (x y : Z) : option Color :=
  img !! pixel_index x y.

(** [0 <= x < self.buffer_width and 0 <= y < self.buffer_width] *)
Definition in_bounds (x y : Z) : bool :=
  (0 <=? x) && (x <? buffer_width) && (0 <=? y) && (y <? buffer_width).

Definition _get_next_pic_id : M DivoomPixoo64 Z :=
  fun d =>
    let d' := {| _pic_id_counter := _pic_id_counter d + 1;
                 _buffer := _buffer d; wire := wire d |} in
    (d', Ret (_pic_id_counter d')).

Definition set_pixel (x y : Z) (color : Color) : M DivoomPixoo64 unit :=
  if in_bounds x y then modify (with_buffer (putpixel x y color))
  else raise ValueError.

(** [self._buffer.paste(color, (0, 0, 64, 64))] *)
Definition clear_buffer (color : Color) : M DivoomPixoo64 unit :=
  modify (with_buffer (fun img => (fun _ => color) <$> img)).

(** The loop variables [(x, y, err)] of [draw_line]. *)
Definition line_vars : Type := (Z * Z * Z)%type.

Definition draw_line (x0 y0 x1 y1 : Z) (color : Color) : M DivoomPixoo64 unit :=
  let dx := Z.abs (x1 - x0) in
  let dy := Z.abs (y1 - y0) in
  let sx := if x0 <? x1 then 1 else -1 in
  let sy := if y0 <? y1 then 1 else -1 in
  if dx >? dy then
    do v <- while_ (L := line_vars) (S (Z.to_nat dx))
              (fun '(x, y, err) => negb (x =? x1))
              (fun '(x, y, err) =>
                 set_pixel x y color >>
                 let err := err - dy in
                 let '(y, err) :=
                   if err <? 0 then (y + sy, err + dx) else (y, err) in
                 ret (x + sx, y, err))
              (x0, y0, dx / 2);
    let '(x, y, _) := v in set_pixel x y color
  else
    do v <- while_ (L := line_vars) (S (Z.to_nat dy))
              (fun '(x, y, err) => negb (y =? y1))
              (fun '(x, y, err) =>
                 set_pixel x y color >>
                 let err := err - dx in
                 let '(x, err) :=
                   if err <? 0 then (x + sx, err + dy) else (x, err) in
                 ret (x, y + sy, err))
              (x0, y0, dy / 2);
    let '(x, y, _) := v in set_pixel x y color.

(** The loop variables [(x, y, d, outline_points)] of the outline pass of
    [draw_circle]; [outline_points] is a Python set of coordinate pairs. *)
Definition circle_vars : Type := (Z * Z * Z * gset (Z * Z))%type.

Definition draw_circle (cx cy radius : Z) (outline_color : Color)
    (fill_color : option Color) : M DivoomPixoo64 unit :=
  (* Fill (optional) *)
  match fill_color with
  | Some fill =>
      for_ (range (- radius) (radius + 1)) (fun y_off =>
        for_ (range (- radius) (radius + 1)) (fun x_off =>
          if x_off * x_off + y_off * y_off <=? radius * radius then
            let px := cx + x_off in
            let py := cy + y_off in
            if in_bounds px py then set_pixel px py fill else ret tt
          else ret tt))
  | None => ret tt
  end >>
  (* Midpoint circle algorithm for outline *)
  do v <- while_ (L := circle_vars) (S (S (Z.to_nat radius)))
            (fun '(x, y, d, outline_points) => y <=? x)
            (fun '(x, y, d, outline_points) =>
               let outline_points :=
                 outline_points ∪ list_to_set
                   [ (cx + x, cy + y); (cx - x, cy + y);
                     (cx + x, cy - y); (cx - x, cy - y);
                     (cx + y, cy + x); (cx - y, cy + x);
                     (cx + y, cy - x); (cx - y, cy - x) ] in
               let y := y + 1 in
               if d <? 0 then ret (x, y, d + (2 * y + 1), outline_points)
               else
                 let x := x - 1 in
                 ret (x, y, d + (2 * (y - x) + 1), outline_points))
            (radius, 0, 1 - radius, (∅ : gset (Z * Z)));
  let '(_, _, _, outline_points) := v in
  for_ (elements outline_points) (fun '(px, py) =>
    if in_bounds px py then set_pixel px py outline_color else ret tt).

Definition draw_rectangle (x0 y0 x1 y1 : Z) (outline_color : Color)
    (fill_color : option Color) : M DivoomPixoo64 unit :=
  (* Fill (optional) *)
  match fill_color with
  | Some fill =>
      for_ (range (Z.min y0 y1 + 1) (Z.max y0 y1)) (fun y =>
        for_ (range (Z.min x0 x1 + 1) (Z.max x0 x1)) (fun x =>
          if in_bounds x y then set_pixel x y fill else ret tt))
  | None => ret tt
  end >>
  (* Outline *)
  for_ (range (Z.min x0 x1) (Z.max x0 x1 + 1)) (fun x =>
    for_ [Z.min y0 y1; Z.max y0 y1] (fun y =>
      if in_bounds x y then set_pixel x y outline_color else ret tt)) >>
  for_ (range (Z.min y0 y1) (Z.max y0 y1 + 1)) (fun y =>
    for_ [Z.min x0 x1; Z.max x0 x1] (fun x =>
      if in_bounds x y then set_pixel x y outline_color else ret tt)).

(** [Image.tobytes()]: the pixels in row-major order, three bytes each. *)
Definition tobytes (img : list Color) : list byte :=
  img ≫= (fun '(r, g, b) => [r; g; b]).

Section Transport.

(** The two collaborators of the encoder that live outside the repository:
    [base64.b64encode(frame).decode('utf-8')], and the HTTP exchange, of
    which only success or failure matters here: [post_ok history payload]
    tells whether posting [payload] after the requests [history] succeeds. *)
Variable b64encode : list byte -> string.
Variable post_ok : list Payload -> Payload -> bool.

(** [send_command]: the device's answer is not used by any caller modelled
    here, so the result is [unit]. *)
Definition send_command (payload : Payload) : M DivoomPixoo64 unit :=
  fun d =>
    if post_ok (wire d) payload then
      ({| _pic_id_counter := _pic_id_counter d;
          _buffer := _buffer d;
          wire := wire d ++ [payload] |}, Ret tt)
    else (d, Raise TransportError).

(** Python's [enumerate]. *)
Definition enumerate {A} (xs : list A) : list (Z * A) :=
  imap (fun i x => (Z.of_nat i, x)) xs.

Definition display_animation (image : Pixoo64Animation) (pic_id : option Z)
  : M DivoomPixoo64 unit :=
  match encoded_frames image with
  | [] => raise ValueError
  | _ :: _ =>
      do pic_id <- match pic_id with
                   | None => _get_next_pic_id
                   | Some i => ret i
                   end;
      let pic_num := Z.min (Z.of_nat (length (encoded_frames image))) 60 in
      let pic_width := pic_width image in
      for_ (enumerate (take 60 (encoded_frames image)))
        (fun '(pic_offset, frame) =>
           let payload :=
             {| Command := Some "Draw/SendHttpGif"%string;
                PicNum := Some pic_num;
                PicWidth := Some pic_width;
                PicOffset := Some pic_offset;
                PicID := Some pic_id;
                PicSpeed := Some (frame_delay image);
                PicData := Some (Str (b64encode frame)) |} in
           send_command payload)
  end.

Definition flush_buffer (pic_id : option Z) (frame_delay : Z)
  : M DivoomPixoo64 unit :=
  do pic_id <- match pic_id with
               | None => _get_next_pic_id
               | Some i => ret i
               end;
  do d <- get;
  let frame_data := tobytes (_buffer d) in
  let animation := mkAnimation [frame_data] frame_delay buffer_width in
  display_animation animation (Some pic_id).

End Transport.

End Pixoo.

(** * simulator.py *)

Module Simulator.

(** [AnimationFrame]: [data] is the [(64, 64, 3)] array of [uint8], kept as
    its 12288 bytes in C order. *)
Record AnimationFrame : Type := mkFrame { data : list byte }.

(** Python lists are objects: [current_animation] and [next_animation] hold
    references, and two references may name the same list.  [loc] is the
    address of a list in [objects]. *)
Definition loc : Type := nat.

(** [AnimationManager] *)
Record AnimationManager : Type := mkManager {
  current_animation : loc;
  next_animation : loc;
  current_frame : Z;
  frame_delay : Z;
  receiving_frames : bool
}.

(** [Pixoo64Simulator] with the list objects its manager refers to.
    [display] records the frames handed to
    [display_manager.update_display], oldest first. *)
Record Pixoo64Simulator : Type := mkSim {
  objects : list (list AnimationFrame);
  animation_manager : AnimationManager;
  display : list (list byte)
}.

(** The list a reference points to. *)
Definition deref (s : Pixoo64Simulator) (l : loc) : list AnimationFrame :=
  default [] (objects s !! l).

Definition with_manager (f : AnimationManager -> AnimationManager)
    (s : Pixoo64Simulator) : Pixoo64Simulator :=
  {| objects := objects s;
     animation_manager := f (animation_manager s);
     display := display s |}.

(** [AnimationManager.__init__]: two distinct empty lists. *)
Definition init : Pixoo64Simulator :=
  {| objects := [ []; [] ];
     animation_manager :=
       {| current_animation := 0%nat; next_animation := 1%nat;
          current_frame := 0; frame_delay := 100;
          receiving_frames := false |};
     display := [] |}.

Definition start_new_animation : M Pixoo64Simulator unit :=
  fun s =>
    let am := animation_manager s in
    ({| objects := objects s ++ [ [] ];   (* a new list object: [] *)
        animation_manager :=
          {| current_animation := current_animation am;
             next_animation := length (objects s);
             current_frame := current_frame am;
             frame_delay := frame_delay am;
             receiving_frames := true |};
        display := display s |}, Ret tt).

(** [self.next_animation.append(AnimationFrame(frame_data))]: the list
    object is changed in place. *)
Definition add_frame (frame_data : list byte) : M Pixoo64Simulator unit :=
  fun s =>
    let l := next_animation (animation_manager s) in
    ({| objects := <[l := deref s l ++ [mkFrame frame_data]]> (objects s);
        animation_manager := animation_manager s;
        display := display s |}, Ret tt).

Definition finalize_animation : M Pixoo64Simulator unit :=
  modify (with_manager (fun am =>
    {| current_animation := next_animation am;   (* the same list object *)
       next_animation := next_animation am;
       current_frame := 0;
       frame_delay := frame_delay am;
       receiving_frames := false |})).

Definition set_current_frame (i : Z) : M Pixoo64Simulator unit :=
  modify (with_manager (fun am =>
    {| current_animation := current_animation am;
       next_animation := next_animation am;
       current_frame := i;
       frame_delay := frame_delay am;
       receiving_frames := receiving_frames am |})).

Definition set_frame_delay (ms : Z) : M Pixoo64Simulator unit :=
  modify (with_manager (fun am =>
    {| current_animation := current_animation am;
       next_animation := next_animation am;
       current_frame := current_frame am;
       frame_delay := ms;
       receiving_frames := receiving_frames am |})).

(** Python's [l[i]]: negative indices count from the end; [None] stands
    for [IndexError]. *)
Definition py_index {A} (l : list A) (i : Z) : option A :=
  let n := Z.of_nat (length l) in
  if (0 <=? i) && (i <? n) then l !! Z.to_nat i
  else if (- n <=? i) && (i <? 0) then l !! Z.to_nat (i + n)
  else None.

Definition is_empty {A} (l : list A) : bool :=
  match l with [] => true | _ :: _ => false end.

Definition get_current_frame : M Pixoo64Simulator (option (list byte)) :=
  do s <- get;
  let am := animation_manager s in
  if is_empty (deref s (current_animation am)) || receiving_frames am then
    ret None
  else
    match py_index (deref s (current_animation am)) (current_frame am) with
    | Some frame => ret (Some (data frame))
    | None => set_current_frame 0 >> ret None
    end.

Definition advance_frame : M Pixoo64Simulator unit :=
  do s <- get;
  let am := animation_manager s in
  if is_empty (deref s (current_animation am)) then ret tt
  else set_current_frame
         ((current_frame am + 1)
            `mod` Z.of_nat (length (deref s (current_animation am)))).

(** [DisplayManager.update_display] *)
Definition update_display (frame : list byte) : M Pixoo64Simulator unit :=
  modify (fun s =>
    {| objects := objects s;
       animation_manager := animation_manager s;
       display := display s ++ [frame] |}).

Section Receiver.

(** [base64.b64decode], from the Python library: [None] when it raises. *)
Variable b64decode : string -> option (list byte).

(** The bytes a [PicData] value stands for (lines 178-181). *)
Definition decode_pic_data (pic_data : pic_data) : option (list byte) :=
  match pic_data with
  | Str s => b64decode s
  | Bytes b => Some b
  end.

(** [np.frombuffer(frame_data, dtype=np.uint8).reshape((64, 64, 3))]
    raises [ValueError] unless there are exactly 64*64*3 bytes. *)
Definition reshape_64_64_3 (frame_data : list byte)
  : M Pixoo64Simulator (list byte) :=
  if Z.of_nat (length frame_data) =? 64 * 64 * 3 then ret frame_data
  else raise ValueError.

Definition _handle_send_gif (data : Payload) : M Pixoo64Simulator unit :=
  let pic_data := PicData data in
  let pic_offset := default 0 (PicOffset data) in
  let pic_num := default 1 (PicNum data) in
  set_frame_delay (default 100 (PicSpeed data)) >>
  match pic_data with
  | None => ret tt
  | Some pic_data =>
      do frame_data <- match decode_pic_data pic_data with
                       | Some b => ret b
                       | None => raise DecodeError
                       end;
      do frame_array <- reshape_64_64_3 frame_data;
      (* Start receiving new animation *)
      (if pic_offset =? 0 then start_new_animation else ret tt) >>
      (* Add frame *)
      add_frame frame_array >>
      (* Finalize if last frame *)
      (if pic_offset =? pic_num - 1 then finalize_animation else ret tt)
  end.

(** The HTTP answer of [handle_post]: the [error_code] of its JSON text
    and the HTTP status. *)
Record Response : Type := mkResponse { error_code : Z; status : Z }.

(** [handle_post]; [request] is [None] when the body is not JSON, so that
    [request.json()] raises.  [except Exception] turns every exception
    into a 500 answer; the state keeps what was done before it. *)
Definition handle_post (request : option Payload)
  : M Pixoo64Simulator Response :=
  fun s =>
    let body : M Pixoo64Simulator unit :=
      match request with
      | None => raise ValueError
      | Some data =>
          if bool_decide (Command data = Some "Draw/SendHttpGif"%string)
          then _handle_send_gif data
          else ret tt
      end in
    match body s with
    | (s', Ret _) => (s', Ret (mkResponse 0 200))
    | (s', _) => (s', Ret (mkResponse 1 500))
    end.

End Receiver.

(** One pass through the body of the [while self.running] loop of
    [run_display]; [due] is the verdict of the wall-clock test
    [current_time - last_frame_time >= frame_delay / 1000.0]. *)
Definition run_display_tick (due : bool) : M Pixoo64Simulator unit :=
  if due then
    do frame <- get_current_frame;
    match frame with
    | Some frame => update_display frame >> advance_frame
    | None => ret tt
    end
  else ret tt.

End Simulator.

(** * Vocabulary for the properties of the receiver *)

Module SimulatorDefs.
Import Simulator.

(** The pending accumulator and the published animation, as lists of
    frames: what the two references of the manager point to. *)
Definition pending (s : Pixoo64Simulator) : list AnimationFrame :=
  deref s (next_animation (animation_manager s)).

Definition published (s : Pixoo64Simulator) : list AnimationFrame :=
  deref s (current_animation (animation_manager s)).

(** Both references of the manager name an allocated list. *)
Definition wf (s : Pixoo64Simulator) : Prop :=
  (current_animation (animation_manager s) < length (objects s))%nat /\
  (next_animation (animation_manager s) < length (objects s))%nat.

(** A payload [reshape((64, 64, 3))] accepts. *)
Definition valid_frame (b : list byte) : Prop :=
  Z.of_nat (length b) = 64 * 64 * 3.

(** A [Draw/SendHttpGif] request as the controller builds it. *)
Definition send_gif (pic_id pic_num pic_offset pic_speed : Z)
    (pic_data : pic_data) : Payload :=
  {| Command := Some "Draw/SendHttpGif"%string;
     PicNum := Some pic_num;
     PicWidth := Some 64;
     PicOffset := Some pic_offset;
     PicID := Some pic_id;
     PicSpeed := Some pic_speed;
     PicData := Some pic_data |}.

(** A frame of 64*64*3 bytes, all equal to [b]. *)
Definition solid (b : byte) : list byte := replicate (Z.to_nat (64 * 64 * 3)) b.

(** Changing only the identifier of a message. *)
Definition with_pic_id (pic_id : option Z) (data : Payload) : Payload :=
  {| Command := Command data;
     PicNum := PicNum data;
     PicWidth := PicWidth data;
     PicOffset := PicOffset data;
     PicID := pic_id;
     PicSpeed := PicSpeed data;
     PicData := PicData data |}.

(** A decoder that refuses every string; the runs below carry their
    payloads as bytes, which are not decoded. *)
Definition refuse_all (_ : string) : option (list byte) := None.

(** The simulator after a complete one-frame transfer (as [flush_buffer]
    sends it) of a frame of bytes 01. *)
Definition after_one_frame : Pixoo64Simulator :=
  state_after
    (_handle_send_gif refuse_all (send_gif 400 1 0 100 (Bytes (solid x01))) init).

(** The same, after the first message of a three-frame transfer with
    identifier 401 has also arrived. *)
Definition mid_transfer : Pixoo64Simulator :=
  state_after
    (_handle_send_gif refuse_all (send_gif 401 3 0 100 (Bytes (solid x02)))
       after_one_frame).

(** C1 as the specification states it: a message handled while an
    accumulation started by [m0] is in progress is appended only if it
    carries the PicID and PicNum of [m0]. *)
Definition accepts_only_own_sequence : Prop :=
  forall (b64decode : string -> option (list byte)) (s : Pixoo64Simulator)
         (m0 m : Payload) (b : list byte),
    let s1 := state_after (_handle_send_gif b64decode m0 s) in
    default 0 (PicOffset m0) = 0 ->
    receiving_frames (animation_manager s1) = true ->
    PicData m = Some (Bytes b) ->
    pending (state_after (_handle_send_gif b64decode m s1))
      = pending s1 ++ [mkFrame b] ->
    PicID m = PicID m0 /\ PicNum m = PicNum m0.

(** C3 as the specification states it: a payload of the wrong size leaves
    the accumulator, the receiving flag, the published animation, the
    frame index and the frame delay as they were. *)
Definition malformed_payload_changes_nothing : Prop :=
  forall (b64decode : string -> option (list byte)) (s : Pixoo64Simulator)
         (data : Payload) (pd : pic_data) (b : list byte),
    Command data = Some "Draw/SendHttpGif"%string ->
    PicData data = Some pd -> decode_pic_data b64decode pd = Some b ->
    ~ valid_frame b ->
    let s' := state_after (handle_post b64decode (Some data) s) in
    pending s' = pending s /\
    receiving_frames (animation_manager s')
      = receiving_frames (animation_manager s) /\
    published s' = published s /\
    current_frame (animation_manager s') = current_frame (animation_manager s) /\
    frame_delay (animation_manager s') = frame_delay (animation_manager s).

(** C5 as the specification states it: every acceptable message with
    offset 0 restarts the accumulation with its frame alone and leaves the
    published animation untouched. *)
Definition offset_zero_keeps_published : Prop :=
  forall (b64decode : string -> option (list byte)) (s : Pixoo64Simulator)
         (data : Payload) (pd : pic_data) (b : list byte),
    wf s ->
    PicData data = Some pd -> decode_pic_data b64decode pd = Some b ->
    valid_frame b ->
    default 0 (PicOffset data) = 0 ->
    let s' := state_after (_handle_send_gif b64decode data s) in
    outcome_of (_handle_send_gif b64decode data s) = Ret tt /\
    pending s' = [mkFrame b] /\
    published s' = published s.


(** A [Draw/SendHttpGif] message whose [PicData] stands for exactly
    64*64*3 bytes. *)
Definition carries_frame (b64decode : string -> option (list byte))
    (data : Payload) : Prop :=
  exists pd b,
    PicData data = Some pd /\ decode_pic_data b64decode pd = Some b /\
    valid_frame b.


(** The states of a running simulator: what [__init__] builds, followed by
    any number of requests and passes of the display loop, in any order. *)
Inductive reachable (b64decode : string -> option (list byte))
  : Pixoo64Simulator -> Prop :=
| reachable_init : reachable b64decode init
| reachable_post (s : Pixoo64Simulator) (request : option Payload) :
    reachable b64decode s ->
    reachable b64decode (state_after (handle_post b64decode request s))
| reachable_tick (s : Pixoo64Simulator) (due : bool) :
    reachable b64decode s ->
    reachable b64decode (state_after (run_display_tick due s)).

(** The frame index is 0 or a position of the published animation. *)
Definition index_ok (s : Pixoo64Simulator) : Prop :=
  0 <= current_frame (animation_manager s) /\
  (current_frame (animation_manager s) = 0 \/
   current_frame (animation_manager s) < Z.of_nat (length (published s))).

(** [n] passes of the display loop, each with its frame delay elapsed. *)
Definition due_ticks (n : nat) : M Pixoo64Simulator unit :=
  for_ (replicate n tt) (fun _ => run_display_tick true).

(** The simulator after a complete three-frame transfer. *)
Definition after_three_frames : Pixoo64Simulator :=
  state_after
    ((_handle_send_gif refuse_all (send_gif 401 3 0 100 (Bytes (solid x01))) >>
      _handle_send_gif refuse_all (send_gif 401 3 1 100 (Bytes (solid x02))) >>
      _handle_send_gif refuse_all (send_gif 401 3 2 100 (Bytes (solid x03))))
       init).

End SimulatorDefs.

(** * Vocabulary for the properties of the controller *)

Module PixooDefs.
Import Pixoo.

(** The image has its 64 x 64 pixels. *)
Definition buffer_wf (d : DivoomPixoo64) : Prop :=
  Z.of_nat (length (_buffer d)) = buffer_width * buffer_width.

(** [(x, y)] lies on the canvas. *)
Definition on_canvas (x y : Z) : Prop :=
  0 <= x < buffer_width /\ 0 <= y < buffer_width.

(** [m] returns normally from every state. *)
Definition returns {A} (m : M DivoomPixoo64 A) : Prop :=
  forall d, exists d' a, m d = (d', Ret a).

(** A colour for the runs below. *)
Definition orange : Color := (xff, x80, x00).

(** The message [display_animation] builds for one frame. *)
Definition transfer_message (b64encode : list byte -> string)
    (pic_id pic_num pic_width pic_offset pic_speed : Z)
    (frame : list byte) : Payload :=
  {| Command := Some "Draw/SendHttpGif"%string;
     PicNum := Some pic_num;
     PicWidth := Some pic_width;
     PicOffset := Some pic_offset;
     PicID := Some pic_id;
     PicSpeed := Some pic_speed;
     PicData := Some (Str (b64encode frame)) |}.

(** The controller after [msgs] more requests went out. *)
Definition posted (msgs : list Payload) (d : DivoomPixoo64) : DivoomPixoo64 :=
  {| _pic_id_counter := _pic_id_counter d;
     _buffer := _buffer d;
     wire := wire d ++ msgs |}.

(** An encoder for the runs below; [display_animation] only carries the
    text it returns. *)
Definition frame_size_text (frame : list byte) : string :=
  match frame with
  | [] => "empty"
  | _ :: _ => "frame"
  end.

(** A transport that never fails. *)
Definition always_up (_ : list Payload) (_ : Payload) : bool := true.

(** An animation of 61 three-byte frames, delay 100 ms, width 64. *)
Definition sixty_one_frames : Pixoo64Animation :=
  mkAnimation (replicate 61 [x00; x01; x02]) 100 64.

(** Both loops of [draw_line] are the same walk along the major axis:
    [D] and [m] are the major and the minor extent, [sa] and [sb] the unit
    steps along them, [(a, b)] the current cell as (major, minor) and
    [err] the error term. *)
Section Walk.

Variables D m sa sb : Z.

(** The cells written by [n] turns of the loop, in order. *)
Fixpoint walk_cells (n : nat) (a b err : Z) : list (Z * Z) :=
  match n with
  | O => []
  | S n' =>
      (a, b) ::
      (if err - m <? 0 then walk_cells n' (a + sa) (b + sb) (err - m + D)
       else walk_cells n' (a + sa) b (err - m))
  end.

(** The loop variables after [n] turns. *)
Fixpoint walk_end (n : nat) (a b err : Z) : Z * Z * Z :=
  match n with
  | O => (a, b, err)
  | S n' =>
      if err - m <? 0 then walk_end n' (a + sa) (b + sb) (err - m + D)
      else walk_end n' (a + sa) b (err - m)
  end.

(** Number of minor steps taken during the first [k] turns. *)
Definition minor_at (err k : Z) : Z := (k * m + (D - 1 - err)) / D.

Definition cell_at (a b err : Z) (k : nat) : Z * Z :=
  (a + sa * Z.of_nat k, b + sb * minor_at err (Z.of_nat k)).

End Walk.

(** From (major, minor) to [(x, y)] when [y] is the major axis. *)
Definition swap (p : Z * Z) : Z * Z := (snd p, fst p).

(** The pixels [draw_line] hands to [set_pixel], in order, as [(x, y)]:
    the cells of the loop that runs, then the last pixel. *)
Definition line_pixels (x0 y0 x1 y1 : Z) : list (Z * Z) :=
  let dx := Z.abs (x1 - x0) in
  let dy := Z.abs (y1 - y0) in
  let sx := if x0 <? x1 then 1 else -1 in
  let sy := if y0 <? y1 then 1 else -1 in
  if dx >? dy then
    walk_cells dx dy sx sy (Z.to_nat dx) x0 y0 (dx / 2)
      ++ [fst (walk_end dx dy sx sy (Z.to_nat dx) x0 y0 (dx / 2))]
  else
    map swap
      (walk_cells dy dx sy sx (Z.to_nat dy) y0 x0 (dy / 2)
         ++ [fst (walk_end dy dx sy sx (Z.to_nat dy) y0 x0 (dy / 2))]).

(** Writing a list of pixels in one colour. *)
Definition write_all (color : Color) (pixels : list (Z * Z))
  : M DivoomPixoo64 unit :=
  for_ pixels (fun p => set_pixel (fst p) (snd p) color).

(** Number of steps along the major axis. *)
Definition major_extent (x0 y0 x1 y1 : Z) : Z :=
  Z.max (Z.abs (x1 - x0)) (Z.abs (y1 - y0)).

(** The [k]-th pixel of the line, in closed form. *)
Definition pixel_at (x0 y0 x1 y1 : Z) (k : nat) : Z * Z :=
  let dx := Z.abs (x1 - x0) in
  let dy := Z.abs (y1 - y0) in
  let sx := if x0 <? x1 then 1 else -1 in
  let sy := if y0 <? y1 then 1 else -1 in
  if dx >? dy then cell_at dx dy sx sy x0 y0 (dx / 2) k
  else swap (cell_at dy dx sy sx y0 x0 (dy / 2) k).

(** C8 as the specification states it: drawing a line between two pixels
    of the canvas from either end writes the same set of pixels
    ([draw_line] writes exactly [line_pixels], see [draw_line_writes]). *)
Definition draw_line_symmetric : Prop :=
  forall x0 y0 x1 y1 : Z,
    on_canvas x0 y0 -> on_canvas x1 y1 ->
    forall p : Z * Z,
      p ∈ line_pixels x0 y0 x1 y1 <-> p ∈ line_pixels x1 y1 x0 y0.

(** ** Vocabulary for what a drawing operation does to the image *)

(** [m] returns normally from every well-formed controller, leaves the
    identifier counter and the transport alone, keeps the image at its
    size, and makes the pixels of the canvas selected by [sel] read
    [color] while every other pixel reads as before. *)
Definition paints {A} (m : M DivoomPixoo64 A) (color : Color)
    (sel : Z -> Z -> bool) : Prop :=
  forall d,
    buffer_wf d ->
    exists d' a,
      m d = (d', Ret a) /\
      buffer_wf d' /\
      _pic_id_counter d' = _pic_id_counter d /\
      wire d' = wire d /\
      forall x y,
        on_canvas x y ->
        getpixel (_buffer d') x y
        = if sel x y then Some color else getpixel (_buffer d) x y.

(** [(x, y)] is the pixel [p]. *)
Definition is_pixel (p : Z * Z) (x y : Z) : bool :=
  (x =? fst p) && (y =? snd p).

(** The eight points the outline loop of [draw_circle] adds for the
    offsets [(x, y)]. *)
Definition octant_points (cx cy x y : Z) : list (Z * Z) :=
  [ (cx + x, cy + y); (cx - x, cy + y);
    (cx + x, cy - y); (cx - x, cy - y);
    (cx + y, cy + x); (cx - y, cy + x);
    (cx + y, cy - x); (cx - y, cy - x) ].

(** The set the outline loop of [draw_circle] leaves in [outline_points]
    when started with [fuel] turns from the variables [(x, y, d, pts)]. *)
Fixpoint outline_from (cx cy : Z) (fuel : nat) (x y d : Z)
    (pts : gset (Z * Z)) : gset (Z * Z) :=
  match fuel with
  | O => pts
  | S fuel' =>
      if y <=? x then
        let pts := pts ∪ list_to_set (octant_points cx cy x y) in
        let y := y + 1 in
        if d <? 0 then outline_from cx cy fuel' x y (d + (2 * y + 1)) pts
        else
          let x := x - 1 in
          outline_from cx cy fuel' x y (d + (2 * (y - x) + 1)) pts
      else pts
  end.

(** The outline of the circle of centre [(cx, cy)] and radius [radius],
    as [draw_circle] computes it. *)
Definition outline_set (cx cy radius : Z) : gset (Z * Z) :=
  outline_from cx cy (S (S (Z.to_nat radius))) radius 0 (1 - radius) ∅.

(** How far the pixel [(x, y)] is from the circle: the square of its
    distance to the centre minus the square of the radius. *)
Definition circle_excess (cx cy radius x y : Z) : Z :=
  (x - cx) * (x - cx) + (y - cy) * (y - cy) - radius * radius.


(** A transport that fails once [n] requests went through. *)
Definition down_after (n : nat) (h : list Payload) (_ : Payload) : bool :=
  (length h <? n)%nat.

(** An animation of three one-byte frames, delay 100 ms, width 64. *)
Definition three_frames : Pixoo64Animation :=
  mkAnimation [[x00]; [x01]; [x02]] 100 64.

End PixooDefs.

(** * Vocabulary for the two programs together *)

Module LinkDefs.

(** The transport when the simulator is the device: [send_command] posts
    to [/post], which [start] routes to [handle_post]; the requests arrive
    in the order they were posted, their JSON bodies intact.  [deliver]
    hands a list of requests to the simulator and gathers the answers. *)
Fixpoint deliver (b64decode : string -> option (list byte))
    (requests : list Payload)
  : M Simulator.Pixoo64Simulator (list Simulator.Response) :=
  match requests with
  | [] => ret []
  | request :: rest =>
      do answer <- Simulator.handle_post b64decode (Some request);
      do answers <- deliver b64decode rest;
      ret (answer :: answers)
  end.

(** What the controller posted during a run that started in [d]. *)
Definition sent_since (d : Pixoo.DivoomPixoo64)
    (r : Pixoo.DivoomPixoo64 * outcome unit) : list Payload :=
  drop (length (Pixoo.wire d)) (Pixoo.wire (state_after r)).

(** A text encoding with an inverse, for the runs below: every byte as one
    character. *)
Definition as_text (b : list byte) : string := string_of_list_byte b.

Definition from_text (s : string) : option (list byte) :=
  Some (list_byte_of_string s).

(** An animation of two full frames, delay 50 ms. *)
Definition two_frames : Pixoo.Pixoo64Animation :=
  Pixoo.mkAnimation [SimulatorDefs.solid x01; SimulatorDefs.solid x02] 50 64.

End LinkDefs.

(** * Facts about the monad *)

Lemma bind_ret_l {St A B} (a : A) (k : A -> M St B) : bind (ret a) k = k a.
Proof. reflexivity. Qed.

Lemma bind_raise_l {St A B} (e : exn) (k : A -> M St B) :
  bind (raise e) k = raise e.
Proof. reflexivity. Qed.

Lemma for_app {St A} (xs ys : list A) (body : A -> M St unit) (s : St) :
  for_ (xs ++ ys) body s = (for_ xs body >> for_ ys body) s.
Proof.
  revert s. induction xs as [| x xs IH]; intros s; simpl.
  - reflexivity.
  - unfold bind. destruct (body x s) as [s' [[] | e |]]; try reflexivity.
    rewrite IH. reflexivity.
Qed.

Lemma bind_assoc {St A B C} (m : M St A) (k : A -> M St B) (h : B -> M St C)
    (s : St) :
  bind (bind m k) h s = bind m (fun a => bind (k a) h) s.
Proof.
  unfold bind. destruct (m s) as [s' [a | e |]]; reflexivity.
Qed.

Lemma bind_ext {St A B} (m : M St A) (k k' : A -> M St B) (s : St) :
  (forall a s', k a s' = k' a s') -> bind m k s = bind m k' s.
Proof.
  intros H. unfold bind. destruct (m s) as [s' [a | e |]]; auto.
Qed.

Lemma bind_ext_l {St A B} (m m' : M St A) (k : A -> M St B) (s : St) :
  m s = m' s -> bind m k s = bind m' k s.
Proof. intros H. unfold bind. rewrite H. reflexivity. Qed.

Lemma for_ext {St A} (xs : list A) (body body' : A -> M St unit) :
  (forall x s, body x s = body' x s) ->
  forall s, for_ xs body s = for_ xs body' s.
Proof.
  intros Hext. induction xs as [| x xs IH]; intros s; simpl.
  - reflexivity.
  - unfold bind. rewrite Hext.
    destruct (body' x s) as [s' [[] | e |]]; try reflexivity. apply IH.
Qed.

Lemma for_map {St A B} (f : A -> B) (xs : list A) (body : B -> M St unit) :
  forall s, for_ (map f xs) body s = for_ xs (fun x => body (f x)) s.
Proof.
  induction xs as [| x xs IH]; intros s; simpl.
  - reflexivity.
  - unfold bind. destruct (body (f x) s) as [s' [[] | e |]]; try reflexivity.
    apply IH.
Qed.

Lemma for_snoc {St A} (xs : list A) (x : A) (body : A -> M St unit) (s : St) :
  for_ (xs ++ [x]) body s = (for_ xs body >> body x) s.
Proof.
  rewrite for_app. unfold bind.
  destruct (for_ xs body s) as [s' [[] | e |]]; try reflexivity.
  simpl. unfold bind. destruct (body x s') as [s'' [[] | e |]]; reflexivity.
Qed.

(** * Properties of the receiver (simulator.py) *)

Module SimulatorSpec.
Import Simulator SimulatorDefs.

Lemma init_wf : wf init.
Proof. unfold wf, init; simpl; lia. Qed.

Lemma solid_valid b : valid_frame (solid b).
Proof. unfold valid_frame, solid. rewrite length_replicate. lia. Qed.

Section Receiver.

Variable b64decode : string -> option (list byte).

Local Abbreviation handle := (_handle_send_gif b64decode).
Local Abbreviation decode := (decode_pic_data b64decode).

Lemma reshape_valid (b : list byte) (s : Pixoo64Simulator) :
  valid_frame b -> reshape_64_64_3 b s = (s, Ret b).
Proof.
  unfold valid_frame, reshape_64_64_3. intros ->. reflexivity.
Qed.

Lemma reshape_invalid (b : list byte) (s : Pixoo64Simulator) :
  ~ valid_frame b -> reshape_64_64_3 b s = (s, Raise ValueError).
Proof.
  unfold valid_frame, reshape_64_64_3. intros H.
  destruct (Z.eqb_spec (Z.of_nat (length b)) (64 * 64 * 3)); [contradiction | reflexivity].
Qed.

(** What handling a message with an acceptable payload does, field by
    field.  [published] changes outside finalization exactly when the two
    references name the same list and the offset is not 0. *)
Lemma handle_valid (s : Pixoo64Simulator) (data : Payload) (pd : pic_data)
    (b : list byte) :
  wf s ->
  PicData data = Some pd -> decode pd = Some b -> valid_frame b ->
  let off := default 0 (PicOffset data) in
  let last := off =? default 1 (PicNum data) - 1 in
  let am := animation_manager s in
  exists s',
    handle data s = (s', Ret tt) /\ wf s' /\
    pending s' = (if off =? 0 then [] else pending s) ++ [mkFrame b] /\
    published s' =
      (if last then pending s'
       else if off =? 0 then published s
       else if decide (current_animation am = next_animation am)
            then published s ++ [mkFrame b]
            else published s) /\
    receiving_frames (animation_manager s') =
      (if last then false
       else if off =? 0 then true else receiving_frames am) /\
    current_frame (animation_manager s') =
      (if last then 0 else current_frame am) /\
    frame_delay (animation_manager s') = default 100 (PicSpeed data) /\
    display s' = display s.
Proof.
  intros [Hc Hn] Hpd Hdec Hb off last am.
  unfold _handle_send_gif. rewrite Hpd.
  unfold bind at 1. simpl.
  unfold bind at 1. rewrite Hdec. simpl.
  unfold bind at 1. rewrite reshape_valid by exact Hb.
  fold off. fold last.
  destruct s as [objs [cur nxt cf fd rf] disp].
  unfold wf, pending, published, deref in *; simpl in *. subst am; simpl.
  destruct (off =? 0) eqn:Eoff; destruct last eqn:Elast;
    unfold bind, start_new_animation, add_frame, finalize_animation, modify,
      with_manager, ret, deref; simpl;
    eexists; (split; [reflexivity |]); simpl.
  - rewrite length_insert, length_app; simpl.
    rewrite list_lookup_insert_eq by (rewrite length_app; simpl; lia).
    rewrite lookup_app_r by lia. rewrite Nat.sub_diag. simpl.
    repeat split; lia.
  - rewrite length_insert, length_app; simpl.
    rewrite list_lookup_insert_eq by (rewrite length_app; simpl; lia).
    rewrite lookup_app_r by lia. rewrite Nat.sub_diag. simpl.
    rewrite list_lookup_insert_ne by lia.
    rewrite lookup_app_l by lia.
    repeat split; lia.
  - rewrite length_insert.
    rewrite list_lookup_insert_eq by lia.
    repeat split; lia.
  - rewrite length_insert.
    rewrite list_lookup_insert_eq by lia.
    destruct (decide (cur = nxt)) as [-> | Hne].
    + rewrite list_lookup_insert_eq by lia. repeat split; lia.
    + rewrite list_lookup_insert_ne by congruence. repeat split; lia.
Qed.

(** Whatever the message, the frame delay is overwritten first and the
    display is not touched. *)
Lemma handle_frame_delay (s : Pixoo64Simulator) (data : Payload) :
  frame_delay (animation_manager (state_after (handle data s)))
    = default 100 (PicSpeed data) /\
  display (state_after (handle data s)) = display s.
Proof.
  unfold _handle_send_gif, state_after, bind, set_frame_delay, modify,
    reshape_64_64_3, ret, raise, start_new_animation, add_frame,
    finalize_animation.
  simpl.
  destruct (PicData data) as [pd |]; simpl; [| split; reflexivity].
  destruct (decode pd) as [b |]; simpl; [| split; reflexivity].
  destruct (Z.of_nat (length b) =? 64 * 64 * 3); simpl; [| split; reflexivity].
  destruct (default 0 (PicOffset data) =? 0);
    destruct (default 0 (PicOffset data) =? default 1 (PicNum data) - 1);
    split; reflexivity.
Qed.

(** A message whose payload has the wrong size: [reshape] raises after the
    frame delay was stored, and nothing else was done. *)
Lemma handle_invalid (s : Pixoo64Simulator) (data : Payload) (pd : pic_data)
    (b : list byte) :
  PicData data = Some pd -> decode pd = Some b -> ~ valid_frame b ->
  handle data s =
    (state_after (set_frame_delay (default 100 (PicSpeed data)) s),
     Raise ValueError).
Proof.
  intros Hpd Hdec Hb. unfold _handle_send_gif. rewrite Hpd.
  unfold bind at 1. simpl.
  unfold bind at 1. rewrite Hdec. simpl.
  unfold bind at 1. rewrite reshape_invalid by exact Hb. reflexivity.
Qed.

(** While [receiving_frames] is set no frame is handed out. *)
Lemma get_current_frame_receiving (s : Pixoo64Simulator) :
  receiving_frames (animation_manager s) = true ->
  get_current_frame s = (s, Ret None).
Proof.
  intros H. unfold get_current_frame, bind, get. simpl. rewrite H.
  rewrite orb_true_r. reflexivity.
Qed.

Lemma run_display_tick_receiving (s : Pixoo64Simulator) (due : bool) :
  receiving_frames (animation_manager s) = true ->
  run_display_tick due s = (s, Ret tt).
Proof.
  intros H. unfold run_display_tick. destruct due; [| reflexivity].
  unfold bind. rewrite get_current_frame_receiving by exact H. reflexivity.
Qed.

(** C1 (as amended): while receiving, a message with a present payload of
    exactly 64*64*3 bytes and a non-zero offset is appended to the pending
    accumulator whatever its PicID and PicNum; the handler never reads
    PicID, so replacing it changes nothing. *)
Theorem receiving_appends_any_sequence (s : Pixoo64Simulator)
    (data : Payload) (pd : pic_data) (b : list byte) (other_id : option Z) :
  wf s ->
  receiving_frames (animation_manager s) = true ->
  PicData data = Some pd -> decode pd = Some b -> valid_frame b ->
  default 0 (PicOffset data) <> 0 ->
  outcome_of (handle data s) = Ret tt /\
  pending (state_after (handle data s)) = pending s ++ [mkFrame b] /\
  handle (with_pic_id other_id data) s = handle data s.
Proof.
  intros Hwf _ Hpd Hdec Hb Hoff.
  destruct (handle_valid s data pd b Hwf Hpd Hdec Hb)
    as (s' & Hrun & _ & Hpend & _).
  rewrite Hrun. unfold outcome_of, state_after. simpl.
  apply Z.eqb_neq in Hoff. rewrite Hoff in Hpend.
  repeat split; [exact Hpend |].
  rewrite <- Hrun. reflexivity.
Qed.

(** C3 (as amended): a Draw/SendHttpGif message whose payload decodes to a
    number of bytes other than 64*64*3 is answered with status 500 instead
    of crashing, and the only change to the receiver is the frame delay,
    which is already set to the message's PicSpeed (100 if absent): the
    lists, both references, the receiving flag, the frame index and the
    display are as before. *)
Theorem malformed_payload_only_sets_delay (s : Pixoo64Simulator)
    (data : Payload) (pd : pic_data) (b : list byte) :
  Command data = Some "Draw/SendHttpGif"%string ->
  PicData data = Some pd -> decode pd = Some b -> ~ valid_frame b ->
  let s' := state_after (handle_post b64decode (Some data) s) in
  outcome_of (handle_post b64decode (Some data) s) = Ret (mkResponse 1 500) /\
  s' = state_after (set_frame_delay (default 100 (PicSpeed data)) s) /\
  frame_delay (animation_manager s') = default 100 (PicSpeed data) /\
  objects s' = objects s /\
  pending s' = pending s /\
  published s' = published s /\
  receiving_frames (animation_manager s')
    = receiving_frames (animation_manager s) /\
  current_frame (animation_manager s') = current_frame (animation_manager s) /\
  display s' = display s.
Proof.
  intros Hcmd Hpd Hdec Hb.
  unfold handle_post. rewrite Hcmd.
  rewrite bool_decide_eq_true_2 by reflexivity.
  rewrite (handle_invalid s data pd b Hpd Hdec Hb).
  unfold state_after, outcome_of; simpl. repeat split.
Qed.

(** C4: a message with an acceptable payload whose offset is the total
    minus 1 finalizes: the whole pending list, the new frame last, becomes
    the published animation, the frame index is 0 and the receiving flag
    is cleared.  In particular offsets 0, 1, 2 of a total of 3 for
    identifier 401 publish exactly the three frames in order. *)
Theorem last_offset_publishes_pending :
  (forall (s : Pixoo64Simulator) (data : Payload) (pd : pic_data)
          (b : list byte),
     wf s ->
     PicData data = Some pd -> decode pd = Some b -> valid_frame b ->
     default 0 (PicOffset data) = default 1 (PicNum data) - 1 ->
     let s' := state_after (handle data s) in
     outcome_of (handle data s) = Ret tt /\
     published s' =
       (if default 0 (PicOffset data) =? 0 then [] else pending s)
         ++ [mkFrame b] /\
     current_frame (animation_manager s') = 0 /\
     receiving_frames (animation_manager s') = false) /\
  (forall (s : Pixoo64Simulator) (p0 p1 p2 : pic_data) (f0 f1 f2 : list byte)
          (speed : Z),
     wf s ->
     decode p0 = Some f0 -> decode p1 = Some f1 -> decode p2 = Some f2 ->
     valid_frame f0 -> valid_frame f1 -> valid_frame f2 ->
     let run := handle (send_gif 401 3 0 speed p0) >>
                handle (send_gif 401 3 1 speed p1) >>
                handle (send_gif 401 3 2 speed p2) in
     outcome_of (run s) = Ret tt /\
     published (state_after (run s)) = [mkFrame f0; mkFrame f1; mkFrame f2] /\
     current_frame (animation_manager (state_after (run s))) = 0 /\
     receiving_frames (animation_manager (state_after (run s))) = false).
Proof.
  split.
  - intros s data pd b Hwf Hpd Hdec Hb Hlast.
    destruct (handle_valid s data pd b Hwf Hpd Hdec Hb)
      as (s' & Hrun & _ & Hpend & Hpub & Hrecv & Hcur & _).
    apply Z.eqb_eq in Hlast. rewrite Hlast in Hpub, Hrecv, Hcur.
    rewrite Hrun. unfold outcome_of, state_after. simpl.
    rewrite Hpub, Hpend. auto.
  - intros s p0 p1 p2 f0 f1 f2 speed Hwf H0 H1 H2 V0 V1 V2 run.
    destruct (handle_valid s (send_gif 401 3 0 speed p0) p0 f0
                Hwf eq_refl H0 V0)
      as (s1 & R1 & Hwf1 & Hpend1 & _).
    destruct (handle_valid s1 (send_gif 401 3 1 speed p1) p1 f1
                Hwf1 eq_refl H1 V1)
      as (s2 & R2 & Hwf2 & Hpend2 & _).
    destruct (handle_valid s2 (send_gif 401 3 2 speed p2) p2 f2
                Hwf2 eq_refl H2 V2)
      as (s3 & R3 & _ & Hpend3 & Hpub3 & Hrecv3 & Hcur3 & _).
    simpl in Hpend1, Hpend2, Hpend3, Hpub3, Hrecv3, Hcur3.
    assert (Hrun : run s = (s3, Ret tt)).
    { unfold run, bind. rewrite R1, R2. exact R3. }
    rewrite Hrun. unfold outcome_of, state_after. simpl.
    rewrite Hpub3, Hpend3, Hpend2, Hpend1. auto.
Qed.

(** C5 (as amended): from every state, a message with offset 0 and an
    acceptable payload raises nothing and leaves the pending accumulator
    holding its frame alone; the published animation and the frame index
    are untouched unless the message is also the last one of its sequence
    (PicNum is 1 or absent), in which case that single frame is
    published. *)
Theorem offset_zero_restarts (s : Pixoo64Simulator) (data : Payload)
    (pd : pic_data) (b : list byte) :
  wf s ->
  PicData data = Some pd -> decode pd = Some b -> valid_frame b ->
  default 0 (PicOffset data) = 0 ->
  let s' := state_after (handle data s) in
  outcome_of (handle data s) = Ret tt /\
  pending s' = [mkFrame b] /\
  (default 1 (PicNum data) <> 1 ->
     published s' = published s /\
     current_frame (animation_manager s') = current_frame (animation_manager s) /\
     receiving_frames (animation_manager s') = true) /\
  (default 1 (PicNum data) = 1 ->
     published s' = [mkFrame b] /\
     current_frame (animation_manager s') = 0 /\
     receiving_frames (animation_manager s') = false).
Proof.
  intros Hwf Hpd Hdec Hb Hoff.
  destruct (handle_valid s data pd b Hwf Hpd Hdec Hb)
    as (s' & Hrun & _ & Hpend & Hpub & Hrecv & Hcur & _).
  rewrite Hoff in Hpend, Hpub, Hrecv, Hcur.
  rewrite Hrun. unfold outcome_of, state_after. simpl.
  destruct (Z.eqb_spec 0 (default 1 (PicNum data) - 1)) as [E | E];
    simpl in Hpend, Hpub, Hrecv, Hcur.
  - repeat split; try assumption; try lia. congruence.
  - repeat split; try assumption; try lia.
Qed.

(** C9: while the receiving flag is set, get_current_frame returns None
    and the render tick renders nothing and moves nothing, whatever the
    published animation holds; and the flag is set, with the published
    animation intact, from the moment an offset-0 message of a longer
    sequence has been handled. *)
Theorem no_render_while_receiving :
  (forall s : Pixoo64Simulator,
     receiving_frames (animation_manager s) = true ->
     get_current_frame s = (s, Ret None) /\
     forall due : bool, run_display_tick due s = (s, Ret tt)) /\
  (forall (s : Pixoo64Simulator) (data : Payload) (pd : pic_data)
          (b : list byte),
     wf s ->
     PicData data = Some pd -> decode pd = Some b -> valid_frame b ->
     default 0 (PicOffset data) = 0 -> default 1 (PicNum data) <> 1 ->
     let s' := state_after (handle data s) in
     published s' = published s /\
     get_current_frame s' = (s', Ret None) /\
     forall due : bool, run_display_tick due s' = (s', Ret tt)).
Proof.
  split.
  - intros s H. split.
    + apply get_current_frame_receiving, H.
    + intros due. apply run_display_tick_receiving, H.
  - intros s data pd b Hwf Hpd Hdec Hb Hoff Hnum.
    destruct (handle_valid s data pd b Hwf Hpd Hdec Hb)
      as (s' & Hrun & _ & _ & Hpub & Hrecv & _).
    rewrite Hoff in Hpub, Hrecv.
    destruct (Z.eqb_spec 0 (default 1 (PicNum data) - 1)); [lia |].
    simpl in Hpub, Hrecv.
    rewrite Hrun. unfold state_after. simpl.
    split; [exact Hpub |]. split.
    + apply get_current_frame_receiving, Hrecv.
    + intros due. apply run_display_tick_receiving, Hrecv.
Qed.

End Receiver.

(** ** Concrete runs *)

Lemma after_one_frame_wf : wf after_one_frame.
Proof. unfold wf. vm_compute. lia. Qed.

Lemma mid_transfer_wf : wf mid_transfer.
Proof. unfold wf. vm_compute. lia. Qed.

(** C1 fails: after offset 0 of identifier 401 (total 3), a message of
    identifier 999 (total 7) is appended to the same accumulation. *)
Lemma foreign_message_is_appended : ~ accepts_only_own_sequence.
Proof.
  intros H.
  specialize (H refuse_all after_one_frame
                (send_gif 401 3 0 100 (Bytes (solid x02)))
                (send_gif 999 7 1 100 (Bytes (solid x03)))
                (solid x03)).
  destruct H as [Hid _]; try (vm_compute; reflexivity).
  discriminate Hid.
Qed.

Lemma receiving_appends_any_sequence_witness :
  pending
    (state_after
       (_handle_send_gif refuse_all
          (send_gif 999 7 1 100 (Bytes (solid x03))) mid_transfer))
    = pending mid_transfer ++ [mkFrame (solid x03)].
Proof.
  refine (proj1 (proj2
    (receiving_appends_any_sequence refuse_all mid_transfer
       (send_gif 999 7 1 100 (Bytes (solid x03))) (Bytes (solid x03))
       (solid x03) (Some 401) mid_transfer_wf _ _ _ (solid_valid x03) _))).
  - vm_compute; reflexivity.
  - reflexivity.
  - reflexivity.
  - simpl; lia.
Defined.

(** C3 fails: a one-byte payload with PicSpeed 250 sets the frame delay
    of a fresh simulator to 250. *)
Lemma malformed_payload_sets_delay : ~ malformed_payload_changes_nothing.
Proof.
  intros H.
  specialize (H refuse_all init (send_gif 401 1 0 250 (Bytes [x00]))
                (Bytes [x00]) [x00] eq_refl eq_refl eq_refl).
  destruct H as (_ & _ & _ & _ & Hdelay).
  - unfold valid_frame. simpl. lia.
  - vm_compute in Hdelay. discriminate Hdelay.
Qed.

Lemma malformed_payload_only_sets_delay_witness :
  outcome_of
    (handle_post refuse_all (Some (send_gif 401 1 0 250 (Bytes [x00])))
       mid_transfer) = Ret (mkResponse 1 500) /\
  pending
    (state_after
       (handle_post refuse_all (Some (send_gif 401 1 0 250 (Bytes [x00])))
          mid_transfer)) = pending mid_transfer.
Proof.
  assert (Hbad : ~ valid_frame [x00]) by (unfold valid_frame; simpl; lia).
  pose proof (malformed_payload_only_sets_delay refuse_all mid_transfer
                (send_gif 401 1 0 250 (Bytes [x00])) (Bytes [x00]) [x00]
                eq_refl eq_refl eq_refl Hbad) as H.
  exact (conj (proj1 H) (proj1 (proj2 (proj2 (proj2 (proj2 H)))))).
Defined.

Lemma last_offset_publishes_pending_witness :
  published
    (state_after
       (_handle_send_gif refuse_all
          (send_gif 401 2 1 100 (Bytes (solid x03))) mid_transfer))
    = [mkFrame (solid x02); mkFrame (solid x03)] /\
  published
    (state_after
       ((_handle_send_gif refuse_all (send_gif 401 3 0 100 (Bytes (solid x01))) >>
         _handle_send_gif refuse_all (send_gif 401 3 1 100 (Bytes (solid x02))) >>
         _handle_send_gif refuse_all (send_gif 401 3 2 100 (Bytes (solid x03))))
          init))
    = [mkFrame (solid x01); mkFrame (solid x02); mkFrame (solid x03)].
Proof.
  split.
  - exact (proj1 (proj2
      (proj1 (last_offset_publishes_pending refuse_all) mid_transfer
         (send_gif 401 2 1 100 (Bytes (solid x03))) (Bytes (solid x03))
         (solid x03) mid_transfer_wf eq_refl eq_refl (solid_valid x03)
         eq_refl))).
  - exact (proj1 (proj2
      (proj2 (last_offset_publishes_pending refuse_all) init
         (Bytes (solid x01)) (Bytes (solid x02)) (Bytes (solid x03))
         (solid x01) (solid x02) (solid x03) 100 init_wf
         eq_refl eq_refl eq_refl
         (solid_valid x01) (solid_valid x02) (solid_valid x03)))).
Defined.

(** C5 fails when the offset-0 message is a whole one-frame animation
    (PicNum 1): the published frame 01 is replaced by frame 02. *)
Lemma single_frame_replaces_published : ~ offset_zero_keeps_published.
Proof.
  intros H.
  specialize (H refuse_all after_one_frame
                (send_gif 401 1 0 100 (Bytes (solid x02)))
                (Bytes (solid x02)) (solid x02) after_one_frame_wf
                eq_refl eq_refl (solid_valid x02) eq_refl).
  destruct H as (_ & _ & Hpub).
  apply (f_equal (fun l => head (data <$> l) ≫= head)) in Hpub.
  vm_compute in Hpub. discriminate Hpub.
Qed.

Lemma offset_zero_restarts_witness :
  pending
    (state_after
       (_handle_send_gif refuse_all
          (send_gif 402 3 0 100 (Bytes (solid x03))) mid_transfer))
    = [mkFrame (solid x03)].
Proof.
  exact (proj1 (proj2
    (offset_zero_restarts refuse_all mid_transfer
       (send_gif 402 3 0 100 (Bytes (solid x03))) (Bytes (solid x03))
       (solid x03) mid_transfer_wf eq_refl eq_refl (solid_valid x03)
       eq_refl))).
Defined.

Lemma no_render_while_receiving_witness :
  published mid_transfer = [mkFrame (solid x01)] /\
  get_current_frame mid_transfer = (mid_transfer, Ret None) /\
  run_display_tick true mid_transfer = (mid_transfer, Ret tt).
Proof.
  assert (Hrecv : receiving_frames (animation_manager mid_transfer) = true)
    by (vm_compute; reflexivity).
  pose proof (proj1 (no_render_while_receiving refuse_all) mid_transfer Hrecv)
    as [Hget Htick].
  split; [vm_compute; reflexivity |].
  exact (conj Hget (Htick true)).
Defined.

(** C10: every Draw/SendHttpGif message stores its PicSpeed (100 if
    absent) as the frame delay, whatever becomes of the payload, and never
    touches the display.  But the published animation is not changed on
    finalization only: after a completed transfer both references name one
    list, and a later message with a non-zero offset that is not the last
    of its sequence appends its frame to the published animation. *)
Theorem delay_always_set_but_published_list_shared :
  (forall (b64decode : string -> option (list byte)) (s : Pixoo64Simulator)
          (data : Payload),
     frame_delay
       (animation_manager (state_after (_handle_send_gif b64decode data s)))
       = default 100 (PicSpeed data) /\
     display (state_after (_handle_send_gif b64decode data s)) = display s) /\
  (forall b64decode : string -> option (list byte),
     let m := send_gif 402 3 1 40 (Bytes (solid x02)) in
     let s' := state_after (_handle_send_gif b64decode m after_one_frame) in
     published after_one_frame = [mkFrame (solid x01)] /\
     default 0 (PicOffset m) <> default 1 (PicNum m) - 1 /\
     published s' = [mkFrame (solid x01); mkFrame (solid x02)] /\
     receiving_frames (animation_manager s') = false).
Proof.
  split.
  - intros b64decode s data. apply handle_frame_delay.
  - intros b64decode m s'.
    destruct (handle_valid b64decode after_one_frame m (Bytes (solid x02))
                (solid x02) after_one_frame_wf eq_refl eq_refl
                (solid_valid x02))
      as (s2 & Hrun & _ & _ & Hpub & Hrecv & _).
    assert (Hs' : s' = s2) by (unfold s'; rewrite Hrun; reflexivity).
    rewrite Hs'. clear Hs' Hrun s'.
    assert (Hold : published after_one_frame = [mkFrame (solid x01)])
      by (vm_compute; reflexivity).
    assert (Elast : (default 0 (PicOffset m) =? default 1 (PicNum m) - 1) = false)
      by reflexivity.
    assert (Eoff : (default 0 (PicOffset m) =? 0) = false) by reflexivity.
    rewrite Elast, Eoff in Hpub, Hrecv.
    destruct (decide (current_animation (animation_manager after_one_frame)
                      = next_animation (animation_manager after_one_frame)))
      as [_ | Hne]; [| exfalso; apply Hne; vm_compute; reflexivity].
    rewrite Hold in Hpub.
    split; [exact Hold |]. split; [simpl; lia |]. split; [exact Hpub |].
    rewrite Hrecv. vm_compute; reflexivity.
Qed.

(** Every message leaves the two references allocated, so every state the
    simulator can reach from [init] is well formed. *)
Lemma handle_preserves_wf (b64decode : string -> option (list byte))
    (s : Pixoo64Simulator) (data : Payload) :
  wf s -> wf (state_after (_handle_send_gif b64decode data s)).
Proof.
  intros Hwf.
  destruct (PicData data) as [pd |] eqn:Hpd.
  - destruct (decode_pic_data b64decode pd) as [b |] eqn:Hdec.
    + destruct (Z.eq_dec (Z.of_nat (length b)) (64 * 64 * 3)) as [Hb | Hb].
      * destruct (handle_valid b64decode s data pd b Hwf Hpd Hdec Hb)
          as (s' & -> & Hwf' & _).
        exact Hwf'.
      * rewrite (handle_invalid b64decode s data pd b Hpd Hdec Hb).
        exact Hwf.
    + unfold _handle_send_gif. rewrite Hpd. unfold bind at 1. simpl.
      unfold bind at 1. rewrite Hdec. exact Hwf.
  - unfold _handle_send_gif. rewrite Hpd. exact Hwf.
Qed.

(** ** A scenario of the specification, run on the model *)

(** After the three frames of a transfer have arrived, four due ticks
    show them in order and start over. *)
Example playback_wraps :
  let arrive :=
    _handle_send_gif refuse_all (send_gif 401 3 0 100 (Bytes (solid x01))) >>
    _handle_send_gif refuse_all (send_gif 401 3 1 100 (Bytes (solid x02))) >>
    _handle_send_gif refuse_all (send_gif 401 3 2 100 (Bytes (solid x03))) in
  let play :=
    run_display_tick true >> run_display_tick true >>
    run_display_tick true >> run_display_tick true in
  display (state_after ((arrive >> play) init))
  = [solid x01; solid x02; solid x03; solid x01].
Proof. vm_compute. reflexivity. Qed.

(** ** The request handler as a whole, and playback *)

Section Answers.

Variable b64decode : string -> option (list byte).

Lemma carries_frame_dec (data : Payload) :
  carries_frame b64decode data \/ ~ carries_frame b64decode data.
Proof.
  unfold carries_frame.
  destruct (PicData data) as [pd |] eqn:Hpd.
  - destruct (decode_pic_data b64decode pd) as [b |] eqn:Hdec.
    + destruct (Z.eq_dec (Z.of_nat (length b)) (64 * 64 * 3)) as [Hb | Hb].
      * left. exists pd, b. auto.
      * right. intros (pd' & b' & Hpd' & Hdec' & Hb').
        injection Hpd' as <-. rewrite Hdec in Hdec'. injection Hdec' as <-.
        exact (Hb Hb').
    + right. intros (pd' & b' & Hpd' & Hdec' & _).
      injection Hpd' as <-. congruence.
  - right. intros (pd' & b' & Hpd' & _). discriminate.
Qed.

(** A message that carries no frame: the delay is stored, and then the
    handler returns (no [PicData]) or an exception ends it. *)
Lemma handle_no_frame (s : Pixoo64Simulator) (data : Payload) :
  ~ carries_frame b64decode data ->
  _handle_send_gif b64decode data s
  = (state_after (set_frame_delay (default 100 (PicSpeed data)) s),
     match PicData data with
     | None => Ret tt
     | Some pd => match decode_pic_data b64decode pd with
                  | None => Raise DecodeError
                  | Some _ => Raise ValueError
                  end
     end).
Proof.
  intros Hno. destruct (PicData data) as [pd |] eqn:Hpd.
  - destruct (decode_pic_data b64decode pd) as [b |] eqn:Hdec.
    + apply (handle_invalid b64decode s data pd b Hpd Hdec).
      intros Hb. apply Hno. exists pd, b. auto.
    + unfold _handle_send_gif. rewrite Hpd. unfold bind at 1. simpl.
      unfold bind at 1. rewrite Hdec. reflexivity.
  - unfold _handle_send_gif. rewrite Hpd. reflexivity.
Qed.


Lemma handle_post_state (s : Pixoo64Simulator) (data : Payload) :
  state_after (handle_post b64decode (Some data) s)
  = if bool_decide (Command data = Some "Draw/SendHttpGif"%string)
    then state_after (_handle_send_gif b64decode data s)
    else s.
Proof.
  unfold handle_post.
  destruct (bool_decide (Command data = Some "Draw/SendHttpGif"%string));
    [| reflexivity].
  destruct (_handle_send_gif b64decode data s) as [s' [[] | e |]];
    reflexivity.
Qed.


(** Every request keeps the references allocated and the frame index
    usable. *)
Lemma handle_post_keeps_index (s : Pixoo64Simulator)
    (request : option Payload) :
  wf s -> index_ok s ->
  wf (state_after (handle_post b64decode request s)) /\
  index_ok (state_after (handle_post b64decode request s)).
Proof.
  intros Hwf Hidx. destruct request as [data |]; [| split; assumption].
  rewrite handle_post_state.
  destruct (bool_decide (Command data = Some "Draw/SendHttpGif"%string));
    [| split; assumption].
  destruct (carries_frame_dec data) as [(pd & b & Hpd & Hdec & Hb) | Hno].
  - destruct (handle_valid b64decode s data pd b Hwf Hpd Hdec Hb)
      as (s' & Hrun & Hwf' & Hpend & Hpub & _ & Hcf & _).
    rewrite Hrun. unfold state_after. cbn [fst].
    split; [exact Hwf' |].
    unfold index_ok in *. rewrite Hcf, Hpub.
    destruct (default 0 (PicOffset data) =? default 1 (PicNum data) - 1).
    + rewrite Hpend, length_app. cbn [length]. lia.
    + destruct (default 0 (PicOffset data) =? 0); [exact Hidx |].
      destruct (decide (current_animation (animation_manager s)
                        = next_animation (animation_manager s)));
        [| exact Hidx].
      rewrite length_app. cbn [length]. lia.
  - rewrite (handle_no_frame s data Hno). split; assumption.
Qed.

End Answers.

(** One pass of the display loop with the delay elapsed, on a published
    animation that is being played: the frame at the index is shown and
    the index moves on, wrapping at the end. *)
Lemma tick_shows (s : Pixoo64Simulator) :
  receiving_frames (animation_manager s) = false ->
  0 <= current_frame (animation_manager s)
    < Z.of_nat (length (published s)) ->
  exists frame,
    published s !! Z.to_nat (current_frame (animation_manager s))
    = Some frame /\
    run_display_tick true s
    = ({| objects := objects s;
          animation_manager :=
            {| current_animation := current_animation (animation_manager s);
               next_animation := next_animation (animation_manager s);
               current_frame :=
                 (current_frame (animation_manager s) + 1)
                   `mod` Z.of_nat (length (published s));
               frame_delay := frame_delay (animation_manager s);
               receiving_frames := false |};
          display := display s ++ [data frame] |}, Ret tt).
Proof.
  intros Hrecv Hcf.
  destruct (lookup_lt_is_Some_2 (published s)
              (Z.to_nat (current_frame (animation_manager s))))
    as [frame Hf]; [lia |].
  exists frame. split; [exact Hf |].
  destruct s as [objs [cur nxt cf fd rf] disp].
  unfold published, deref in *. cbn in Hrecv, Hcf, Hf. subst rf.
  unfold run_display_tick, get_current_frame, bind, get, deref. cbn.
  destruct (default [] (objs !! cur)) as [| f0 fs] eqn:E;
    [cbn in Hcf; lia |].
  cbn [is_empty orb]. unfold py_index.
  destruct (Z.leb_spec 0 cf); [| lia].
  destruct (Z.ltb_spec cf (Z.of_nat (length (f0 :: fs)))); [| lia].
  cbn [andb]. rewrite Hf.
  unfold ret, update_display, advance_frame, set_current_frame, modify,
    with_manager, bind, get, deref. cbn.
  rewrite E. reflexivity.
Qed.

Lemma tick_keeps_index (s : Pixoo64Simulator) (due : bool) :
  wf s -> index_ok s ->
  wf (state_after (run_display_tick due s)) /\
  index_ok (state_after (run_display_tick due s)).
Proof.
  intros Hwf Hidx. destruct due; [| split; assumption].
  destruct (receiving_frames (animation_manager s)) eqn:Hrecv.
  - rewrite run_display_tick_receiving by exact Hrecv. split; assumption.
  - destruct (published s) as [| f0 fs] eqn:Epub.
    + assert (Hrun : run_display_tick true s = (s, Ret tt)).
      { unfold run_display_tick, get_current_frame, bind, get.
        cbn beta iota. unfold published in Epub. rewrite Epub.
        reflexivity. }
      rewrite Hrun. split; assumption.
    + assert (Hcf : 0 <= current_frame (animation_manager s)
                    < Z.of_nat (length (published s))).
      { unfold index_ok in Hidx. rewrite Epub in *. cbn [length] in *. lia. }
      destruct (tick_shows s Hrecv Hcf) as (frame & _ & Hrun).
      rewrite Hrun. unfold state_after. cbn [fst].
      split; [exact Hwf |].
      unfold index_ok. cbn [animation_manager current_frame].
      assert (Hn : 0 < Z.of_nat (length (published s))) by lia.
      pose proof (Z.mod_pos_bound
                    (current_frame (animation_manager s) + 1) _ Hn) as Hm.
      split; [lia |]. right.
      unfold published, deref in *. cbn. lia.
Qed.

Lemma reachable_keeps_index (b64decode : string -> option (list byte))
    (s : Pixoo64Simulator) :
  reachable b64decode s -> wf s /\ index_ok s.
Proof.
  induction 1 as [| s request _ [Hwf Hidx] | s due _ [Hwf Hidx]].
  - split; [exact init_wf |]. unfold index_ok. cbn. lia.
  - apply handle_post_keeps_index; assumption.
  - apply tick_keeps_index; assumption.
Qed.



(** X11: in every state the simulator can reach from its initial one by
    requests and passes of the display loop, the frame index is 0 or a
    position of the published animation.  So the IndexError handler of
    [get_current_frame] never runs: the call changes nothing, hands out
    the frame at the index when an animation is published and no transfer
    is in progress, and None otherwise. *)
Theorem frame_index_stays_in_range
    (b64decode : string -> option (list byte)) (s : Pixoo64Simulator) :
  reachable b64decode s ->
  let cf := current_frame (animation_manager s) in
  0 <= cf /\
  (cf = 0 \/ cf < Z.of_nat (length (published s))) /\
  state_after (get_current_frame s) = s /\
  (receiving_frames (animation_manager s) = false ->
   published s <> [] ->
   exists frame,
     published s !! Z.to_nat cf = Some frame /\
     get_current_frame s = (s, Ret (Some (data frame)))) /\
  (receiving_frames (animation_manager s) = true \/ published s = [] ->
   get_current_frame s = (s, Ret None)).
Proof.
  intros Hreach cf.
  destruct (reachable_keeps_index b64decode s Hreach) as [_ [H0 Hlt]].
  fold cf in H0, Hlt.
  assert (Hidle : receiving_frames (animation_manager s) = true \/
                  published s = [] ->
                  get_current_frame s = (s, Ret None)).
  { intros [Hrecv | Hempty].
    - apply get_current_frame_receiving, Hrecv.
    - unfold get_current_frame, bind, get. cbn beta iota.
      unfold published in Hempty. rewrite Hempty. reflexivity. }
  assert (Hplay : receiving_frames (animation_manager s) = false ->
                  published s <> [] ->
                  exists frame,
                    published s !! Z.to_nat cf = Some frame /\
                    get_current_frame s = (s, Ret (Some (data frame)))).
  { intros Hrecv Hne.
    assert (Hcf : 0 <= cf < Z.of_nat (length (published s))).
    { destruct (published s); [congruence |]. cbn [length] in *. lia. }
    destruct (lookup_lt_is_Some_2 (published s) (Z.to_nat cf))
      as [frame Hf]; [lia |].
    exists frame. split; [exact Hf |].
    unfold get_current_frame, bind, get. cbn beta iota.
    fold (published s). fold cf. rewrite Hrecv.
    destruct (published s) as [| f0 fs] eqn:E; [congruence |].
    cbn [is_empty orb]. unfold py_index.
    destruct (Z.leb_spec 0 cf); [| lia].
    destruct (Z.ltb_spec cf (Z.of_nat (length (f0 :: fs)))); [| lia].
    cbn [andb]. rewrite Hf. reflexivity. }
  split; [exact H0 |]. split; [exact Hlt |]. split; [| split; assumption].
  destruct (receiving_frames (animation_manager s)) eqn:Hrecv.
  - rewrite Hidle by (left; reflexivity). reflexivity.
  - destruct (published s) as [| f0 fs] eqn:E.
    + rewrite Hidle by (right; reflexivity). reflexivity.
    + destruct (Hplay eq_refl ltac:(discriminate)) as (frame & _ & ->).
      reflexivity.
Qed.

Lemma frame_index_stays_in_range_witness :
  let s := state_after
             (handle_post refuse_all
                (Some (send_gif 400 1 0 100 (Bytes (solid x01)))) init) in
  state_after (get_current_frame s) = s.
Proof.
  intros s.
  exact (proj1 (proj2 (proj2
    (frame_index_stays_in_range refuse_all s
       (reachable_post refuse_all init _ (reachable_init refuse_all)))))).
Defined.

(** X12: playback.  With an animation of N frames published, no transfer
    in progress and the index at a position of it, [n] passes of the
    display loop with the delay elapsed show [n] frames, the i-th being
    frame (index + i) mod N: in order, starting over after the last.  The
    index ends at (index + n) mod N and the animation is not changed. *)
Theorem due_ticks_play_in_order (n : nat) :
  forall s : Pixoo64Simulator,
    receiving_frames (animation_manager s) = false ->
    0 <= current_frame (animation_manager s)
      < Z.of_nat (length (published s)) ->
    let cf := current_frame (animation_manager s) in
    let N := Z.of_nat (length (published s)) in
    let s' := state_after (due_ticks n s) in
    outcome_of (due_ticks n s) = Ret tt /\
    (exists shown,
       display s' = display s ++ shown /\
       length shown = n /\
       forall i, (i < n)%nat ->
         shown !! i
         = data <$> published s !! Z.to_nat ((cf + Z.of_nat i) `mod` N))
    /\
    current_frame (animation_manager s') = (cf + Z.of_nat n) `mod` N /\
    receiving_frames (animation_manager s') = false /\
    objects s' = objects s /\
    published s' = published s.
Proof.
  induction n as [| n IH]; intros s Hrecv Hcf cf N s'.
  - unfold s', due_ticks. cbn.
    split; [reflexivity |]. split.
    + exists []. rewrite app_nil_r. split; [reflexivity |].
      split; [reflexivity |]. intros i Hi. lia.
    + fold cf. rewrite Z.add_0_r. fold N. rewrite Z.mod_small by exact Hcf.
      auto.
  - destruct (tick_shows s Hrecv Hcf) as (frame & Hf & Hrun).
    fold cf in Hf. fold N in Hrun. fold cf in Hrun.
    set (s1 := {| objects := objects s;
                  animation_manager :=
                    {| current_animation :=
                         current_animation (animation_manager s);
                       next_animation := next_animation (animation_manager s);
                       current_frame := (cf + 1) `mod` N;
                       frame_delay := frame_delay (animation_manager s);
                       receiving_frames := false |};
                  display := display s ++ [data frame] |}) in *.
    assert (HN : 0 < N) by (unfold N; lia).
    pose proof (Z.mod_pos_bound (cf + 1) N HN) as Hcf1.
    assert (Hpub1 : published s1 = published s) by reflexivity.
    assert (Hstep : due_ticks (S n) s = due_ticks n s1).
    { unfold due_ticks. cbn [replicate for_]. unfold bind at 1.
      rewrite Hrun. reflexivity. }
    destruct (IH s1 eq_refl ltac:(rewrite Hpub1; exact Hcf1))
      as (Ho & (shown & Hd & Hlen & Hshown) & Hcf' & Hrecv' & Hobj & Hpub).
    unfold s'. rewrite Hstep.
    split; [exact Ho |]. split; [| split; [| split; [| split]]].
    + exists (data frame :: shown). split; [| split].
      * rewrite Hd. cbn [display s1]. rewrite <- app_assoc. reflexivity.
      * cbn [length]. rewrite Hlen. reflexivity.
      * intros [| i] Hi.
        -- change ((data frame :: shown) !! 0%nat) with (Some (data frame)).
           change (Z.of_nat 0) with 0. rewrite Z.add_0_r.
           rewrite Z.mod_small by exact Hcf. rewrite Hf. reflexivity.
        -- change ((data frame :: shown) !! S i) with (shown !! i).
           rewrite (Hshown i) by lia.
           rewrite Hpub1. cbn [s1 animation_manager current_frame].
           fold N. rewrite Zplus_mod_idemp_l.
           replace (cf + 1 + Z.of_nat i) with (cf + Z.of_nat (S i)) by lia.
           reflexivity.
    + rewrite Hcf'. cbn [s1 animation_manager current_frame].
      rewrite Hpub1. fold N. rewrite Zplus_mod_idemp_l.
      replace (cf + 1 + Z.of_nat n) with (cf + Z.of_nat (S n)) by lia.
      reflexivity.
    + exact Hrecv'.
    + rewrite Hobj. reflexivity.
    + rewrite Hpub. exact Hpub1.
Qed.

Lemma due_ticks_play_in_order_witness :
  outcome_of (due_ticks 4 after_three_frames) = Ret tt /\
  current_frame (animation_manager
                   (state_after (due_ticks 4 after_three_frames))) = 1.
Proof.
  assert (Hrecv : receiving_frames (animation_manager after_three_frames)
                  = false) by (vm_compute; reflexivity).
  assert (Hcf : 0 <= current_frame (animation_manager after_three_frames)
                < Z.of_nat (length (published after_three_frames)))
    by (vm_compute; split; [discriminate | reflexivity]).
  destruct (due_ticks_play_in_order 4 after_three_frames Hrecv Hcf)
    as (Ho & _ & Hc & _).
  split; [exact Ho |]. rewrite Hc. vm_compute. reflexivity.
Defined.

(** The two references after a message with an acceptable payload: a
    message with offset 0 makes [next_animation] a new list, the last
    message of a sequence makes [current_animation] the same list. *)
Lemma handle_valid_refs (b64decode : string -> option (list byte))
    (s : Pixoo64Simulator) (data : Payload) (pd : pic_data) (b : list byte) :
  PicData data = Some pd -> decode_pic_data b64decode pd = Some b ->
  valid_frame b ->
  let off := default 0 (PicOffset data) in
  let last := off =? default 1 (PicNum data) - 1 in
  let s' := state_after (_handle_send_gif b64decode data s) in
  next_animation (animation_manager s')
  = (if off =? 0 then length (objects s)
     else next_animation (animation_manager s)) /\
  current_animation (animation_manager s')
  = (if last then next_animation (animation_manager s')
     else current_animation (animation_manager s)).
Proof.
  intros Hpd Hdec Hb off last s'.
  assert (Hrun : _handle_send_gif b64decode data s
            = ((if off =? 0 then start_new_animation else ret tt) >>
               add_frame b >>
               (if last then finalize_animation else ret tt))
                (state_after
                   (set_frame_delay (default 100 (PicSpeed data)) s))).
  { unfold _handle_send_gif. rewrite Hpd.
    unfold bind at 1. simpl.
    unfold bind at 1. rewrite Hdec. simpl.
    unfold bind at 1. rewrite reshape_valid by exact Hb. reflexivity. }
  unfold s'. rewrite Hrun.
  destruct (off =? 0); destruct last;
    unfold state_after, bind, start_new_animation, add_frame,
      finalize_animation, set_frame_delay, modify, with_manager, ret; simpl;
    split; reflexivity.
Qed.

End SimulatorSpec.

(** * Properties of the controller (pixoo.py) *)

Module PixooSpec.
Import Pixoo PixooDefs.

Lemma in_bounds_spec (x y : Z) : in_bounds x y = true <-> on_canvas x y.
Proof.
  unfold in_bounds, on_canvas.
  rewrite !andb_true_iff, !Z.leb_le, !Z.ltb_lt. tauto.
Qed.

Lemma in_bounds_false (x y : Z) : in_bounds x y = false <-> ~ on_canvas x y.
Proof.
  rewrite <- in_bounds_spec. destruct (in_bounds x y); split; congruence.
Qed.

Lemma init_buffer_wf (i : Z) : buffer_wf (init i).
Proof.
  unfold buffer_wf, init, new_image. cbn [_buffer].
  rewrite length_replicate. unfold buffer_width. lia.
Qed.

Lemma pixel_index_inj (x y x' y' : Z) :
  on_canvas x y -> on_canvas x' y' ->
  pixel_index x y = pixel_index x' y' -> x = x' /\ y = y'.
Proof.
  unfold on_canvas, pixel_index, buffer_width. intros Hxy Hxy' H.
  apply Z2Nat.inj in H; lia.
Qed.

Lemma pixel_index_lt (d : DivoomPixoo64) (x y : Z) :
  buffer_wf d -> on_canvas x y -> (pixel_index x y < length (_buffer d))%nat.
Proof.
  unfold buffer_wf, on_canvas, pixel_index, buffer_width. intros Hwf Hxy. lia.
Qed.

Lemma set_pixel_on_canvas (d : DivoomPixoo64) (x y : Z) (color : Color) :
  on_canvas x y ->
  set_pixel x y color d = (with_buffer (putpixel x y color) d, Ret tt).
Proof.
  intros H. apply in_bounds_spec in H. unfold set_pixel. rewrite H. reflexivity.
Qed.

Lemma set_pixel_off_canvas (d : DivoomPixoo64) (x y : Z) (color : Color) :
  ~ on_canvas x y -> set_pixel x y color d = (d, Raise ValueError).
Proof.
  intros H. apply in_bounds_false in H. unfold set_pixel. rewrite H. reflexivity.
Qed.

(** C7: on the canvas, set_pixel returns, the pixel then reads as the
    colour written, every other pixel reads as before and nothing else of
    the controller changes; off the canvas it raises ValueError and
    changes nothing.  There is no other rejection. *)
Theorem set_pixel_spec (d : DivoomPixoo64) (x y : Z) (color : Color) :
  buffer_wf d ->
  (on_canvas x y ->
     let d' := state_after (set_pixel x y color d) in
     outcome_of (set_pixel x y color d) = Ret tt /\
     getpixel (_buffer d') x y = Some color /\
     (forall x' y' : Z,
        on_canvas x' y' -> (x', y') <> (x, y) ->
        getpixel (_buffer d') x' y' = getpixel (_buffer d) x' y') /\
     length (_buffer d') = length (_buffer d) /\
     _pic_id_counter d' = _pic_id_counter d /\
     wire d' = wire d) /\
  (~ on_canvas x y -> set_pixel x y color d = (d, Raise ValueError)).
Proof.
  intros Hwf. split.
  - intros Hxy. rewrite set_pixel_on_canvas by exact Hxy.
    unfold state_after, outcome_of, getpixel, putpixel; simpl.
    split; [reflexivity |]. split.
    { apply list_lookup_insert_eq, pixel_index_lt; assumption. }
    split.
    { intros x' y' Hxy' Hne. apply list_lookup_insert_ne.
      intros Heq. apply Hne.
      destruct (pixel_index_inj x y x' y' Hxy Hxy' Heq) as [-> ->].
      reflexivity. }
    split; [apply length_insert |]. split; reflexivity.
  - apply set_pixel_off_canvas.
Qed.

Lemma set_pixel_spec_witness :
  getpixel
    (_buffer (state_after (set_pixel 63 0 (xff, x80, x00) (init 0)))) 63 0
    = Some (xff, x80, x00) /\
  set_pixel 64 0 (xff, x80, x00) (init 0) = (init 0, Raise ValueError).
Proof.
  pose proof (set_pixel_spec (init 0) 63 0 (xff, x80, x00) (init_buffer_wf 0)) as Hin.
  pose proof (set_pixel_spec (init 0) 64 0 (xff, x80, x00) (init_buffer_wf 0)) as Hout.
  split.
  - apply (proj1 Hin). unfold on_canvas, buffer_width. lia.
  - apply (proj2 Hout). unfold on_canvas, buffer_width. lia.
Defined.

(** ** Operations that cannot raise *)

Lemma returns_ret {A} (a : A) : returns (ret a).
Proof. intros d. exists d, a. reflexivity. Qed.

Lemma returns_bind {A B} (m : M DivoomPixoo64 A) (k : A -> M DivoomPixoo64 B) :
  returns m -> (forall a, returns (k a)) -> returns (bind m k).
Proof.
  intros Hm Hk d. destruct (Hm d) as (d1 & a & E).
  destruct (Hk a d1) as (d2 & b & E2).
  exists d2, b. unfold bind. rewrite E. exact E2.
Qed.

Lemma returns_for {A} (xs : list A) (body : A -> M DivoomPixoo64 unit) :
  (forall x, returns (body x)) -> returns (for_ xs body).
Proof.
  intros Hbody. induction xs as [| x xs IH]; simpl.
  - apply returns_ret.
  - apply returns_bind; [apply Hbody | intros _; exact IH].
Qed.

(** The guarded write used by [draw_circle] and [draw_rectangle]. *)
Lemma returns_guarded_set_pixel (x y : Z) (color : Color) :
  returns (if in_bounds x y then set_pixel x y color else ret tt).
Proof.
  destruct (in_bounds x y) eqn:E; [| apply returns_ret].
  intros d. exists (with_buffer (putpixel x y color) d), tt.
  apply set_pixel_on_canvas, in_bounds_spec, E.
Qed.

Lemma draw_rectangle_returns (x0 y0 x1 y1 : Z) (outline : Color)
    (fill : option Color) :
  returns (draw_rectangle x0 y0 x1 y1 outline fill).
Proof.
  unfold draw_rectangle.
  apply returns_bind.
  { destruct fill as [f |]; [| apply returns_ret].
    apply returns_for; intros y. apply returns_for; intros x.
    apply returns_guarded_set_pixel. }
  intros _. apply returns_bind.
  { apply returns_for; intros x. apply returns_for; intros y.
    apply returns_guarded_set_pixel. }
  intros _. apply returns_for; intros y. apply returns_for; intros x.
  apply returns_guarded_set_pixel.
Qed.

(** The outline loop of [draw_circle] ends within its fuel: [x - y]
    shrinks at every turn. *)
Lemma circle_loop_returns (cx cy : Z) (fuel : nat) (x y dd : Z)
    (pts : gset (Z * Z)) :
  (Z.to_nat (x - y + 1) < fuel)%nat ->
  returns
    (while_ (L := circle_vars) fuel
       (fun '(x, y, d, outline_points) => y <=? x)
       (fun '(x, y, d, outline_points) =>
          let outline_points :=
            outline_points ∪ list_to_set
              [ (cx + x, cy + y); (cx - x, cy + y);
                (cx + x, cy - y); (cx - x, cy - y);
                (cx + y, cy + x); (cx - y, cy + x);
                (cx + y, cy - x); (cx - y, cy - x) ] in
          let y := y + 1 in
          if d <? 0 then ret (x, y, d + (2 * y + 1), outline_points)
          else
            let x := x - 1 in
            ret (x, y, d + (2 * (y - x) + 1), outline_points))
       (x, y, dd, pts)).
Proof.
  revert x y dd pts.
  induction fuel as [| fuel IH]; intros x y dd pts Hfuel; [lia |].
  simpl. destruct (Z.leb_spec y x) as [Hle | Hgt]; [| apply returns_ret].
  destruct (dd <? 0); rewrite bind_ret_l; apply IH; lia.
Qed.

Lemma draw_circle_returns (cx cy radius : Z) (outline : Color)
    (fill : option Color) :
  returns (draw_circle cx cy radius outline fill).
Proof.
  unfold draw_circle.
  apply returns_bind.
  { destruct fill as [f |]; [| apply returns_ret].
    apply returns_for; intros y_off. apply returns_for; intros x_off.
    destruct (x_off * x_off + y_off * y_off <=? radius * radius);
      [apply returns_guarded_set_pixel | apply returns_ret]. }
  intros _. apply returns_bind.
  { apply circle_loop_returns. lia. }
  intros [[[x y] dd] pts].
  apply returns_for; intros [px py]. apply returns_guarded_set_pixel.
Qed.

(** A line whose first end is off the canvas raises at once. *)
Lemma draw_line_start_off_canvas (x0 y0 x1 y1 : Z) (color : Color)
    (d : DivoomPixoo64) :
  ~ on_canvas x0 y0 ->
  draw_line x0 y0 x1 y1 color d = (d, Raise ValueError).
Proof.
  intros Hoff. unfold draw_line.
  destruct (Z.abs (x1 - x0) >? Z.abs (y1 - y0)).
  - unfold bind at 1. simpl.
    destruct (x0 =? x1); simpl.
    + apply set_pixel_off_canvas, Hoff.
    + unfold bind at 1. unfold bind at 1.
      rewrite set_pixel_off_canvas by exact Hoff. reflexivity.
  - unfold bind at 1. simpl.
    destruct (y0 =? y1); simpl.
    + apply set_pixel_off_canvas, Hoff.
    + unfold bind at 1. unfold bind at 1.
      rewrite set_pixel_off_canvas by exact Hoff. reflexivity.
Qed.

(** C2: draw_circle and draw_rectangle test every pixel against the
    canvas before writing it, so they return normally for all integer
    arguments.  draw_line does not: it hands every pixel of the line to
    set_pixel unguarded.  The line from (-1, 0) to (3, 0) raises
    ValueError before writing anything, and the line from (62, 5) to
    (66, 5) writes (62, 5) and (63, 5) and then raises. *)
Theorem draw_line_is_not_clipped :
  (forall (cx cy radius : Z) (outline : Color) (fill : option Color)
          (d : DivoomPixoo64),
     outcome_of (draw_circle cx cy radius outline fill d) = Ret tt) /\
  (forall (x0 y0 x1 y1 : Z) (outline : Color) (fill : option Color)
          (d : DivoomPixoo64),
     outcome_of (draw_rectangle x0 y0 x1 y1 outline fill d) = Ret tt) /\
  (forall (color : Color) (d : DivoomPixoo64),
     draw_line (-1) 0 3 0 color d = (d, Raise ValueError)) /\
  outcome_of (draw_line 62 5 66 5 orange (init 0)) = Raise ValueError /\
  getpixel (_buffer (state_after (draw_line 62 5 66 5 orange (init 0)))) 62 5
    = Some orange /\
  getpixel (_buffer (state_after (draw_line 62 5 66 5 orange (init 0)))) 63 5
    = Some orange.
Proof.
  split.
  { intros cx cy radius outline fill d.
    destruct (draw_circle_returns cx cy radius outline fill d)
      as (d' & [] & E).
    rewrite E. reflexivity. }
  split.
  { intros x0 y0 x1 y1 outline fill d.
    destruct (draw_rectangle_returns x0 y0 x1 y1 outline fill d)
      as (d' & [] & E).
    rewrite E. reflexivity. }
  split.
  { intros color d. apply draw_line_start_off_canvas.
    unfold on_canvas. lia. }
  split; [| split]; vm_compute; reflexivity.
Qed.

(** ** The encoder *)

Section Encoder.

Variable b64encode : list byte -> string.
Variable post_ok : list Payload -> Payload -> bool.

Hypothesis transport_up : forall h p, post_ok h p = true.

Lemma send_each (mk : Z -> list byte -> Payload) (frames : list (list byte)) :
  forall (g : nat -> Z) (d : DivoomPixoo64),
    for_ (imap (fun i x => (g i, x)) frames)
      (fun '(pic_offset, frame) => send_command post_ok (mk pic_offset frame)) d
    = (posted (imap (fun i x => mk (g i) x) frames) d, Ret tt).
Proof.
  induction frames as [| f frames IH]; intros g d.
  - simpl. unfold ret, posted. rewrite app_nil_r. destruct d; reflexivity.
  - simpl. unfold bind, send_command at 1. rewrite transport_up.
    rewrite (IH (g ∘ S)). unfold posted; simpl.
    rewrite <- app_assoc. reflexivity.
Qed.

Lemma display_animation_sends (image : Pixoo64Animation) (pic_id : option Z)
    (d : DivoomPixoo64) :
  encoded_frames image <> [] ->
  let n := Z.min (Z.of_nat (length (encoded_frames image))) 60 in
  let id := default (_pic_id_counter d + 1) pic_id in
  let d0 := match pic_id with
            | Some _ => d
            | None => state_after (_get_next_pic_id d)
            end in
  display_animation b64encode post_ok image pic_id d
  = (posted
       (imap (fun i frame =>
                transfer_message b64encode id n (pic_width image) (Z.of_nat i)
                  (frame_delay image) frame)
          (take 60 (encoded_frames image))) d0, Ret tt).
Proof.
  intros Hne n id d0. unfold display_animation.
  destruct (encoded_frames image) as [| f fs] eqn:E; [congruence |].
  unfold enumerate.
  destruct pic_id as [i |]; unfold bind at 1; simpl.
  - apply (send_each
             (fun off frame =>
                transfer_message b64encode i n (pic_width image) off (frame_delay image)
                  frame) (take 60 (f :: fs)) Z.of_nat d).
  - apply (send_each
             (fun off frame =>
                transfer_message b64encode (_pic_id_counter d + 1) n (pic_width image)
                  off (frame_delay image) frame)
             (take 60 (f :: fs)) Z.of_nat).
Qed.

End Encoder.

(** C6: with the transport up, encoding a non-empty animation posts
    exactly min(frame_count, 60) messages, the i-th carrying frame i at
    offset i, all with the same identifier (the one given, or the next of
    the counter), the same total min(frame_count, 60), width and delay;
    61 frames give 60 messages with PicNum 60.  Encoding an empty
    animation raises ValueError and posts nothing. *)
Theorem display_animation_messages :
  (forall (b64encode : list byte -> string)
          (post_ok : list Payload -> Payload -> bool)
          (image : Pixoo64Animation) (pic_id : option Z) (d : DivoomPixoo64),
     encoded_frames image = [] ->
     display_animation b64encode post_ok image pic_id d
       = (d, Raise ValueError)) /\
  (forall (b64encode : list byte -> string)
          (post_ok : list Payload -> Payload -> bool)
          (image : Pixoo64Animation) (pic_id : option Z) (d : DivoomPixoo64),
     (forall h p, post_ok h p = true) ->
     encoded_frames image <> [] ->
     let n := Z.min (Z.of_nat (length (encoded_frames image))) 60 in
     let id := default (_pic_id_counter d + 1) pic_id in
     let r := display_animation b64encode post_ok image pic_id d in
     exists sent : list Payload,
       outcome_of r = Ret tt /\
       wire (state_after r) = wire d ++ sent /\
       Z.of_nat (length sent) = n /\
       (forall (i : nat) (m : Payload),
          sent !! i = Some m ->
          exists frame,
            encoded_frames image !! i = Some frame /\
            m = transfer_message b64encode id n (pic_width image)
                  (Z.of_nat i) (frame_delay image) frame) /\
       (length (encoded_frames image) = 61%nat ->
          length sent = 60%nat /\
          forall m, m ∈ sent -> PicNum m = Some 60)).
Proof.
  split.
  - intros b64encode post_ok image pic_id d E.
    unfold display_animation. rewrite E. reflexivity.
  - intros b64encode post_ok image pic_id d Hup Hne n id r.
    pose proof (display_animation_sends b64encode post_ok Hup image pic_id d
                  Hne) as Hrun.
    cbv zeta in Hrun. fold n id in Hrun. fold r in Hrun.
    set (sent := imap (fun i frame =>
                         transfer_message b64encode id n (pic_width image)
                           (Z.of_nat i) (frame_delay image) frame)
                   (take 60 (encoded_frames image))) in Hrun.
    assert (Hlookup : forall (i : nat) (m : Payload),
               sent !! i = Some m ->
               exists frame,
                 encoded_frames image !! i = Some frame /\
                 m = transfer_message b64encode id n (pic_width image)
                       (Z.of_nat i) (frame_delay image) frame).
    { intros i m Hm. unfold sent in Hm. rewrite list_lookup_imap in Hm.
      destruct (take 60 (encoded_frames image) !! i) as [frame |] eqn:Ef;
        simpl in Hm; [| discriminate].
      exists frame. split; [| congruence].
      apply lookup_take_Some in Ef. tauto. }
    assert (Hlen : length sent = Nat.min 60 (length (encoded_frames image))).
    { unfold sent. rewrite length_imap, length_take. reflexivity. }
    exists sent. rewrite Hrun. unfold outcome_of, state_after; simpl.
    split; [reflexivity |]. split.
    { destruct pic_id; reflexivity. }
    split; [unfold n; lia |]. split; [exact Hlookup |].
    intros H61. split; [lia |].
    intros m Hm. apply list_elem_of_lookup in Hm as [i Hi].
    destruct (Hlookup i m Hi) as (frame & _ & ->). simpl.
    unfold n. rewrite H61. reflexivity.
Qed.

Lemma display_animation_messages_witness :
  exists sent : list Payload,
    wire (state_after
            (display_animation frame_size_text always_up sixty_one_frames
               (Some 401) (init 0))) = sent /\
    length sent = 60%nat /\
    forall m, m ∈ sent -> PicNum m = Some 60.
Proof.
  destruct (proj2 display_animation_messages frame_size_text always_up
              sixty_one_frames (Some 401) (init 0)
              (fun _ _ => eq_refl) ltac:(discriminate))
    as (sent & _ & Hwire & _ & _ & H61).
  exists sent. split; [exact Hwire |]. apply H61. reflexivity.
Defined.

(** ** The line rasterizer *)

(** Both loops of [draw_line] are the same walk along the major axis:
    [D] and [m] are the major and the minor extent, [sa] and [sb] the unit
    steps along them, [(a, b)] the current cell as (major, minor) and
    [err] the error term. *)
Section Walk.

Variables D m sa sb : Z.

Hypothesis D_pos : 0 < D.
Hypothesis m_range : 0 <= m <= D.

Lemma minor_at_0 (err : Z) : 0 <= err < D -> minor_at D m err 0 = 0.
Proof. intros H. unfold minor_at. apply Z.div_small. lia. Qed.

Lemma minor_at_stay (err k : Z) :
  minor_at D m (err - m) k = minor_at D m err (k + 1).
Proof. unfold minor_at. f_equal. lia. Qed.

Lemma minor_at_move (err k : Z) :
  1 + minor_at D m (err - m + D) k = minor_at D m err (k + 1).
Proof.
  unfold minor_at.
  replace ((k + 1) * m + (D - 1 - err))
    with (k * m + (D - 1 - (err - m + D)) + 1 * D) by lia.
  rewrite Z.div_add by lia. lia.
Qed.

Lemma minor_at_bounds (err k : Z) :
  0 <= err < D -> 0 <= k <= D ->
  0 <= minor_at D m err k <= m.
Proof.
  intros He Hk. unfold minor_at. split.
  - apply Z.div_pos; nia.
  - assert (H : (k * m + (D - 1 - err)) / D < m + 1)
      by (apply Z.div_lt_upper_bound; nia).
    lia.
Qed.

Lemma minor_at_full (err : Z) : 0 <= err < D -> minor_at D m err D = m.
Proof.
  intros He. unfold minor_at.
  replace (D * m + (D - 1 - err)) with ((D - 1 - err) + m * D) by lia.
  rewrite Z.div_add by lia. rewrite Z.div_small by lia. lia.
Qed.

Lemma minor_at_succ (err k : Z) :
  0 <= k ->
  minor_at D m err k <= minor_at D m err (k + 1) <= minor_at D m err k + 1.
Proof.
  intros Hk. unfold minor_at. split.
  - apply Z.div_le_mono; nia.
  - replace (k * m + (D - 1 - err)) with (k * m + (D - 1 - err)) by lia.
    rewrite <- (Z.div_add (k * m + (D - 1 - err)) 1 D) by lia.
    apply Z.div_le_mono; nia.
Qed.

Lemma cell_at_next (a b err : Z) (k : nat) :
  cell_at D m sa sb a b err (S k) =
    if err - m <? 0 then cell_at D m sa sb (a + sa) (b + sb) (err - m + D) k
    else cell_at D m sa sb (a + sa) b (err - m) k.
Proof.
  unfold cell_at. rewrite Nat2Z.inj_succ, <- Z.add_1_r.
  destruct (err - m <? 0).
  - rewrite <- minor_at_move. f_equal; lia.
  - rewrite <- minor_at_stay. f_equal; lia.
Qed.

Lemma walk_cells_closed (n : nat) :
  forall a b err,
    0 <= err < D ->
    walk_cells D m sa sb n a b err = map (cell_at D m sa sb a b err) (seq 0 n).
Proof.
  induction n as [| n IH]; intros a b err He; [reflexivity |].
  cbn [walk_cells seq map]. f_equal.
  - unfold cell_at. rewrite minor_at_0 by exact He. f_equal; lia.
  - rewrite <- seq_shift, map_map.
    destruct (Z.ltb_spec (err - m) 0).
    + rewrite IH by lia. apply map_ext. intros k.
      rewrite cell_at_next. destruct (Z.ltb_spec (err - m) 0); [reflexivity | lia].
    + rewrite IH by lia. apply map_ext. intros k.
      rewrite cell_at_next. destruct (Z.ltb_spec (err - m) 0); [lia | reflexivity].
Qed.

Lemma walk_end_closed (n : nat) :
  forall a b err,
    0 <= err < D ->
    exists err', walk_end D m sa sb n a b err = (cell_at D m sa sb a b err n, err').
Proof.
  induction n as [| n IH]; intros a b err He.
  - exists err. cbn [walk_end]. unfold cell_at.
    rewrite minor_at_0 by exact He. repeat f_equal; lia.
  - cbn [walk_end]. rewrite cell_at_next.
    destruct (Z.ltb_spec (err - m) 0); apply IH; lia.
Qed.

End Walk.

(** The loop over [x] of [draw_line] is the walk with [x] as major axis:
    it runs [n] turns when [x1] is [n] steps away. *)
Lemma line_loop_x (color : Color) (dx dy sx sy x1 : Z) (n : nat) :
  forall (fuel : nat) (x y err : Z) (d : DivoomPixoo64),
    (n < fuel)%nat -> x1 = x + sx * Z.of_nat n -> sx = 1 \/ sx = -1 ->
    while_ (L := line_vars) fuel
      (fun '(x, y, err) => negb (x =? x1))
      (fun '(x, y, err) =>
         set_pixel x y color >>
         let err := err - dy in
         let '(y, err) :=
           if err <? 0 then (y + sy, err + dx) else (y, err) in
         ret (x + sx, y, err))
      (x, y, err) d
    = (write_all color (walk_cells dx dy sx sy n x y err) >>
       ret (walk_end dx dy sx sy n x y err)) d.
Proof.
  induction n as [| n IH]; intros fuel x y err d Hfuel Hx1 Hsx;
    (destruct fuel as [| fuel]; [lia |]).
  - replace x1 with x by lia. cbn [while_]. rewrite Z.eqb_refl. reflexivity.
  - cbn [while_ walk_cells walk_end].
    destruct (Z.eqb_spec x x1) as [E | _]; [lia |]. cbn [negb].
    unfold write_all. cbn [for_ fst snd]. rewrite !bind_assoc.
    apply bind_ext. intros _ d'.
    destruct (err - dy <? 0); cbn beta iota; rewrite bind_ret_l;
      rewrite IH by lia; reflexivity.
Qed.

(** The loop over [y], with [y] as major axis. *)
Lemma line_loop_y (color : Color) (dx dy sx sy y1 : Z) (n : nat) :
  forall (fuel : nat) (x y err : Z) (d : DivoomPixoo64),
    (n < fuel)%nat -> y1 = y + sy * Z.of_nat n -> sy = 1 \/ sy = -1 ->
    while_ (L := line_vars) fuel
      (fun '(x, y, err) => negb (y =? y1))
      (fun '(x, y, err) =>
         set_pixel x y color >>
         let err := err - dx in
         let '(x, err) :=
           if err <? 0 then (x + sx, err + dy) else (x, err) in
         ret (x, y + sy, err))
      (x, y, err) d
    = (write_all color (map swap (walk_cells dy dx sy sx n y x err)) >>
       ret (let '(y', x', err') := walk_end dy dx sy sx n y x err in
            (x', y', err'))) d.
Proof.
  induction n as [| n IH]; intros fuel x y err d Hfuel Hy1 Hsy;
    (destruct fuel as [| fuel]; [lia |]).
  - replace y1 with y by lia. cbn [while_]. rewrite Z.eqb_refl. reflexivity.
  - cbn [while_ walk_cells walk_end].
    destruct (Z.eqb_spec y y1) as [E | _]; [lia |]. cbn [negb].
    unfold write_all. destruct (err - dx <? 0);
      cbn [map swap for_ fst snd]; rewrite !bind_assoc;
      apply bind_ext; intros _ d'; rewrite bind_ret_l;
      rewrite IH by lia; reflexivity.
Qed.

Lemma line_steps (a0 a1 : Z) :
  a1 = a0 + (if a0 <? a1 then 1 else -1) * Z.of_nat (Z.to_nat (Z.abs (a1 - a0))).
Proof. destruct (Z.ltb_spec a0 a1); lia. Qed.

Lemma line_sign (a0 a1 : Z) :
  (if a0 <? a1 then 1 else -1) = 1 \/ (if a0 <? a1 then 1 else -1) = -1.
Proof. destruct (a0 <? a1); auto. Qed.

(** [draw_line] does nothing but write [line_pixels] in order, stopping
    at the first pixel [set_pixel] refuses. *)
Lemma draw_line_writes (x0 y0 x1 y1 : Z) (color : Color) (d : DivoomPixoo64) :
  draw_line x0 y0 x1 y1 color d
  = write_all color (line_pixels x0 y0 x1 y1) d.
Proof.
  unfold draw_line, line_pixels.
  destruct (Z.abs (x1 - x0) >? Z.abs (y1 - y0)).
  - rewrite (bind_ext_l _ _ _ _
               (line_loop_x color _ _ _ _ x1 (Z.to_nat (Z.abs (x1 - x0)))
                  _ x0 y0 _ d (Nat.lt_succ_diag_r _)
                  (line_steps x0 x1) (line_sign x0 x1))).
    rewrite bind_assoc. unfold write_all. rewrite for_snoc.
    apply bind_ext. intros _ d'. rewrite bind_ret_l.
    destruct (walk_end _ _ _ _ _ _ _ _) as [[a b] e]. reflexivity.
  - rewrite (bind_ext_l _ _ _ _
               (line_loop_y color _ _ _ _ y1 (Z.to_nat (Z.abs (y1 - y0)))
                  _ x0 y0 _ d (Nat.lt_succ_diag_r _)
                  (line_steps y0 y1) (line_sign y0 y1))).
    rewrite bind_assoc. unfold write_all. rewrite map_app. cbn [map].
    rewrite for_snoc.
    apply bind_ext. intros _ d'. rewrite bind_ret_l.
    destruct (walk_end _ _ _ _ _ _ _ _) as [[a b] e]. reflexivity.
Qed.

(** Writing pixels that all lie on the canvas never raises. *)
Lemma write_all_on_canvas (color : Color) (pixels : list (Z * Z)) :
  Forall (fun p => on_canvas (fst p) (snd p)) pixels ->
  forall d, outcome_of (write_all color pixels d) = Ret tt.
Proof.
  unfold write_all.
  induction pixels as [| p pixels IH]; intros Hall d; [reflexivity |].
  inversion Hall as [| ? ? Hp Hrest]; subst.
  cbn [for_]. unfold bind. rewrite set_pixel_on_canvas by exact Hp.
  apply IH, Hrest.
Qed.

(** *** The walk in closed form *)

Section WalkFacts.

Variables D m : Z.
Hypothesis D_pos : 0 < D.
Hypothesis m_range : 0 <= m <= D.

Lemma half_range : 0 <= D / 2 < D.
Proof.
  pose proof D_pos. split; [apply Z.div_pos; lia | apply Z.div_lt; lia].
Qed.

Lemma minor_at_le (err k : Z) :
  0 <= err < D -> 0 <= k -> minor_at D m err k <= k.
Proof.
  intros He Hk. pose proof D_pos as HD. pose proof m_range as Hm.
  assert (H : minor_at D m err k < k + 1)
    by (unfold minor_at; apply Z.div_lt_upper_bound; nia).
  lia.
Qed.

(** With an odd major extent the error term never ties, and the walk
    back takes its minor steps at the mirrored places. *)
Lemma minor_at_reverse (k : Z) :
  Z.odd D = true -> 0 <= k <= D ->
  minor_at D m (D / 2) (D - k) = m - minor_at D m (D / 2) k.
Proof.
  intros Hodd Hk. pose proof m_range as Hm.
  apply Z.odd_spec in Hodd as [h Hh].
  assert (He : D / 2 = h)
    by (symmetry; apply (Z.div_unique D 2 h 1); lia).
  rewrite He. unfold minor_at.
  pose proof (Z.mul_div_le (k * m + (D - 1 - h)) D D_pos) as Hlo.
  pose proof (Z.mul_succ_div_gt (k * m + (D - 1 - h)) D D_pos) as Hhi.
  set (q := (k * m + (D - 1 - h)) / D) in *.
  symmetry.
  apply (Z.div_unique _ _ _ (h - k * m + D * q)); [left | ]; nia.
Qed.

Lemma cell_at_first (sa sb a b : Z) :
  cell_at D m sa sb a b (D / 2) 0 = (a, b).
Proof.
  unfold cell_at. rewrite minor_at_0 by (exact D_pos || exact half_range).
  cbn [Z.of_nat]. f_equal; lia.
Qed.

Lemma cell_at_last (sa sb a b : Z) :
  cell_at D m sa sb a b (D / 2) (Z.to_nat D) = (a + sa * D, b + sb * m).
Proof.
  pose proof D_pos. unfold cell_at. rewrite Z2Nat.id by lia.
  rewrite minor_at_full by (exact D_pos || exact half_range). reflexivity.
Qed.

(** Where the [k]-th cell lies: [k] steps along the major axis and
    between 0 and [min k m] steps along the minor one. *)
Lemma cell_at_offsets (sa sb a b : Z) (k : nat) :
  Z.of_nat k <= D ->
  exists j,
    cell_at D m sa sb a b (D / 2) k = (a + sa * Z.of_nat k, b + sb * j) /\
    0 <= j <= m /\ j <= Z.of_nat k.
Proof.
  intros Hk. exists (minor_at D m (D / 2) (Z.of_nat k)).
  split; [reflexivity |]. split.
  - apply minor_at_bounds; (exact D_pos || exact m_range || idtac);
      [exact half_range | lia].
  - apply minor_at_le; [exact half_range | lia].
Qed.

(** From one cell to the next: one step along the major axis, none or
    one along the minor axis. *)
Lemma cell_at_step (sa sb a b : Z) (k : nat) :
  exists c,
    (c = 0 \/ c = 1) /\
    cell_at D m sa sb a b (D / 2) (S k)
    = (fst (cell_at D m sa sb a b (D / 2) k) + sa,
       snd (cell_at D m sa sb a b (D / 2) k) + sb * c).
Proof.
  pose proof (minor_at_succ D m D_pos m_range (D / 2) (Z.of_nat k)
                ltac:(lia)) as Hs.
  exists (minor_at D m (D / 2) (Z.of_nat k + 1)
          - minor_at D m (D / 2) (Z.of_nat k)).
  split; [lia |].
  unfold cell_at. cbn [fst snd]. rewrite Nat2Z.inj_succ, <- Z.add_1_r.
  f_equal; lia.
Qed.

(** The walk back from the far end visits the cells of the walk out in
    the opposite order, when the major extent is odd. *)
Lemma cell_at_reverse (sa sb sb' a b : Z) (k : nat) :
  Z.odd D = true -> Z.of_nat k <= D ->
  sb' = - sb \/ m = 0 ->
  cell_at D m (- sa) sb' (a + sa * D) (b + sb * m) (D / 2) k
  = cell_at D m sa sb a b (D / 2) (Z.to_nat D - k).
Proof.
  intros Hodd Hk Hsb. pose proof D_pos. unfold cell_at.
  rewrite Nat2Z.inj_sub by lia. rewrite Z2Nat.id by lia.
  rewrite (minor_at_reverse (Z.of_nat k) Hodd) by lia.
  pose proof (minor_at_bounds D m D_pos m_range (D / 2) (Z.of_nat k)
                half_range ltac:(lia)) as Hb.
  f_equal; [lia |].
  destruct Hsb as [-> | Hm0]; [lia |].
  assert (minor_at D m (D / 2) (Z.of_nat k) = 0) as -> by lia. lia.
Qed.

End WalkFacts.

(** *** The pixels of a line *)

Lemma walk_closed (D m sa sb a b : Z) :
  0 < D -> 0 <= m <= D ->
  walk_cells D m sa sb (Z.to_nat D) a b (D / 2)
    ++ [fst (walk_end D m sa sb (Z.to_nat D) a b (D / 2))]
  = map (cell_at D m sa sb a b (D / 2)) (seq 0 (S (Z.to_nat D))).
Proof.
  intros HD Hm. pose proof (half_range D HD) as He.
  rewrite walk_cells_closed by assumption.
  destruct (walk_end_closed D m sa sb HD Hm (Z.to_nat D) a b (D / 2) He)
    as [err' ->].
  rewrite seq_S, map_app. reflexivity.
Qed.

Lemma line_pixels_closed (x0 y0 x1 y1 : Z) :
  line_pixels x0 y0 x1 y1
  = map (pixel_at x0 y0 x1 y1)
      (seq 0 (S (Z.to_nat (major_extent x0 y0 x1 y1)))).
Proof.
  unfold line_pixels, pixel_at, major_extent.
  destruct (Z.gtb_spec (Z.abs (x1 - x0)) (Z.abs (y1 - y0))) as [Hgt | Hle].
  - rewrite Z.max_l by lia. apply walk_closed; lia.
  - rewrite Z.max_r by lia.
    destruct (Z.eq_dec (Z.abs (y1 - y0)) 0) as [E | Hne].
    + rewrite E. change (Z.to_nat 0) with 0%nat.
      cbn [walk_cells walk_end app map seq fst].
      unfold swap, cell_at, minor_at. rewrite Z.div_0_r.
      cbn [fst snd Z.of_nat]. f_equal. f_equal; lia.
    + rewrite walk_closed by lia. rewrite map_map. reflexivity.
Qed.

(** Sign and size of a coordinate difference. *)
Lemma line_far_end (a0 a1 : Z) :
  a0 + (if a0 <? a1 then 1 else -1) * Z.abs (a1 - a0) = a1.
Proof. destruct (Z.ltb_spec a0 a1); lia. Qed.

(** Where the [k]-th pixel lies: [i] steps from the start along x and [j]
    along y, the larger of the two being [k]. *)
Lemma pixel_at_offsets (x0 y0 x1 y1 : Z) (k : nat) :
  Z.of_nat k <= major_extent x0 y0 x1 y1 ->
  exists i j,
    pixel_at x0 y0 x1 y1 k
    = (x0 + (if x0 <? x1 then 1 else -1) * i,
       y0 + (if y0 <? y1 then 1 else -1) * j) /\
    0 <= i <= Z.abs (x1 - x0) /\ 0 <= j <= Z.abs (y1 - y0) /\
    Z.max i j = Z.of_nat k.
Proof.
  unfold pixel_at, major_extent. intros Hk.
  destruct (Z.gtb_spec (Z.abs (x1 - x0)) (Z.abs (y1 - y0))) as [Hgt | Hle].
  - destruct (cell_at_offsets (Z.abs (x1 - x0)) (Z.abs (y1 - y0))
                ltac:(lia) ltac:(lia)
                (if x0 <? x1 then 1 else -1) (if y0 <? y1 then 1 else -1)
                x0 y0 k ltac:(lia)) as (j & -> & Hj & Hjk).
    exists (Z.of_nat k), j. repeat split; lia.
  - destruct (Z.eq_dec (Z.abs (y1 - y0)) 0) as [E | Hne].
    + exists 0, 0. assert (k = 0%nat) as -> by lia.
      rewrite E. unfold swap, cell_at, minor_at. rewrite Z.div_0_r.
      cbn [fst snd Z.of_nat]. split; [f_equal; lia |]. lia.
    + destruct (cell_at_offsets (Z.abs (y1 - y0)) (Z.abs (x1 - x0))
                  ltac:(lia) ltac:(lia)
                  (if y0 <? y1 then 1 else -1) (if x0 <? x1 then 1 else -1)
                  y0 x0 k ltac:(lia)) as (i & -> & Hi & Hik).
      exists i, (Z.of_nat k). unfold swap; cbn [fst snd].
      repeat split; lia.
Qed.

Lemma pixel_at_first (x0 y0 x1 y1 : Z) : pixel_at x0 y0 x1 y1 0 = (x0, y0).
Proof.
  destruct (pixel_at_offsets x0 y0 x1 y1 0) as (i & j & -> & Hi & Hj & Hmax).
  { unfold major_extent. cbn [Z.of_nat]. lia. }
  cbn [Z.of_nat] in Hmax.
  assert (i = 0) as -> by lia. assert (j = 0) as -> by lia.
  f_equal; lia.
Qed.

Lemma pixel_at_last (x0 y0 x1 y1 : Z) :
  pixel_at x0 y0 x1 y1 (Z.to_nat (major_extent x0 y0 x1 y1)) = (x1, y1).
Proof.
  unfold pixel_at, major_extent.
  destruct (Z.gtb_spec (Z.abs (x1 - x0)) (Z.abs (y1 - y0))) as [Hgt | Hle].
  - rewrite Z.max_l by lia. rewrite cell_at_last by lia.
    rewrite !line_far_end. reflexivity.
  - rewrite Z.max_r by lia.
    destruct (Z.eq_dec (Z.abs (y1 - y0)) 0) as [E | Hne].
    + rewrite E. change (Z.to_nat 0) with 0%nat.
      unfold swap, cell_at, minor_at. rewrite Z.div_0_r.
      cbn [fst snd Z.of_nat]. f_equal; lia.
    + rewrite cell_at_last by lia. unfold swap; cbn [fst snd].
      rewrite !line_far_end. reflexivity.
Qed.

(** Consecutive pixels are neighbours: they differ by one along the
    major axis and by at most one along the other. *)
Lemma pixel_at_step (x0 y0 x1 y1 : Z) (k : nat) :
  Z.of_nat (S k) <= major_extent x0 y0 x1 y1 ->
  Z.max (Z.abs (fst (pixel_at x0 y0 x1 y1 (S k))
                - fst (pixel_at x0 y0 x1 y1 k)))
        (Z.abs (snd (pixel_at x0 y0 x1 y1 (S k))
                - snd (pixel_at x0 y0 x1 y1 k))) = 1.
Proof.
  unfold pixel_at, major_extent. intros Hk.
  pose proof (line_sign x0 x1) as Hsx. pose proof (line_sign y0 y1) as Hsy.
  destruct (Z.gtb_spec (Z.abs (x1 - x0)) (Z.abs (y1 - y0))) as [Hgt | Hle].
  - destruct (cell_at_step (Z.abs (x1 - x0)) (Z.abs (y1 - y0))
                ltac:(lia) ltac:(lia)
                (if x0 <? x1 then 1 else -1) (if y0 <? y1 then 1 else -1)
                x0 y0 k) as (c & Hc & ->).
    cbn [fst snd]. lia.
  - destruct (cell_at_step (Z.abs (y1 - y0)) (Z.abs (x1 - x0))
                ltac:(lia) ltac:(lia)
                (if y0 <? y1 then 1 else -1) (if x0 <? x1 then 1 else -1)
                y0 x0 k) as (c & Hc & ->).
    unfold swap; cbn [fst snd]. lia.
Qed.

Lemma major_extent_nonneg (x0 y0 x1 y1 : Z) : 0 <= major_extent x0 y0 x1 y1.
Proof. unfold major_extent. lia. Qed.

Lemma major_extent_sym (x0 y0 x1 y1 : Z) :
  major_extent x1 y1 x0 y0 = major_extent x0 y0 x1 y1.
Proof. unfold major_extent. lia. Qed.

Lemma line_pixels_length (x0 y0 x1 y1 : Z) :
  length (line_pixels x0 y0 x1 y1) = S (Z.to_nat (major_extent x0 y0 x1 y1)).
Proof. rewrite line_pixels_closed, length_map, length_seq. reflexivity. Qed.

Lemma line_pixels_lookup (x0 y0 x1 y1 : Z) (k : nat) (p : Z * Z) :
  line_pixels x0 y0 x1 y1 !! k = Some p <->
  Z.of_nat k <= major_extent x0 y0 x1 y1 /\ p = pixel_at x0 y0 x1 y1 k.
Proof.
  pose proof (major_extent_nonneg x0 y0 x1 y1) as HD.
  rewrite line_pixels_closed.
  change (map (pixel_at x0 y0 x1 y1) ?l) with (pixel_at x0 y0 x1 y1 <$> l).
  rewrite list_lookup_fmap. split.
  - intros H. destruct (seq 0 _ !! k) as [j |] eqn:E; [| discriminate].
    apply lookup_seq in E as [-> Hlt]. simpl in H. split; [lia | congruence].
  - intros [Hk ->]. rewrite lookup_seq_lt by lia. reflexivity.
Qed.

(** A line between two pixels of the canvas stays on the canvas. *)
Lemma line_pixels_on_canvas (x0 y0 x1 y1 : Z) :
  on_canvas x0 y0 -> on_canvas x1 y1 ->
  Forall (fun p => on_canvas (fst p) (snd p)) (line_pixels x0 y0 x1 y1).
Proof.
  intros H0 H1. apply Forall_lookup. intros k p Hp.
  apply line_pixels_lookup in Hp as [Hk ->].
  destruct (pixel_at_offsets x0 y0 x1 y1 k Hk) as (i & j & -> & Hi & Hj & _).
  unfold on_canvas in *. cbn [fst snd].
  destruct (Z.ltb_spec x0 x1); destruct (Z.ltb_spec y0 y1); lia.
Qed.

Lemma pixel_at_reverse (x0 y0 x1 y1 : Z) (k : nat) :
  Z.odd (major_extent x0 y0 x1 y1) = true ->
  Z.of_nat k <= major_extent x0 y0 x1 y1 ->
  pixel_at x1 y1 x0 y0 k
  = pixel_at x0 y0 x1 y1 (Z.to_nat (major_extent x0 y0 x1 y1) - k).
Proof.
  unfold pixel_at, major_extent. intros Hodd Hk.
  replace (Z.abs (x0 - x1)) with (Z.abs (x1 - x0)) by lia.
  replace (Z.abs (y0 - y1)) with (Z.abs (y1 - y0)) by lia.
  destruct (Z.gtb_spec (Z.abs (x1 - x0)) (Z.abs (y1 - y0))) as [Hgt | Hle].
  - rewrite Z.max_l in Hodd, Hk |- * by lia.
    assert (Hsb : (if y1 <? y0 then 1 else -1) = - (if y0 <? y1 then 1 else -1)
                  \/ Z.abs (y1 - y0) = 0)
      by (destruct (Z.ltb_spec y1 y0); destruct (Z.ltb_spec y0 y1); lia).
    pose proof (cell_at_reverse (Z.abs (x1 - x0)) (Z.abs (y1 - y0))
                  ltac:(lia) ltac:(lia)
                  (if x0 <? x1 then 1 else -1) (if y0 <? y1 then 1 else -1)
                  (if y1 <? y0 then 1 else -1) x0 y0 k Hodd Hk Hsb) as Hrev.
    rewrite !line_far_end in Hrev. rewrite <- Hrev.
    f_equal. destruct (Z.ltb_spec x1 x0); destruct (Z.ltb_spec x0 x1); lia.
  - rewrite Z.max_r in Hodd, Hk |- * by lia.
    assert (Hpos : 0 < Z.abs (y1 - y0)).
    { destruct (Z.eq_dec (Z.abs (y1 - y0)) 0) as [E | Hne]; [| lia].
      rewrite E in Hodd. discriminate Hodd. }
    assert (Hsb : (if x1 <? x0 then 1 else -1) = - (if x0 <? x1 then 1 else -1)
                  \/ Z.abs (x1 - x0) = 0)
      by (destruct (Z.ltb_spec x1 x0); destruct (Z.ltb_spec x0 x1); lia).
    pose proof (cell_at_reverse (Z.abs (y1 - y0)) (Z.abs (x1 - x0))
                  ltac:(lia) ltac:(lia)
                  (if y0 <? y1 then 1 else -1) (if x0 <? x1 then 1 else -1)
                  (if x1 <? x0 then 1 else -1) y0 x0 k Hodd Hk Hsb) as Hrev.
    rewrite !line_far_end in Hrev. rewrite <- Hrev.
    f_equal. f_equal.
    destruct (Z.ltb_spec y1 y0); destruct (Z.ltb_spec y0 y1); lia.
Qed.

(** With an odd major extent the line drawn from the other end is the
    same pixels in the opposite order. *)
Lemma line_pixels_reverse (x0 y0 x1 y1 : Z) :
  Z.odd (major_extent x0 y0 x1 y1) = true ->
  line_pixels x1 y1 x0 y0 = reverse (line_pixels x0 y0 x1 y1).
Proof.
  intros Hodd. pose proof (major_extent_nonneg x0 y0 x1 y1) as HD.
  apply list_eq. intros k.
  destruct (decide (Z.of_nat k <= major_extent x0 y0 x1 y1)) as [Hk | Hk].
  - rewrite reverse_lookup by (rewrite line_pixels_length; lia).
    rewrite line_pixels_length.
    assert (Hk' : Z.of_nat k <= major_extent x1 y1 x0 y0)
      by (rewrite major_extent_sym; exact Hk).
    assert (Hk2 : Z.of_nat (S (Z.to_nat (major_extent x0 y0 x1 y1)) - S k)
                  <= major_extent x0 y0 x1 y1) by lia.
    rewrite (proj2 (line_pixels_lookup x1 y1 x0 y0 k _) (conj Hk' eq_refl)).
    rewrite (proj2 (line_pixels_lookup x0 y0 x1 y1 _ _) (conj Hk2 eq_refl)).
    f_equal. rewrite pixel_at_reverse by assumption. f_equal.
  - rewrite !lookup_ge_None_2; [reflexivity | |].
    + rewrite length_reverse, line_pixels_length. lia.
    + rewrite line_pixels_length, major_extent_sym. lia.
Qed.

(** C8 fails: from (0, 0) to (2, 1) the middle pixel is (1, 0), from
    (2, 1) to (0, 0) it is (1, 1). *)
Lemma draw_line_not_symmetric : ~ draw_line_symmetric.
Proof.
  intros H.
  assert (Hin : (1, 0) ∈ line_pixels 2 1 0 0).
  { apply (H 0 0 2 1); [unfold on_canvas, buffer_width; lia .. |].
    vm_compute. apply list_elem_of_here || (constructor; constructor). }
  vm_compute in Hin.
  repeat (apply elem_of_cons in Hin as [Hin | Hin]; [discriminate Hin |]).
  apply elem_of_nil in Hin. exact Hin.
Qed.

(** The same on the image: the two calls leave different buffers. *)
Lemma draw_line_not_symmetric_on_buffer :
  getpixel (_buffer (state_after (draw_line 0 0 2 1 orange (init 0)))) 1 0
    = Some orange /\
  getpixel (_buffer (state_after (draw_line 2 1 0 0 orange (init 0)))) 1 0
    = Some black.
Proof. split; vm_compute; reflexivity. Qed.

(** C8 (as amended): between two pixels of the canvas, draw_line returns
    normally and writes max(|dx|, |dy|) + 1 pixels, the first being
    (x0, y0), the last (x1, y1), the k-th at distance k from the start
    along the major axis and no farther along the other, each next to its
    successor: one pixel per major-axis step, no gap, no pixel twice.
    When the major extent is odd, drawing from the other end writes the
    same pixels in the opposite order, hence the same set. *)
Theorem draw_line_shape (x0 y0 x1 y1 : Z) (color : Color) (d : DivoomPixoo64) :
  on_canvas x0 y0 -> on_canvas x1 y1 ->
  let pixels := line_pixels x0 y0 x1 y1 in
  let D := major_extent x0 y0 x1 y1 in
  draw_line x0 y0 x1 y1 color d = write_all color pixels d /\
  outcome_of (draw_line x0 y0 x1 y1 color d) = Ret tt /\
  Z.of_nat (length pixels) = D + 1 /\
  head pixels = Some (x0, y0) /\
  last pixels = Some (x1, y1) /\
  (forall (k : nat) (p : Z * Z),
     pixels !! k = Some p ->
     Z.max (Z.abs (fst p - x0)) (Z.abs (snd p - y0)) = Z.of_nat k) /\
  (forall (k : nat) (p q : Z * Z),
     pixels !! k = Some p -> pixels !! S k = Some q ->
     Z.max (Z.abs (fst q - fst p)) (Z.abs (snd q - snd p)) = 1) /\
  (Z.odd D = true ->
     line_pixels x1 y1 x0 y0 = reverse pixels /\
     forall p : Z * Z, p ∈ line_pixels x1 y1 x0 y0 <-> p ∈ pixels).
Proof.
  intros H0 H1 pixels D.
  pose proof (major_extent_nonneg x0 y0 x1 y1) as HD.
  split; [apply draw_line_writes |].
  split.
  { rewrite draw_line_writes.
    apply write_all_on_canvas, line_pixels_on_canvas; assumption. }
  split.
  { unfold pixels. rewrite line_pixels_length. fold D. lia. }
  split.
  { rewrite head_lookup.
    apply line_pixels_lookup. split; [fold D; lia |].
    symmetry. apply pixel_at_first. }
  split.
  { rewrite last_lookup. unfold pixels. rewrite line_pixels_length.
    cbn [pred]. apply line_pixels_lookup. split; [lia |].
    symmetry. apply pixel_at_last. }
  split.
  { intros k p Hp. apply line_pixels_lookup in Hp as [Hk ->].
    destruct (pixel_at_offsets x0 y0 x1 y1 k Hk)
      as (i & j & -> & Hi & Hj & Hmax).
    cbn [fst snd].
    destruct (Z.ltb_spec x0 x1); destruct (Z.ltb_spec y0 y1); lia. }
  split.
  { intros k p q Hp Hq.
    apply line_pixels_lookup in Hp as [_ ->].
    apply line_pixels_lookup in Hq as [Hk ->].
    apply pixel_at_step, Hk. }
  intros Hodd.
  assert (Hrev : line_pixels x1 y1 x0 y0 = reverse pixels)
    by (apply line_pixels_reverse, Hodd).
  split; [exact Hrev |].
  intros p. rewrite Hrev. apply elem_of_reverse.
Qed.

Lemma draw_line_shape_witness :
  outcome_of (draw_line 0 0 3 1 orange (init 0)) = Ret tt /\
  last (line_pixels 0 0 3 1) = Some (3, 1) /\
  line_pixels 3 1 0 0 = reverse (line_pixels 0 0 3 1).
Proof.
  assert (Ha : on_canvas 0 0) by (unfold on_canvas, buffer_width; lia).
  assert (Hb : on_canvas 3 1) by (unfold on_canvas, buffer_width; lia).
  pose proof (draw_line_shape 0 0 3 1 orange (init 0) Ha Hb)
    as (_ & Hret & _ & _ & Hlast & _ & _ & Hodd).
  split; [exact Hret |]. split; [exact Hlast |].
  exact (proj1 (Hodd eq_refl)).
Defined.

(** ** The scenarios of the specification, run on the model *)

(** [draw_line(0, 0, 63, 63, C)]: 64 pixels, the k-th being (k, k). *)
Example diagonal_line :
  line_pixels 0 0 63 63 = (fun k => (k, k)) <$> range 0 64.
Proof. vm_compute. reflexivity. Qed.

(** [draw_rectangle(10, 10, 54, 54, C, fill=F)]: the corners are C, the
    centre and (11, 11) are F. *)
Example filled_rectangle :
  let d := state_after
             (draw_rectangle 10 10 54 54 orange (Some black)
                (state_after (clear_buffer (xff, xff, xff) (init 0)))) in
  getpixel (_buffer d) 10 10 = Some orange /\
  getpixel (_buffer d) 54 54 = Some orange /\
  getpixel (_buffer d) 32 32 = Some black /\
  getpixel (_buffer d) 11 11 = Some black /\
  getpixel (_buffer d) 9 9 = Some (xff, xff, xff).
Proof. vm_compute. repeat split. Qed.

(** [draw_circle(32, 32, 20, C)]: the four axis points are written, the
    centre is not. *)
Example circle_outline :
  let d := state_after (draw_circle 32 32 20 orange None (init 0)) in
  getpixel (_buffer d) 52 32 = Some orange /\
  getpixel (_buffer d) 12 32 = Some orange /\
  getpixel (_buffer d) 32 52 = Some orange /\
  getpixel (_buffer d) 32 12 = Some orange /\
  getpixel (_buffer d) 32 32 = Some black.
Proof. vm_compute. repeat split. Qed.

(** Clearing twice to one colour is clearing once. *)
Lemma clear_buffer_idempotent (color : Color) (d : DivoomPixoo64) :
  state_after (clear_buffer color (state_after (clear_buffer color d)))
  = state_after (clear_buffer color d).
Proof.
  unfold clear_buffer, modify, with_buffer, state_after. cbn [fst _buffer
    _pic_id_counter wire].
  f_equal. rewrite <- list_fmap_compose. reflexivity.
Qed.

(** ** What the drawing operations do to the image *)

Lemma with_buffer_wf (d : DivoomPixoo64) (x y : Z) (color : Color) :
  buffer_wf d -> buffer_wf (with_buffer (putpixel x y color) d).
Proof.
  unfold buffer_wf, with_buffer, putpixel. cbn [_buffer].
  rewrite length_insert. auto.
Qed.

Lemma getpixel_putpixel (d : DivoomPixoo64) (px py x y : Z) (color : Color) :
  buffer_wf d -> on_canvas px py -> on_canvas x y ->
  getpixel (putpixel px py color (_buffer d)) x y
  = if is_pixel (px, py) x y then Some color else getpixel (_buffer d) x y.
Proof.
  intros Hwf Hp Hxy. unfold getpixel, putpixel, is_pixel. cbn [fst snd].
  destruct (Z.eqb_spec x px) as [-> | Hx]; cbn [andb].
  - destruct (Z.eqb_spec y py) as [-> | Hy].
    + apply list_lookup_insert_eq, pixel_index_lt; assumption.
    + apply list_lookup_insert_ne. intros E.
      apply pixel_index_inj in E; [lia | assumption ..].
  - apply list_lookup_insert_ne. intros E.
    apply pixel_index_inj in E; [lia | assumption ..].
Qed.

Lemma paints_ret {A} (a : A) (color : Color) :
  paints (ret a) color (fun _ _ => false).
Proof.
  intros d Hwf. exists d, a. repeat split; auto.
Qed.

Lemma paints_ext {A} (m : M DivoomPixoo64 A) (color : Color)
    (sel sel' : Z -> Z -> bool) :
  (forall x y, on_canvas x y -> sel x y = sel' x y) ->
  paints m color sel -> paints m color sel'.
Proof.
  intros Hext Hm d Hwf.
  destruct (Hm d Hwf) as (d' & a & E & Hwf' & Hc & Hw & Hpix).
  exists d', a. repeat split; try assumption.
  intros x y Hxy. rewrite <- Hext by exact Hxy. apply Hpix, Hxy.
Qed.

Lemma paints_bind {A B} (m : M DivoomPixoo64 A) (k : A -> M DivoomPixoo64 B)
    (color : Color) (sel1 sel2 : Z -> Z -> bool) :
  paints m color sel1 -> (forall a, paints (k a) color sel2) ->
  paints (bind m k) color (fun x y => sel1 x y || sel2 x y).
Proof.
  intros Hm Hk d Hwf.
  destruct (Hm d Hwf) as (d1 & a & E1 & Hwf1 & Hc1 & Hw1 & Hpix1).
  destruct (Hk a d1 Hwf1) as (d2 & b & E2 & Hwf2 & Hc2 & Hw2 & Hpix2).
  exists d2, b. unfold bind. rewrite E1.
  repeat split; try assumption; try congruence.
  intros x y Hxy. rewrite Hpix2, Hpix1 by exact Hxy.
  destruct (sel1 x y); destruct (sel2 x y); reflexivity.
Qed.

Lemma paints_for {A} (xs : list A) (body : A -> M DivoomPixoo64 unit)
    (color : Color) (sel : A -> Z -> Z -> bool) :
  (forall a, paints (body a) color (sel a)) ->
  paints (for_ xs body) color (fun x y => existsb (fun a => sel a x y) xs).
Proof.
  intros Hbody. induction xs as [| a xs IH]; cbn [for_ existsb].
  - apply paints_ret.
  - apply paints_bind; [apply Hbody | intros _; exact IH].
Qed.

(** The guarded write of [draw_circle] and [draw_rectangle]. *)
Lemma paints_guarded_pixel (px py : Z) (color : Color) :
  paints (if in_bounds px py then set_pixel px py color else ret tt)
    color (is_pixel (px, py)).
Proof.
  destruct (in_bounds px py) eqn:Hin.
  - apply in_bounds_spec in Hin. intros d Hwf.
    exists (with_buffer (putpixel px py color) d), tt.
    rewrite set_pixel_on_canvas by exact Hin.
    split; [reflexivity |]. split; [apply with_buffer_wf, Hwf |].
    split; [reflexivity |]. split; [reflexivity |].
    intros x y Hxy. apply getpixel_putpixel; assumption.
  - apply in_bounds_false in Hin.
    apply (paints_ext _ _ (fun _ _ => false)); [| apply paints_ret].
    intros x y Hxy. unfold is_pixel. cbn [fst snd]. symmetry.
    apply andb_false_iff.
    destruct (Z.eqb_spec x px) as [-> |]; [| auto].
    destruct (Z.eqb_spec y py) as [-> |]; [| auto].
    contradiction.
Qed.

Lemma elem_of_range (a b z : Z) : In z (range a b) <-> a <= z < b.
Proof.
  unfold range. change (?f <$> ?l) with (map f l). rewrite in_map_iff. split.
  - intros (i & <- & Hi). apply in_seq in Hi. lia.
  - intros Hz. exists (Z.to_nat (z - a)). split; [lia |].
    apply in_seq. lia.
Qed.

(** X1: clearing a 64 x 64 buffer returns normally, keeps its size, the
    counter and the transport, and leaves every pixel of the canvas
    reading the colour given; clearing a second time to the same colour
    changes nothing more. *)
Theorem clear_buffer_fills (color : Color) (d : DivoomPixoo64) :
  buffer_wf d ->
  let d' := state_after (clear_buffer color d) in
  outcome_of (clear_buffer color d) = Ret tt /\
  buffer_wf d' /\
  _pic_id_counter d' = _pic_id_counter d /\
  wire d' = wire d /\
  (forall x y, on_canvas x y -> getpixel (_buffer d') x y = Some color) /\
  state_after (clear_buffer color d') = d'.
Proof.
  intros Hwf d'. split; [reflexivity |].
  assert (Hwf' : buffer_wf d').
  { unfold d', clear_buffer, modify, with_buffer, state_after, buffer_wf in *.
    cbn [fst _buffer]. rewrite length_fmap. exact Hwf. }
  split; [exact Hwf' |]. split; [reflexivity |]. split; [reflexivity |].
  split.
  - intros x y Hxy.
    pose proof (pixel_index_lt d x y Hwf Hxy) as Hlt.
    unfold d', clear_buffer, modify, with_buffer, state_after, getpixel.
    cbn [fst _buffer]. rewrite list_lookup_fmap.
    destruct (lookup_lt_is_Some_2 _ _ Hlt) as [c ->]. reflexivity.
  - apply clear_buffer_idempotent.
Qed.

Lemma clear_buffer_fills_witness :
  getpixel (_buffer (state_after (clear_buffer orange (init 0)))) 63 63
  = Some orange.
Proof.
  refine (proj1 (proj2 (proj2 (proj2 (proj2
    (clear_buffer_fills orange (init 0) (init_buffer_wf 0)))))) 63 63 _).
  unfold on_canvas, buffer_width. lia.
Defined.

(** X2: on the canvas, a second write to the same pixel replaces the
    first, and writes to two different pixels give the same controller in
    either order. *)
Theorem set_pixel_overwrite_commute (d : DivoomPixoo64) (x y x' y' : Z)
    (c c' : Color) :
  on_canvas x y -> on_canvas x' y' ->
  (set_pixel x y c >> set_pixel x y c') d = set_pixel x y c' d /\
  ((x, y) <> (x', y') ->
   (set_pixel x y c >> set_pixel x' y' c') d
   = (set_pixel x' y' c' >> set_pixel x y c) d).
Proof.
  intros Hxy Hxy'. unfold bind.
  repeat (rewrite !set_pixel_on_canvas by assumption; cbn beta iota).
  unfold with_buffer, putpixel. cbn [_buffer _pic_id_counter wire].
  split.
  - rewrite list_insert_insert_eq. reflexivity.
  - intros Hne. rewrite list_insert_insert_ne; [reflexivity |].
    intros E. apply Hne.
    destruct (pixel_index_inj x' y' x y Hxy' Hxy E) as [-> ->]. reflexivity.
Qed.

Lemma set_pixel_overwrite_commute_witness :
  (set_pixel 3 4 orange >> set_pixel 3 4 black) (init 0)
  = set_pixel 3 4 black (init 0) /\
  (set_pixel 3 4 orange >> set_pixel 5 6 black) (init 0)
  = (set_pixel 5 6 black >> set_pixel 3 4 orange) (init 0).
Proof.
  assert (Ha : on_canvas 3 4) by (unfold on_canvas, buffer_width; lia).
  assert (Hb : on_canvas 5 6) by (unfold on_canvas, buffer_width; lia).
  split.
  - exact (proj1 (set_pixel_overwrite_commute (init 0) 3 4 5 6 orange black
                    Ha Hb)).
  - apply (proj2 (set_pixel_overwrite_commute (init 0) 3 4 5 6 orange black
                    Ha Hb)).
    intros E. discriminate E.
Defined.

(** Painting in one colour, then in another: the second colour wins
    where both apply. *)
Lemma paints_then {A B} (m : M DivoomPixoo64 A) (k : A -> M DivoomPixoo64 B)
    (c1 c2 : Color) (sel1 sel2 : Z -> Z -> bool) (d : DivoomPixoo64) :
  paints m c1 sel1 -> (forall a, paints (k a) c2 sel2) ->
  buffer_wf d ->
  exists d' b,
    bind m k d = (d', Ret b) /\
    buffer_wf d' /\
    _pic_id_counter d' = _pic_id_counter d /\
    wire d' = wire d /\
    forall x y,
      on_canvas x y ->
      getpixel (_buffer d') x y
      = if sel2 x y then Some c2
        else if sel1 x y then Some c1 else getpixel (_buffer d) x y.
Proof.
  intros Hm Hk Hwf.
  destruct (Hm d Hwf) as (d1 & a & E1 & Hwf1 & Hc1 & Hw1 & Hpix1).
  destruct (Hk a d1 Hwf1) as (d2 & b & E2 & Hwf2 & Hc2 & Hw2 & Hpix2).
  exists d2, b. unfold bind. rewrite E1.
  repeat split; try assumption; try congruence.
  intros x y Hxy. rewrite Hpix2, Hpix1 by exact Hxy. reflexivity.
Qed.

(** The pixels selected by two nested loops over coordinates. *)
Lemma grid_rows_spec (xs ys : list Z) (x y : Z) :
  existsb (fun y' => existsb (fun x' => is_pixel (x', y') x y) xs) ys = true
  <-> In x xs /\ In y ys.
Proof.
  rewrite existsb_exists. split.
  - intros (y' & Hy' & H). apply existsb_exists in H as (x' & Hx' & H).
    unfold is_pixel in H. cbn [fst snd] in H.
    apply andb_true_iff in H as [Hx Hy].
    apply Z.eqb_eq in Hx, Hy. subst. auto.
  - intros [Hx Hy]. exists y. split; [exact Hy |].
    apply existsb_exists. exists x. split; [exact Hx |].
    unfold is_pixel. cbn [fst snd]. rewrite !Z.eqb_refl. reflexivity.
Qed.

Lemma grid_columns_spec (xs ys : list Z) (x y : Z) :
  existsb (fun x' => existsb (fun y' => is_pixel (x', y') x y) ys) xs = true
  <-> In x xs /\ In y ys.
Proof.
  rewrite existsb_exists. split.
  - intros (x' & Hx' & H). apply existsb_exists in H as (y' & Hy' & H).
    unfold is_pixel in H. cbn [fst snd] in H.
    apply andb_true_iff in H as [Hx Hy].
    apply Z.eqb_eq in Hx, Hy. subst. auto.
  - intros [Hx Hy]. exists x. split; [exact Hx |].
    apply existsb_exists. exists y. split; [exact Hy |].
    unfold is_pixel. cbn [fst snd]. rewrite !Z.eqb_refl. reflexivity.
Qed.

(** The three passes of [draw_rectangle]. *)
Lemma rectangle_fill_paints (xs ys : list Z) (fill : Color) :
  paints
    (for_ ys (fun y =>
       for_ xs (fun x =>
         if in_bounds x y then set_pixel x y fill else ret tt)))
    fill
    (fun x y =>
       existsb (fun y' => existsb (fun x' => is_pixel (x', y') x y) xs) ys).
Proof.
  apply (paints_for ys _ fill
           (fun y' x y => existsb (fun x' => is_pixel (x', y') x y) xs)).
  intros y'.
  apply (paints_for xs _ fill (fun x' => is_pixel (x', y'))).
  intros x'. apply paints_guarded_pixel.
Qed.

Lemma rectangle_columns_paint (xs ys : list Z) (color : Color) :
  paints
    (for_ xs (fun x =>
       for_ ys (fun y =>
         if in_bounds x y then set_pixel x y color else ret tt)))
    color
    (fun x y =>
       existsb (fun x' => existsb (fun y' => is_pixel (x', y') x y) ys) xs).
Proof.
  apply (paints_for xs _ color
           (fun x' x y => existsb (fun y' => is_pixel (x', y') x y) ys)).
  intros x'.
  apply (paints_for ys _ color (fun y' => is_pixel (x', y'))).
  intros y'. apply paints_guarded_pixel.
Qed.

(** X3: [draw_rectangle] on a 64 x 64 buffer, for all integer corners in
    any order: it returns normally and, on the canvas, the pixels of the
    four sides read the outline colour, the pixels strictly inside read
    the fill colour when one is given and are untouched otherwise, and
    every pixel outside the rectangle is untouched. *)
Theorem draw_rectangle_pixels (x0 y0 x1 y1 : Z) (outline : Color)
    (fill : option Color) (d : DivoomPixoo64) :
  buffer_wf d ->
  let d' := state_after (draw_rectangle x0 y0 x1 y1 outline fill d) in
  let xa := Z.min x0 x1 in
  let xb := Z.max x0 x1 in
  let ya := Z.min y0 y1 in
  let yb := Z.max y0 y1 in
  outcome_of (draw_rectangle x0 y0 x1 y1 outline fill d) = Ret tt /\
  buffer_wf d' /\
  _pic_id_counter d' = _pic_id_counter d /\
  wire d' = wire d /\
  forall x y,
    on_canvas x y ->
    (xa <= x <= xb /\ ya <= y <= yb /\
     (x = xa \/ x = xb \/ y = ya \/ y = yb) ->
     getpixel (_buffer d') x y = Some outline) /\
    (xa < x < xb /\ ya < y < yb ->
     getpixel (_buffer d') x y
     = match fill with
       | Some f => Some f
       | None => getpixel (_buffer d) x y
       end) /\
    (~ (xa <= x <= xb /\ ya <= y <= yb) ->
     getpixel (_buffer d') x y = getpixel (_buffer d) x y).
Proof.
  intros Hwf d' xa xb ya yb.
  set (sel_fill := fun x y : Z =>
         match fill with
         | Some _ =>
             existsb (fun y' =>
               existsb (fun x' => is_pixel (x', y') x y) (range (xa + 1) xb))
               (range (ya + 1) yb)
         | None => false
         end).
  set (sel_rows := fun x y : Z =>
         existsb (fun x' => existsb (fun y' => is_pixel (x', y') x y) [ya; yb])
           (range xa (xb + 1))).
  set (sel_cols := fun x y : Z =>
         existsb (fun y' => existsb (fun x' => is_pixel (x', y') x y) [xa; xb])
           (range ya (yb + 1))).
  assert (Hfill : paints
            (match fill with
             | Some f =>
                 for_ (range (ya + 1) yb) (fun y =>
                   for_ (range (xa + 1) xb) (fun x =>
                     if in_bounds x y then set_pixel x y f else ret tt))
             | None => ret tt
             end) (default outline fill) sel_fill).
  { unfold sel_fill. destruct fill as [f |]; cbn [default].
    - apply rectangle_fill_paints.
    - apply paints_ret. }
  assert (Hout : forall u : unit, paints
            (for_ (range xa (xb + 1)) (fun x =>
               for_ [ya; yb] (fun y =>
                 if in_bounds x y then set_pixel x y outline else ret tt)) >>
             for_ (range ya (yb + 1)) (fun y =>
               for_ [xa; xb] (fun x =>
                 if in_bounds x y then set_pixel x y outline else ret tt)))
            outline (fun x y => sel_rows x y || sel_cols x y)).
  { intros _. apply paints_bind.
    - apply rectangle_columns_paint.
    - intros _. apply rectangle_fill_paints. }
  destruct (paints_then _ _ _ _ _ _ d Hfill Hout Hwf)
    as (d2 & [] & E & Hwf2 & Hc2 & Hw2 & Hpix).
  assert (Hd' : d' = d2).
  { unfold d', draw_rectangle. fold xa xb ya yb. rewrite E. reflexivity. }
  split.
  { unfold draw_rectangle. fold xa xb ya yb. rewrite E. reflexivity. }
  rewrite Hd'. repeat split; try assumption.
  - intros (Hx & Hy & Hside). rewrite Hpix by assumption.
    assert (Hsel : sel_rows x y || sel_cols x y = true).
    { apply orb_true_iff. unfold sel_rows, sel_cols.
      rewrite grid_columns_spec, grid_rows_spec, !elem_of_range.
      cbn [In]. lia. }
    rewrite Hsel. reflexivity.
  - intros (Hx & Hy). rewrite Hpix by assumption.
    assert (Hsel : sel_rows x y || sel_cols x y = false).
    { apply orb_false_iff. unfold sel_rows, sel_cols.
      split; apply not_true_is_false;
        rewrite ?grid_columns_spec, ?grid_rows_spec, !elem_of_range;
        cbn [In]; lia. }
    rewrite Hsel. unfold sel_fill. destruct fill as [f |]; [| reflexivity].
    cbn [default].
    assert (Hin : existsb (fun y' =>
               existsb (fun x' => is_pixel (x', y') x y) (range (xa + 1) xb))
               (range (ya + 1) yb) = true).
    { rewrite grid_rows_spec, !elem_of_range. lia. }
    rewrite Hin. reflexivity.
  - intros Hout'. rewrite Hpix by assumption.
    assert (Hsel : sel_rows x y || sel_cols x y = false).
    { apply orb_false_iff. unfold sel_rows, sel_cols.
      split; apply not_true_is_false;
        rewrite ?grid_columns_spec, ?grid_rows_spec, !elem_of_range;
        cbn [In]; lia. }
    rewrite Hsel.
    assert (Hfl : sel_fill x y = false).
    { unfold sel_fill. destruct fill as [f |]; [| reflexivity].
      apply not_true_is_false.
      rewrite grid_rows_spec, !elem_of_range. lia. }
    rewrite Hfl. reflexivity.
Qed.

Lemma draw_rectangle_pixels_witness :
  let d' := state_after
              (draw_rectangle 54 54 10 10 orange (Some black)
                 (state_after (clear_buffer (xff, xff, xff) (init 0)))) in
  getpixel (_buffer d') 10 54 = Some orange /\
  getpixel (_buffer d') 11 11 = Some black.
Proof.
  assert (Hwf : buffer_wf
                  (state_after (clear_buffer (xff, xff, xff) (init 0)))).
  { unfold buffer_wf, clear_buffer, modify, with_buffer, state_after.
    cbn [fst _buffer]. rewrite length_fmap. apply init_buffer_wf. }
  pose proof (draw_rectangle_pixels 54 54 10 10 orange (Some black) _ Hwf)
    as (_ & _ & _ & _ & Hpix).
  split.
  - apply (Hpix 10 54); [unfold on_canvas, buffer_width; lia | lia].
  - apply (Hpix 11 11); [unfold on_canvas, buffer_width; lia | lia].
Defined.

(** Writing pixels of the canvas one after the other paints them. *)
Lemma write_all_paints (color : Color) (pixels : list (Z * Z)) :
  Forall (fun p => on_canvas (fst p) (snd p)) pixels ->
  paints (write_all color pixels) color
    (fun x y => existsb (fun p => is_pixel p x y) pixels).
Proof.
  unfold write_all. induction pixels as [| p pixels IH]; intros Hall.
  - apply paints_ret.
  - inversion Hall as [| ? ? Hp Hrest]; subst. cbn [for_ existsb].
    apply paints_bind; [| intros _; apply IH, Hrest].
    apply in_bounds_spec in Hp.
    pose proof (paints_guarded_pixel (fst p) (snd p) color) as H.
    rewrite Hp in H. destruct p; exact H.
Qed.

Lemma is_pixel_in (pixels : list (Z * Z)) (x y : Z) :
  existsb (fun p => is_pixel p x y) pixels = true <-> (x, y) ∈ pixels.
Proof.
  rewrite existsb_exists, list_elem_of_In. split.
  - intros ([px py] & Hin & H). unfold is_pixel in H. cbn [fst snd] in H.
    apply andb_true_iff in H as [Hx Hy]. apply Z.eqb_eq in Hx, Hy.
    subst. exact Hin.
  - intros Hin. exists (x, y). split; [exact Hin |].
    unfold is_pixel. cbn [fst snd]. rewrite !Z.eqb_refl. reflexivity.
Qed.

(** Whatever the pixels, writing them touches nothing but them, and
    stops with ValueError at the first one off the canvas. *)
Lemma write_all_frame (color : Color) (pixels : list (Z * Z)) :
  forall d,
    buffer_wf d ->
    let d' := state_after (write_all color pixels d) in
    buffer_wf d' /\
    _pic_id_counter d' = _pic_id_counter d /\
    wire d' = wire d /\
    forall x y,
      on_canvas x y -> (x, y) ∉ pixels ->
      getpixel (_buffer d') x y = getpixel (_buffer d) x y.
Proof.
  unfold write_all. induction pixels as [| [px py] pixels IH]; intros d Hwf.
  - cbn. auto.
  - cbn [for_ fst snd]. unfold bind, state_after.
    destruct (in_bounds px py) eqn:Hin.
    + apply in_bounds_spec in Hin.
      rewrite set_pixel_on_canvas by exact Hin.
      destruct (IH _ (with_buffer_wf d px py color Hwf))
        as (Hwf' & Hc & Hw & Hpix).
      unfold state_after in *. repeat split; try assumption.
      intros x y Hxy Hnot. rewrite Hpix.
      * cbn [with_buffer _buffer]. rewrite getpixel_putpixel by assumption.
        destruct (is_pixel (px, py) x y) eqn:E; [| reflexivity].
        unfold is_pixel in E. cbn [fst snd] in E.
        apply andb_true_iff in E as [Ex Ey]. apply Z.eqb_eq in Ex, Ey.
        subst. exfalso. apply Hnot. left.
      * exact Hxy.
      * intros Hin'. apply Hnot. right. exact Hin'.
    + apply in_bounds_false in Hin.
      rewrite set_pixel_off_canvas by exact Hin. cbn. auto.
Qed.

Lemma write_all_off_canvas (color : Color) (pixels : list (Z * Z)) :
  Exists (fun p => ~ on_canvas (fst p) (snd p)) pixels ->
  forall d, outcome_of (write_all color pixels d) = Raise ValueError.
Proof.
  unfold write_all.
  induction pixels as [| [px py] pixels IH]; intros Hex d.
  - inversion Hex.
  - cbn [for_ fst snd]. unfold bind, outcome_of.
    destruct (in_bounds px py) eqn:Hin.
    + apply in_bounds_spec in Hin.
      rewrite set_pixel_on_canvas by exact Hin.
      apply IH. inversion Hex as [? ? Hp | ? ? Hrest]; subst.
      * contradiction.
      * exact Hrest.
    + apply in_bounds_false in Hin.
      rewrite set_pixel_off_canvas by exact Hin. reflexivity.
Qed.

Lemma line_pixels_ends (x0 y0 x1 y1 : Z) :
  (x0, y0) ∈ line_pixels x0 y0 x1 y1 /\ (x1, y1) ∈ line_pixels x0 y0 x1 y1.
Proof.
  pose proof (major_extent_nonneg x0 y0 x1 y1) as HD.
  split; apply list_elem_of_lookup.
  - exists 0%nat. apply line_pixels_lookup. split; [cbn; lia |].
    symmetry. apply pixel_at_first.
  - exists (Z.to_nat (major_extent x0 y0 x1 y1)).
    apply line_pixels_lookup. split; [lia |].
    symmetry. apply pixel_at_last.
Qed.

(** X4: [draw_line] for all integer endpoints, on a 64 x 64 buffer.  It
    returns normally exactly when both endpoints are on the canvas and
    raises ValueError otherwise; it never touches a pixel that is not on
    the line, nor the counter or the transport; and when it returns,
    every pixel of the line reads the colour drawn. *)
Theorem draw_line_outcome_and_pixels (x0 y0 x1 y1 : Z) (color : Color)
    (d : DivoomPixoo64) :
  buffer_wf d ->
  let d' := state_after (draw_line x0 y0 x1 y1 color d) in
  outcome_of (draw_line x0 y0 x1 y1 color d)
  = (if in_bounds x0 y0 && in_bounds x1 y1 then Ret tt
     else Raise ValueError) /\
  buffer_wf d' /\
  _pic_id_counter d' = _pic_id_counter d /\
  wire d' = wire d /\
  (forall x y,
     on_canvas x y -> (x, y) ∉ line_pixels x0 y0 x1 y1 ->
     getpixel (_buffer d') x y = getpixel (_buffer d) x y) /\
  (on_canvas x0 y0 -> on_canvas x1 y1 ->
   forall x y,
     (x, y) ∈ line_pixels x0 y0 x1 y1 ->
     on_canvas x y /\ getpixel (_buffer d') x y = Some color).
Proof.
  intros Hwf d'. unfold d'. rewrite draw_line_writes.
  destruct (write_all_frame color (line_pixels x0 y0 x1 y1) d Hwf)
    as (Hwf' & Hc & Hw & Hframe).
  split.
  { destruct (in_bounds x0 y0) eqn:H0; [destruct (in_bounds x1 y1) eqn:H1 |];
      cbn [andb].
    - apply in_bounds_spec in H0, H1.
      apply write_all_on_canvas, line_pixels_on_canvas; assumption.
    - apply in_bounds_false in H1. apply write_all_off_canvas.
      apply Exists_exists. exists (x1, y1). split; [| exact H1].
      apply (proj2 (line_pixels_ends x0 y0 x1 y1)).
    - apply in_bounds_false in H0. apply write_all_off_canvas.
      apply Exists_exists. exists (x0, y0). split; [| exact H0].
      apply (proj1 (line_pixels_ends x0 y0 x1 y1)). }
  split; [exact Hwf' |]. split; [exact Hc |]. split; [exact Hw |].
  split; [exact Hframe |].
  intros Ha Hb x y Hin.
  pose proof (line_pixels_on_canvas x0 y0 x1 y1 Ha Hb) as Hall.
  assert (Hxy : on_canvas x y).
  { rewrite Forall_forall in Hall.
    apply (Hall (x, y)), Hin. }
  split; [exact Hxy |].
  destruct (write_all_paints color _ Hall d Hwf)
    as (d2 & [] & E & _ & _ & _ & Hpix).
  rewrite E. unfold state_after; cbn [fst].
  rewrite Hpix by exact Hxy.
  rewrite (proj2 (is_pixel_in _ x y) Hin). reflexivity.
Qed.

Lemma draw_line_outcome_and_pixels_witness :
  outcome_of (draw_line 60 2 70 7 orange (init 0)) = Raise ValueError /\
  getpixel
    (_buffer (state_after (draw_line 0 0 63 63 orange (init 0)))) 40 40
  = Some orange.
Proof.
  split.
  - exact (proj1 (draw_line_outcome_and_pixels 60 2 70 7 orange (init 0)
                    (init_buffer_wf 0))).
  - refine (proj2 (proj2 (proj2 (proj2 (proj2 (proj2
      (draw_line_outcome_and_pixels 0 0 63 63 orange (init 0)
         (init_buffer_wf 0)))))) _ _ 40 40 _)).
    + unfold on_canvas, buffer_width. lia.
    + unfold on_canvas, buffer_width. lia.
    + vm_compute. repeat (first [apply list_elem_of_here | apply list_elem_of_further]).
Defined.

Lemma line_pixels_elem (x0 y0 x1 y1 : Z) (p : Z * Z) :
  p ∈ line_pixels x0 y0 x1 y1 <->
  exists k : nat,
    Z.of_nat k <= major_extent x0 y0 x1 y1 /\ p = pixel_at x0 y0 x1 y1 k.
Proof.
  rewrite list_elem_of_lookup. split; intros [k Hk]; exists k;
    apply line_pixels_lookup, Hk.
Qed.

Lemma minor_at_diagonal (D k : Z) : 0 < D -> minor_at D D (D / 2) k = k.
Proof.
  intros HD. pose proof (half_range D HD) as He. unfold minor_at.
  replace (k * D + (D - 1 - D / 2)) with ((D - 1 - D / 2) + k * D) by lia.
  rewrite Z.div_add by lia. rewrite Z.div_small by lia. lia.
Qed.

Lemma pixel_at_diagonal (x0 y0 x1 y1 : Z) (k : nat) :
  Z.abs (x1 - x0) = Z.abs (y1 - y0) ->
  Z.of_nat k <= Z.abs (x1 - x0) ->
  pixel_at x0 y0 x1 y1 k
  = (x0 + (if x0 <? x1 then 1 else -1) * Z.of_nat k,
     y0 + (if y0 <? y1 then 1 else -1) * Z.of_nat k).
Proof.
  intros Heq Hk. unfold pixel_at. rewrite Heq.
  destruct (Z.gtb_spec (Z.abs (y1 - y0)) (Z.abs (y1 - y0))) as [Hgt | _];
    [lia |].
  unfold swap, cell_at. cbn [fst snd].
  destruct (Z.eq_dec (Z.abs (y1 - y0)) 0) as [E | Hne].
  - assert (k = 0%nat) as -> by lia. rewrite E. unfold minor_at.
    rewrite Z.div_0_r. cbn [Z.of_nat]. f_equal; lia.
  - rewrite minor_at_diagonal by lia. reflexivity.
Qed.

(** X5: the lines a user expects to be exact are exact.  A horizontal
    line is the pixels of its row between the two ends, a vertical line
    those of its column, and a line with |dx| = |dy| the pixels k steps
    along both axes for k from 0 to |dx|; this holds for all integer
    endpoints and in both directions. *)
Theorem straight_lines_exact :
  (forall (x0 x1 y : Z) (p : Z * Z),
     p ∈ line_pixels x0 y x1 y <->
     snd p = y /\ Z.min x0 x1 <= fst p <= Z.max x0 x1) /\
  (forall (x y0 y1 : Z) (p : Z * Z),
     p ∈ line_pixels x y0 x y1 <->
     fst p = x /\ Z.min y0 y1 <= snd p <= Z.max y0 y1) /\
  (forall (x0 y0 x1 y1 : Z) (p : Z * Z),
     Z.abs (x1 - x0) = Z.abs (y1 - y0) ->
     (p ∈ line_pixels x0 y0 x1 y1 <->
      exists k : Z,
        0 <= k <= Z.abs (x1 - x0) /\
        p = (x0 + (if x0 <? x1 then 1 else -1) * k,
             y0 + (if y0 <? y1 then 1 else -1) * k))).
Proof.
  split; [| split].
  - intros x0 x1 y p. rewrite line_pixels_elem. unfold major_extent. split.
    + intros (k & Hk & ->).
      destruct (pixel_at_offsets x0 y x1 y k Hk)
        as (i & j & -> & Hi & Hj & Hmax).
      cbn [fst snd]. assert (j = 0) as -> by lia.
      destruct (Z.ltb_spec x0 x1); lia.
    + intros [Hy Hx]. exists (Z.to_nat (Z.abs (fst p - x0))).
      assert (Hk : Z.of_nat (Z.to_nat (Z.abs (fst p - x0)))
                   <= Z.max (Z.abs (x1 - x0)) (Z.abs (y - y))) by lia.
      split; [exact Hk |].
      destruct (pixel_at_offsets x0 y x1 y _ Hk)
        as (i & j & -> & Hi & Hj & Hmax).
      destruct p as [px py]. cbn [fst snd] in *. subst py.
      assert (j = 0) as -> by lia.
      assert (i = Z.abs (px - x0)) as -> by lia.
      destruct (Z.ltb_spec x0 x1); f_equal; lia.
  - intros x y0 y1 p. rewrite line_pixels_elem. unfold major_extent. split.
    + intros (k & Hk & ->).
      destruct (pixel_at_offsets x y0 x y1 k Hk)
        as (i & j & -> & Hi & Hj & Hmax).
      cbn [fst snd]. assert (i = 0) as -> by lia.
      destruct (Z.ltb_spec y0 y1); lia.
    + intros [Hx Hy]. exists (Z.to_nat (Z.abs (snd p - y0))).
      assert (Hk : Z.of_nat (Z.to_nat (Z.abs (snd p - y0)))
                   <= Z.max (Z.abs (x - x)) (Z.abs (y1 - y0))) by lia.
      split; [exact Hk |].
      destruct (pixel_at_offsets x y0 x y1 _ Hk)
        as (i & j & -> & Hi & Hj & Hmax).
      destruct p as [px py]. cbn [fst snd] in *. subst px.
      assert (i = 0) as -> by lia.
      assert (j = Z.abs (py - y0)) as -> by lia.
      destruct (Z.ltb_spec y0 y1); f_equal; lia.
  - intros x0 y0 x1 y1 p Heq. rewrite line_pixels_elem.
    unfold major_extent. split.
    + intros (k & Hk & ->). exists (Z.of_nat k). split; [lia |].
      apply pixel_at_diagonal; [exact Heq | lia].
    + intros (k & Hk & ->). exists (Z.to_nat k). split; [lia |].
      rewrite pixel_at_diagonal by (exact Heq || lia).
      rewrite Z2Nat.id by lia. reflexivity.
Qed.

Lemma straight_lines_exact_witness :
  (7, 4) ∈ line_pixels 9 2 4 7.
Proof.
  apply (proj2 (proj2 straight_lines_exact) 9 2 4 7 (7, 4) eq_refl).
  exists 2. split; [cbn; lia | reflexivity].
Defined.

(** ** The circle *)

(** The outline loop computes [outline_from] and writes nothing. *)
Lemma circle_loop_value (cx cy : Z) (fuel : nat) :
  forall (x y dd : Z) (pts : gset (Z * Z)) (s : DivoomPixoo64),
    (Z.to_nat (x - y + 1) < fuel)%nat ->
    exists x' y' d',
      while_ (L := circle_vars) fuel
        (fun '(x, y, d, outline_points) => y <=? x)
        (fun '(x, y, d, outline_points) =>
           let outline_points :=
             outline_points ∪ list_to_set
               [ (cx + x, cy + y); (cx - x, cy + y);
                 (cx + x, cy - y); (cx - x, cy - y);
                 (cx + y, cy + x); (cx - y, cy + x);
                 (cx + y, cy - x); (cx - y, cy - x) ] in
           let y := y + 1 in
           if d <? 0 then ret (x, y, d + (2 * y + 1), outline_points)
           else
             let x := x - 1 in
             ret (x, y, d + (2 * (y - x) + 1), outline_points))
        (x, y, dd, pts) s
      = (s, Ret (x', y', d', outline_from cx cy fuel x y dd pts)).
Proof.
  induction fuel as [| fuel IH]; intros x y dd pts s Hfuel; [lia |].
  cbn [while_ outline_from].
  destruct (Z.leb_spec y x) as [Hle | Hgt].
  - destruct (dd <? 0); rewrite bind_ret_l; apply IH; lia.
  - exists x, y, dd. reflexivity.
Qed.

(** [draw_circle] is the fill pass followed by the guarded writes of the
    outline set. *)
Lemma draw_circle_passes (cx cy radius : Z) (outline : Color)
    (fill : option Color) (d : DivoomPixoo64) :
  draw_circle cx cy radius outline fill d
  = (match fill with
     | Some f =>
         for_ (range (- radius) (radius + 1)) (fun y_off =>
           for_ (range (- radius) (radius + 1)) (fun x_off =>
             if x_off * x_off + y_off * y_off <=? radius * radius then
               if in_bounds (cx + x_off) (cy + y_off)
               then set_pixel (cx + x_off) (cy + y_off) f else ret tt
             else ret tt))
     | None => ret tt
     end >>
     for_ (elements (outline_set cx cy radius)) (fun '(px, py) =>
       if in_bounds px py then set_pixel px py outline else ret tt)) d.
Proof.
  unfold draw_circle. apply bind_ext. intros _ d1.
  destruct (circle_loop_value cx cy (S (S (Z.to_nat radius))) radius 0
              (1 - radius) ∅ d1 ltac:(lia)) as (x' & y' & d' & E).
  rewrite (bind_ext_l _ (ret (x', y', d', outline_set cx cy radius)) _ d1 E).
  rewrite bind_ret_l. reflexivity.
Qed.

Lemma elem_of_octant_points (cx cy x y px py : Z) :
  (px, py) ∈ octant_points cx cy x y <->
  (Z.abs (px - cx) = Z.abs x /\ Z.abs (py - cy) = Z.abs y) \/
  (Z.abs (px - cx) = Z.abs y /\ Z.abs (py - cy) = Z.abs x).
Proof.
  unfold octant_points. rewrite !elem_of_cons, elem_of_nil. split.
  - intros H.
    repeat (destruct H as [H | H]; [injection H as -> ->; lia |]).
    contradiction.
  - intros [[Ha Hb] | [Ha Hb]].
    + assert (Hx : px = cx + x \/ px = cx - x) by lia.
      assert (Hy : py = cy + y \/ py = cy - y) by lia.
      destruct Hx as [-> | ->]; destruct Hy as [-> | ->];
        repeat (first [left; reflexivity | right]).
    + assert (Hx : px = cx + y \/ px = cx - y) by lia.
      assert (Hy : py = cy + x \/ py = cy - x) by lia.
      destruct Hx as [-> | ->]; destruct Hy as [-> | ->];
        repeat (first [left; reflexivity | right]).
Qed.

Lemma outline_from_S (cx cy : Z) (fuel : nat) (x y d : Z)
    (pts : gset (Z * Z)) :
  outline_from cx cy (S fuel) x y d pts
  = if y <=? x then
      if d <? 0 then
        outline_from cx cy fuel x (y + 1) (d + (2 * (y + 1) + 1))
          (pts ∪ list_to_set (octant_points cx cy x y))
      else
        outline_from cx cy fuel (x - 1) (y + 1)
          (d + (2 * (y + 1 - (x - 1)) + 1))
          (pts ∪ list_to_set (octant_points cx cy x y))
    else pts.
Proof. reflexivity. Qed.

Lemma outline_from_grows (cx cy : Z) (fuel : nat) :
  forall (x y d : Z) (pts : gset (Z * Z)) (p : Z * Z),
    p ∈ pts -> p ∈ outline_from cx cy fuel x y d pts.
Proof.
  induction fuel as [| fuel IH]; intros x y d pts p Hp; [exact Hp |].
  cbn [outline_from]. destruct (y <=? x); [| exact Hp].
  destruct (d <? 0); apply IH; apply elem_of_union; left; exact Hp.
Qed.

(** The decision variable of the midpoint algorithm, and the bounds it
    keeps while the loop runs. *)
Lemma outline_from_near (cx cy radius : Z) (fuel : nat) :
  forall (x y d : Z) (pts : gset (Z * Z)),
    0 <= y -> x <= radius ->
    d = (y + 1) * (y + 1) + x * x - x - radius * radius ->
    (y <= x -> 2 * (y - x) - 1 <= d <= 2 * y + 1) ->
    (forall px py, (px, py) ∈ pts ->
       - (radius + 2) <= circle_excess cx cy radius px py <= radius) ->
    forall px py,
      (px, py) ∈ outline_from cx cy fuel x y d pts ->
      - (radius + 2) <= circle_excess cx cy radius px py <= radius.
Proof.
  induction fuel as [| fuel IH]; intros x y d pts Hy Hx Hd Hb Hpts px py Hp;
    [apply Hpts, Hp |].
  cbn [outline_from] in Hp.
  destruct (Z.leb_spec y x) as [Hle | Hgt]; [| apply Hpts, Hp].
  specialize (Hb Hle).
  assert (Hnew : forall qx qy,
             (qx, qy) ∈ pts ∪ list_to_set (octant_points cx cy x y) ->
             - (radius + 2) <= circle_excess cx cy radius qx qy <= radius).
  { intros qx qy Hq. apply elem_of_union in Hq as [Hq | Hq];
      [apply Hpts, Hq |].
    apply elem_of_list_to_set, elem_of_octant_points in Hq.
    assert (E : circle_excess cx cy radius qx qy
                = x * x + y * y - radius * radius).
    { unfold circle_excess. nia. }
    rewrite E. nia. }
  destruct (Z.ltb_spec d 0) as [Hneg | Hpos].
  - apply (IH x (y + 1) (d + (2 * (y + 1) + 1)) _ ltac:(lia) Hx
             ltac:(nia) ltac:(lia) Hnew px py Hp).
  - apply (IH (x - 1) (y + 1) (d + (2 * (y + 1 - (x - 1)) + 1)) _
             ltac:(lia) ltac:(lia) ltac:(nia) ltac:(lia) Hnew px py Hp).
Qed.

(** The set is closed under the mirror images of the eight octants. *)
Lemma outline_from_mirror (cx cy : Z) (fuel : nat) :
  forall (x y d : Z) (pts : gset (Z * Z)),
    (forall px py qx qy,
       (px, py) ∈ pts ->
       (Z.abs (qx - cx) = Z.abs (px - cx) /\
        Z.abs (qy - cy) = Z.abs (py - cy)) \/
       (Z.abs (qx - cx) = Z.abs (py - cy) /\
        Z.abs (qy - cy) = Z.abs (px - cx)) ->
       (qx, qy) ∈ pts) ->
    forall px py qx qy,
      (px, py) ∈ outline_from cx cy fuel x y d pts ->
      (Z.abs (qx - cx) = Z.abs (px - cx) /\
       Z.abs (qy - cy) = Z.abs (py - cy)) \/
      (Z.abs (qx - cx) = Z.abs (py - cy) /\
       Z.abs (qy - cy) = Z.abs (px - cx)) ->
      (qx, qy) ∈ outline_from cx cy fuel x y d pts.
Proof.
  induction fuel as [| fuel IH]; intros x y d pts Hpts; [exact Hpts |].
  cbn [outline_from]. destruct (y <=? x); [| exact Hpts].
  assert (Hnew : forall px py qx qy,
             (px, py) ∈ pts ∪ list_to_set (octant_points cx cy x y) ->
             (Z.abs (qx - cx) = Z.abs (px - cx) /\
              Z.abs (qy - cy) = Z.abs (py - cy)) \/
             (Z.abs (qx - cx) = Z.abs (py - cy) /\
              Z.abs (qy - cy) = Z.abs (px - cx)) ->
             (qx, qy) ∈ pts ∪ list_to_set (octant_points cx cy x y)).
  { intros px py qx qy Hp Hq. apply elem_of_union.
    apply elem_of_union in Hp as [Hp | Hp].
    - left. apply (Hpts px py); assumption.
    - right. apply elem_of_list_to_set, elem_of_octant_points.
      apply elem_of_list_to_set, elem_of_octant_points in Hp. lia. }
  destruct (d <? 0); apply IH; exact Hnew.
Qed.

(** X6: the outline [draw_circle] computes.  For a negative radius it is
    empty.  Otherwise it holds the four points at distance [radius] from
    the centre along the axes, it is closed under the mirror images
    (x and y offsets negated or exchanged), and every point of it is
    close to the circle: the square of its distance to the centre differs
    from the square of the radius by at most radius + 2.  For radius 0 it
    is the centre alone. *)
Theorem outline_set_shape (cx cy radius : Z) :
  (radius < 0 -> outline_set cx cy radius = ∅) /\
  (0 <= radius ->
   (cx + radius, cy) ∈ outline_set cx cy radius /\
   (cx - radius, cy) ∈ outline_set cx cy radius /\
   (cx, cy + radius) ∈ outline_set cx cy radius /\
   (cx, cy - radius) ∈ outline_set cx cy radius /\
   (forall px py,
      (px, py) ∈ outline_set cx cy radius ->
      - (radius + 2) <= circle_excess cx cy radius px py <= radius) /\
   (forall px py qx qy,
      (px, py) ∈ outline_set cx cy radius ->
      (Z.abs (qx - cx) = Z.abs (px - cx) /\
       Z.abs (qy - cy) = Z.abs (py - cy)) \/
      (Z.abs (qx - cx) = Z.abs (py - cy) /\
       Z.abs (qy - cy) = Z.abs (px - cx)) ->
      (qx, qy) ∈ outline_set cx cy radius)) /\
  (radius = 0 ->
   forall px py, (px, py) ∈ outline_set cx cy radius <-> px = cx /\ py = cy).
Proof.
  assert (Hnear : 0 <= radius ->
            forall px py,
              (px, py) ∈ outline_set cx cy radius ->
              - (radius + 2) <= circle_excess cx cy radius px py <= radius).
  { intros Hr. unfold outline_set.
    apply outline_from_near; try lia.
    intros px py Hp. apply elem_of_empty in Hp. contradiction. }
  assert (Haxis : 0 <= radius ->
            forall px py,
              (px, py) ∈ octant_points cx cy radius 0 ->
              (px, py) ∈ outline_set cx cy radius).
  { intros Hr px py Hp. unfold outline_set. rewrite outline_from_S.
    destruct (Z.leb_spec 0 radius) as [_ | Hlt]; [| lia].
    destruct (1 - radius <? 0); apply outline_from_grows;
      apply elem_of_union; right; apply elem_of_list_to_set, Hp. }
  split; [| split].
  - intros Hr. unfold outline_set. rewrite outline_from_S.
    destruct (Z.leb_spec 0 radius) as [Hle | _]; [lia | reflexivity].
  - intros Hr.
    split; [apply Haxis, elem_of_octant_points; lia |].
    split; [apply Haxis, elem_of_octant_points; lia |].
    split; [apply Haxis, elem_of_octant_points; lia |].
    split; [apply Haxis, elem_of_octant_points; lia |].
    split; [exact (Hnear Hr) |].
    unfold outline_set. apply outline_from_mirror.
    intros px py qx qy Hp. apply elem_of_empty in Hp. contradiction.
  - intros Hr px py. split.
    + intros Hp. apply Hnear in Hp; [| lia].
      unfold circle_excess in Hp. subst radius.
      pose proof (Z.square_nonneg (px - cx)) as Hsx.
      pose proof (Z.square_nonneg (py - cy)) as Hsy.
      assert (Hx0 : (px - cx) * (px - cx) = 0) by lia.
      assert (Hy0 : (py - cy) * (py - cy) = 0) by lia.
      apply Z.mul_eq_0 in Hx0, Hy0. lia.
    + intros [-> ->]. apply Haxis; [lia |].
      apply elem_of_octant_points. lia.
Qed.

Lemma outline_set_shape_witness :
  (52, 32) ∈ outline_set 32 32 20 /\
  (forall px py,
     (px, py) ∈ outline_set 32 32 20 ->
     - 22 <= circle_excess 32 32 20 px py <= 20).
Proof.
  pose proof (proj1 (proj2 (outline_set_shape 32 32 20)) ltac:(lia))
    as (Ha & _ & _ & _ & Hnear & _).
  split; [exact Ha | exact Hnear].
Defined.

Lemma paints_when (b : bool) (m : M DivoomPixoo64 unit) (color : Color)
    (sel : Z -> Z -> bool) :
  paints m color sel ->
  paints (if b then m else ret tt) color (fun x y => b && sel x y).
Proof.
  intros Hm. destruct b; cbn [andb].
  - exact Hm.
  - apply paints_ret.
Qed.

Lemma square_le_bound (a r : Z) : 0 <= r -> a * a <= r * r -> - r <= a <= r.
Proof. intros Hr Ha. nia. Qed.

(** The pixels the fill pass of [draw_circle] selects: the disk. *)
Lemma disk_spec (cx cy radius x y : Z) :
  existsb (fun y_off =>
    existsb (fun x_off =>
      (x_off * x_off + y_off * y_off <=? radius * radius)
      && is_pixel (cx + x_off, cy + y_off) x y)
      (range (- radius) (radius + 1)))
    (range (- radius) (radius + 1)) = true
  <-> 0 <= radius /\ circle_excess cx cy radius x y <= 0.
Proof.
  rewrite existsb_exists. unfold circle_excess. split.
  - intros (y_off & Hy & H). apply existsb_exists in H as (x_off & Hx & H).
    apply andb_true_iff in H as [Hc Hp]. apply Z.leb_le in Hc.
    unfold is_pixel in Hp. cbn [fst snd] in Hp.
    apply andb_true_iff in Hp as [Ex Ey]. apply Z.eqb_eq in Ex, Ey.
    apply elem_of_range in Hx, Hy. subst x y.
    replace (cx + x_off - cx) with x_off by lia.
    replace (cy + y_off - cy) with y_off by lia. lia.
  - intros [Hr Hc].
    pose proof (Z.square_nonneg (x - cx)) as Hsx.
    pose proof (Z.square_nonneg (y - cy)) as Hsy.
    pose proof (square_le_bound (x - cx) radius Hr ltac:(lia)) as Hbx.
    pose proof (square_le_bound (y - cy) radius Hr ltac:(lia)) as Hby.
    exists (y - cy). split; [apply elem_of_range; lia |].
    apply existsb_exists. exists (x - cx).
    split; [apply elem_of_range; lia |].
    apply andb_true_iff. split; [apply Z.leb_le; lia |].
    unfold is_pixel. cbn [fst snd].
    apply andb_true_iff. split; apply Z.eqb_eq; lia.
Qed.

Lemma circle_fill_paints (cx cy radius : Z) (fill : Color) :
  paints
    (for_ (range (- radius) (radius + 1)) (fun y_off =>
       for_ (range (- radius) (radius + 1)) (fun x_off =>
         if x_off * x_off + y_off * y_off <=? radius * radius then
           if in_bounds (cx + x_off) (cy + y_off)
           then set_pixel (cx + x_off) (cy + y_off) fill else ret tt
         else ret tt)))
    fill
    (fun x y =>
       existsb (fun y_off =>
         existsb (fun x_off =>
           (x_off * x_off + y_off * y_off <=? radius * radius)
           && is_pixel (cx + x_off, cy + y_off) x y)
           (range (- radius) (radius + 1)))
         (range (- radius) (radius + 1))).
Proof.
  apply (paints_for _ _ fill
           (fun y_off x y =>
              existsb (fun x_off =>
                (x_off * x_off + y_off * y_off <=? radius * radius)
                && is_pixel (cx + x_off, cy + y_off) x y)
                (range (- radius) (radius + 1)))).
  intros y_off.
  apply (paints_for _ _ fill
           (fun x_off x y =>
              (x_off * x_off + y_off * y_off <=? radius * radius)
              && is_pixel (cx + x_off, cy + y_off) x y)).
  intros x_off.
  apply paints_when, paints_guarded_pixel.
Qed.

Lemma outline_pass_paints (pts : gset (Z * Z)) (color : Color) :
  paints
    (for_ (elements pts) (fun '(px, py) =>
       if in_bounds px py then set_pixel px py color else ret tt))
    color
    (fun x y => bool_decide ((x, y) ∈ pts)).
Proof.
  apply (paints_ext _ _
           (fun x y => existsb (fun p => is_pixel p x y) (elements pts))).
  - intros x y _. apply eq_true_iff_eq.
    rewrite is_pixel_in, elem_of_elements, bool_decide_eq_true.
    reflexivity.
  - apply (paints_for _ _ color is_pixel). intros [px py].
    apply paints_guarded_pixel.
Qed.

(** X7: [draw_circle] on a 64 x 64 buffer, for every centre and every
    integer radius.  It returns normally; on the canvas, the pixels of
    the outline it computes read the outline colour; the other pixels of
    the disk (distance to the centre at most the radius, radius not
    negative) read the fill colour when one is given and are untouched
    otherwise; the pixels outside both are untouched; the counter and the
    transport are untouched. *)
Theorem draw_circle_pixels (cx cy radius : Z) (outline : Color)
    (fill : option Color) (d : DivoomPixoo64) :
  buffer_wf d ->
  let d' := state_after (draw_circle cx cy radius outline fill d) in
  outcome_of (draw_circle cx cy radius outline fill d) = Ret tt /\
  buffer_wf d' /\
  _pic_id_counter d' = _pic_id_counter d /\
  wire d' = wire d /\
  forall x y,
    on_canvas x y ->
    ((x, y) ∈ outline_set cx cy radius ->
     getpixel (_buffer d') x y = Some outline) /\
    ((x, y) ∉ outline_set cx cy radius ->
     0 <= radius -> circle_excess cx cy radius x y <= 0 ->
     getpixel (_buffer d') x y
     = match fill with
       | Some f => Some f
       | None => getpixel (_buffer d) x y
       end) /\
    ((x, y) ∉ outline_set cx cy radius ->
     radius < 0 \/ 0 < circle_excess cx cy radius x y ->
     getpixel (_buffer d') x y = getpixel (_buffer d) x y).
Proof.
  intros Hwf d'.
  set (sel_disk := fun x y : Z =>
         existsb (fun y_off =>
           existsb (fun x_off =>
             (x_off * x_off + y_off * y_off <=? radius * radius)
             && is_pixel (cx + x_off, cy + y_off) x y)
             (range (- radius) (radius + 1)))
           (range (- radius) (radius + 1))).
  set (sel_fill := fun x y : Z =>
         match fill with Some _ => sel_disk x y | None => false end).
  assert (Hfill : paints
            (match fill with
             | Some f =>
                 for_ (range (- radius) (radius + 1)) (fun y_off =>
                   for_ (range (- radius) (radius + 1)) (fun x_off =>
                     if x_off * x_off + y_off * y_off <=? radius * radius then
                       if in_bounds (cx + x_off) (cy + y_off)
                       then set_pixel (cx + x_off) (cy + y_off) f else ret tt
                     else ret tt))
             | None => ret tt
             end) (default outline fill) sel_fill).
  { unfold sel_fill. destruct fill as [f |]; cbn [default].
    - apply circle_fill_paints.
    - apply paints_ret. }
  assert (Hout : forall u : unit, paints
            (for_ (elements (outline_set cx cy radius)) (fun '(px, py) =>
               if in_bounds px py then set_pixel px py outline else ret tt))
            outline
            (fun x y => bool_decide ((x, y) ∈ outline_set cx cy radius))).
  { intros _. apply outline_pass_paints. }
  destruct (paints_then _ _ _ _ _ _ d Hfill Hout Hwf)
    as (d2 & [] & E & Hwf2 & Hc2 & Hw2 & Hpix).
  rewrite <- draw_circle_passes in E.
  assert (Hd' : d' = d2) by (unfold d'; rewrite E; reflexivity).
  split; [rewrite E; reflexivity |].
  rewrite Hd'. split; [exact Hwf2 |]. split; [exact Hc2 |].
  split; [exact Hw2 |].
  intros x y Hxy. rewrite (Hpix x y Hxy). split; [| split].
  - intros Hin. rewrite bool_decide_eq_true_2 by exact Hin. reflexivity.
  - intros Hnot Hr Hc. rewrite bool_decide_eq_false_2 by exact Hnot.
    unfold sel_fill. destruct fill as [f |]; [| reflexivity].
    cbn [default].
    assert (Hsel : sel_disk x y = true) by (apply disk_spec; auto).
    rewrite Hsel. reflexivity.
  - intros Hnot Hfar. rewrite bool_decide_eq_false_2 by exact Hnot.
    assert (Hsel : sel_fill x y = false).
    { unfold sel_fill. destruct fill as [f |]; [| reflexivity].
      apply not_true_is_false. unfold sel_disk. rewrite disk_spec. lia. }
    rewrite Hsel. reflexivity.
Qed.

Lemma draw_circle_pixels_witness :
  getpixel
    (_buffer (state_after (draw_circle 32 32 15 orange (Some black)
                             (state_after
                                (clear_buffer (xff, xff, xff) (init 0))))))
    32 32 = Some black.
Proof.
  assert (Hwf : buffer_wf
                  (state_after (clear_buffer (xff, xff, xff) (init 0)))).
  { unfold buffer_wf, clear_buffer, modify, with_buffer, state_after.
    cbn [fst _buffer]. rewrite length_fmap. apply init_buffer_wf. }
  pose proof (draw_circle_pixels 32 32 15 orange (Some black) _ Hwf)
    as (_ & _ & _ & _ & Hpix).
  apply (Hpix 32 32).
  - unfold on_canvas, buffer_width. lia.
  - vm_compute. intros H. discriminate H.
  - lia.
  - vm_compute. intros H. discriminate H.
Defined.

(** ** The encoder when the transport fails, and [flush_buffer] *)

Lemma posted_nil (d : DivoomPixoo64) : posted [] d = d.
Proof. unfold posted. rewrite app_nil_r. destruct d; reflexivity. Qed.

Lemma posted_cons (m : Payload) (ms : list Payload) (d : DivoomPixoo64) :
  posted ms (posted [m] d) = posted (m :: ms) d.
Proof. unfold posted. simpl. rewrite <- app_assoc. reflexivity. Qed.

Section Outage.

Variable b64encode : list byte -> string.
Variable post_ok : list Payload -> Payload -> bool.

(** The loop of [display_animation] when request [k] is the first the
    transport refuses: the [k] requests before it went out, and the
    exception of [send_command] ends the loop. *)
Lemma send_each_until (mk : Z -> list byte -> Payload)
    (frames : list (list byte)) :
  forall (g : nat -> Z) (d : DivoomPixoo64) (k : nat),
    (k < length frames)%nat ->
    (forall j m, (j < k)%nat ->
       imap (fun i x => mk (g i) x) frames !! j = Some m ->
       post_ok (wire d ++ take j (imap (fun i x => mk (g i) x) frames)) m
       = true) ->
    (forall m,
       imap (fun i x => mk (g i) x) frames !! k = Some m ->
       post_ok (wire d ++ take k (imap (fun i x => mk (g i) x) frames)) m
       = false) ->
    for_ (imap (fun i x => (g i, x)) frames)
      (fun '(pic_offset, frame) => send_command post_ok (mk pic_offset frame)) d
    = (posted (take k (imap (fun i x => mk (g i) x) frames)) d,
       Raise TransportError).
Proof.
  induction frames as [| f frames IH]; intros g d k Hk Hok Hfail.
  - simpl in Hk. lia.
  - destruct k as [| k].
    + pose proof (Hfail _ eq_refl) as E. simpl in E. rewrite app_nil_r in E.
      simpl. unfold bind, send_command at 1. rewrite E.
      rewrite posted_nil. reflexivity.
    + pose proof (Hok 0%nat _ ltac:(lia) eq_refl) as E. simpl in E.
      rewrite app_nil_r in E.
      simpl. unfold bind, send_command at 1. rewrite E.
      rewrite <- posted_cons.
      apply (IH (g ∘ S)).
      * simpl in Hk. lia.
      * intros j m Hj Hm. simpl. rewrite <- app_assoc.
        apply (Hok (S j) m); [lia | exact Hm].
      * intros m Hm. simpl. rewrite <- app_assoc.
        apply (Hfail m). exact Hm.
Qed.

End Outage.

(** X8: when the transport lets the first [k] requests of an animation
    through and refuses the next one, [display_animation] raises the
    transport's exception at once: exactly those [k] requests were posted,
    none of the later frames is tried, the pixel buffer is untouched, and
    an identifier taken from the counter stays consumed. *)
Theorem display_animation_stops_at_failure
    (b64encode : list byte -> string)
    (post_ok : list Payload -> Payload -> bool)
    (image : Pixoo64Animation) (pic_id : option Z) (d : DivoomPixoo64)
    (k : nat) :
  let n := Z.min (Z.of_nat (length (encoded_frames image))) 60 in
  let id := default (_pic_id_counter d + 1) pic_id in
  let msgs := imap (fun i frame =>
                      transfer_message b64encode id n (pic_width image)
                        (Z.of_nat i) (frame_delay image) frame)
                (take 60 (encoded_frames image)) in
  (k < length msgs)%nat ->
  (forall j m, (j < k)%nat -> msgs !! j = Some m ->
     post_ok (wire d ++ take j msgs) m = true) ->
  (forall m, msgs !! k = Some m ->
     post_ok (wire d ++ take k msgs) m = false) ->
  let r := display_animation b64encode post_ok image pic_id d in
  outcome_of r = Raise TransportError /\
  wire (state_after r) = wire d ++ take k msgs /\
  _buffer (state_after r) = _buffer d /\
  _pic_id_counter (state_after r)
  = match pic_id with
    | Some _ => _pic_id_counter d
    | None => _pic_id_counter d + 1
    end.
Proof.
  intros n id msgs Hk Hok Hfail r.
  assert (Hrun : r = (posted (take k msgs)
                        (match pic_id with
                         | Some _ => d
                         | None => state_after (_get_next_pic_id d)
                         end), Raise TransportError)).
  { unfold r, display_animation.
    unfold msgs in Hk. rewrite length_imap in Hk.
    destruct (encoded_frames image) as [| f fs] eqn:E;
      [simpl in Hk; lia |].
    unfold enumerate.
    destruct pic_id as [i |]; unfold bind at 1; simpl.
    - apply (send_each_until post_ok
               (fun off frame =>
                  transfer_message b64encode i n (pic_width image) off
                    (frame_delay image) frame)
               (take 60 (f :: fs)) Z.of_nat d k Hk Hok Hfail).
    - apply (send_each_until post_ok
               (fun off frame =>
                  transfer_message b64encode (_pic_id_counter d + 1) n
                    (pic_width image) off (frame_delay image) frame)
               (take 60 (f :: fs)) Z.of_nat
               (state_after (_get_next_pic_id d)) k Hk Hok Hfail). }
  rewrite Hrun. unfold outcome_of, state_after, posted. simpl.
  destruct pic_id; simpl; auto.
Qed.

Lemma display_animation_stops_at_failure_witness :
  let r := display_animation frame_size_text (down_after 2) three_frames
             None (init 0) in
  outcome_of r = Raise TransportError /\
  length (wire (state_after r)) = 2%nat /\
  _pic_id_counter (state_after r) = 1.
Proof.
  intros r.
  pose proof (display_animation_stops_at_failure frame_size_text
                (down_after 2) three_frames None (init 0) 2) as T.
  cbv zeta in T.
  assert (H0 : (2 < 3)%nat) by lia.
  specialize (T H0).
  assert (H1 : forall j m, (j < 2)%nat ->
             imap (fun i frame =>
                     transfer_message frame_size_text
                       (default (_pic_id_counter (init 0) + 1) None)
                       (Z.min (Z.of_nat (length (encoded_frames three_frames)))
                          60)
                       (pic_width three_frames) (Z.of_nat i)
                       (frame_delay three_frames) frame)
               (take 60 (encoded_frames three_frames)) !! j = Some m ->
             down_after 2
               (wire (init 0) ++
                take j
                  (imap (fun i frame =>
                     transfer_message frame_size_text
                       (default (_pic_id_counter (init 0) + 1) None)
                       (Z.min (Z.of_nat (length (encoded_frames three_frames)))
                          60)
                       (pic_width three_frames) (Z.of_nat i)
                       (frame_delay three_frames) frame)
                     (take 60 (encoded_frames three_frames)))) m = true).
  { intros [| [| j]] m Hj _; [reflexivity | reflexivity | lia]. }
  specialize (T H1).
  destruct T as (Ho & Hw & _ & Hc).
  { intros m _. reflexivity. }
  split; [exact Ho |]. split; [| exact Hc].
  fold r in Hw. rewrite Hw. reflexivity.
Defined.

Lemma tobytes_length (img : list Color) :
  length (tobytes img) = (3 * length img)%nat.
Proof.
  unfold tobytes. induction img as [| [[r g] b] img IH]; [reflexivity |].
  change (length ([r; g; b] ++ (img ≫= (fun '(r, g, b) => [r; g; b])))
          = (3 * length ((r, g, b) :: img))%nat).
  rewrite length_app, IH. cbn [length]. unfold Color. lia.
Qed.

Lemma tobytes_lookup (img : list Color) :
  forall (n : nat) (c : Color),
    img !! n = Some c ->
    tobytes img !! (3 * n)%nat = Some (c.1.1) /\
    tobytes img !! S (3 * n) = Some (c.1.2) /\
    tobytes img !! S (S (3 * n)) = Some (c.2).
Proof.
  induction img as [| [[r g] b] img IH]; intros n c H; [discriminate |].
  destruct n as [| n].
  - injection H as <-. repeat split.
  - simpl in H. replace (3 * S n)%nat with (S (S (S (3 * n)))) by lia.
    exact (IH n c H).
Qed.

Lemma flush_buffer_sends (b64encode : list byte -> string)
    (post_ok : list Payload -> Payload -> bool)
    (pic_id : option Z) (delay : Z) (d : DivoomPixoo64) :
  (forall h p, post_ok h p = true) ->
  flush_buffer b64encode post_ok pic_id delay d
  = (posted [transfer_message b64encode
               (default (_pic_id_counter d + 1) pic_id) 1 buffer_width 0
               delay (tobytes (_buffer d))]
       (match pic_id with
        | Some _ => d
        | None => state_after (_get_next_pic_id d)
        end), Ret tt).
Proof.
  intros Hup. unfold flush_buffer.
  destruct pic_id as [i |]; unfold bind, get, ret, _get_next_pic_id; simpl.
  - rewrite (display_animation_sends b64encode post_ok Hup
               (mkAnimation [tobytes (_buffer d)] delay buffer_width)
               (Some i) d) by discriminate.
    reflexivity.
  - rewrite (display_animation_sends b64encode post_ok Hup
               (mkAnimation [tobytes (_buffer d)] delay buffer_width)
               (Some (_pic_id_counter d + 1)) _) by discriminate.
    reflexivity.
Qed.

(** X9: with the transport up, [flush_buffer] posts exactly one request:
    the whole 64 x 64 buffer as the single frame of an animation (offset 0
    of a total of 1, width 64, the given delay), in row-major order, three
    bytes per pixel, 12288 bytes in all; the identifier is the one given,
    or the next of the counter.  The buffer itself is not changed. *)
Theorem flush_buffer_posts_one_frame
    (b64encode : list byte -> string)
    (post_ok : list Payload -> Payload -> bool)
    (pic_id : option Z) (delay : Z) (d : DivoomPixoo64) :
  (forall h p, post_ok h p = true) ->
  buffer_wf d ->
  let id := default (_pic_id_counter d + 1) pic_id in
  let r := flush_buffer b64encode post_ok pic_id delay d in
  outcome_of r = Ret tt /\
  wire (state_after r)
  = wire d ++ [transfer_message b64encode id 1 buffer_width 0 delay
                 (tobytes (_buffer d))] /\
  Z.of_nat (length (tobytes (_buffer d))) = 64 * 64 * 3 /\
  (forall x y c,
     on_canvas x y -> getpixel (_buffer d) x y = Some c ->
     let i := (3 * pixel_index x y)%nat in
     tobytes (_buffer d) !! i = Some (c.1.1) /\
     tobytes (_buffer d) !! S i = Some (c.1.2) /\
     tobytes (_buffer d) !! S (S i) = Some (c.2)) /\
  _buffer (state_after r) = _buffer d /\
  _pic_id_counter (state_after r)
  = match pic_id with
    | Some _ => _pic_id_counter d
    | None => _pic_id_counter d + 1
    end.
Proof.
  intros Hup Hwf id r.
  assert (Hrun : r = (posted [transfer_message b64encode id 1 buffer_width 0
                                delay (tobytes (_buffer d))]
                        (match pic_id with
                         | Some _ => d
                         | None => state_after (_get_next_pic_id d)
                         end), Ret tt)).
  { apply flush_buffer_sends, Hup. }
  rewrite Hrun. unfold outcome_of, state_after, posted. simpl.
  split; [reflexivity |].
  split; [destruct pic_id; reflexivity |].
  split; [rewrite tobytes_length; unfold buffer_wf, buffer_width in Hwf; lia |].
  split; [| destruct pic_id; simpl; auto].
  intros x y c _ Hc. unfold getpixel in Hc.
  exact (tobytes_lookup _ _ _ Hc).
Qed.

Lemma flush_buffer_posts_one_frame_witness :
  let r := flush_buffer frame_size_text always_up None 100 (init 400) in
  outcome_of r = Ret tt /\
  wire (state_after r)
  = [transfer_message frame_size_text 401 1 64 0 100 (tobytes new_image)] /\
  _pic_id_counter (state_after r) = 401.
Proof.
  intros r.
  destruct (flush_buffer_posts_one_frame frame_size_text always_up None 100
              (init 400) ltac:(intros h p; reflexivity) (init_buffer_wf 400))
    as (Ho & Hw & _ & _ & _ & Hc).
  split; [exact Ho |]. split; [exact Hw | exact Hc].
Defined.

End PixooSpec.

(** * Controller and simulator together *)

Module LinkSpec.
Import Pixoo PixooDefs Simulator SimulatorDefs LinkDefs.

Section Link.

Variable b64encode : list byte -> string.
Variable b64decode : string -> option (list byte).

Lemma handle_post_frame (s s' : Pixoo64Simulator) (data : Payload) :
  Command data = Some "Draw/SendHttpGif"%string ->
  _handle_send_gif b64decode data s = (s', Ret tt) ->
  handle_post b64decode (Some data) s = (s', Ret (mkResponse 0 200)).
Proof.
  intros Hc Hrun. unfold handle_post. rewrite Hc.
  rewrite bool_decide_eq_true_2 by reflexivity. rewrite Hrun. reflexivity.
Qed.

(** The messages of one transfer, from offset [k] on, arriving at a
    simulator that holds the [k] frames before them as pending. *)
Lemma deliver_transfer (id n w delay : Z) (fs : list (list byte)) :
  forall (k : nat) (pre : list (list byte)) (s : Pixoo64Simulator),
    wf s ->
    fs <> [] ->
    (forall f, f ∈ fs -> b64decode (b64encode f) = Some f /\ valid_frame f) ->
    n = Z.of_nat (k + length fs) ->
    (k = 0%nat /\ pre = []) \/
    ((0 < k)%nat /\ pending s = mkFrame <$> pre) ->
    exists s',
      deliver b64decode
        (imap (fun i f =>
                 transfer_message b64encode id n w (Z.of_nat (k + i)) delay f)
           fs) s
      = (s', Ret (replicate (length fs) (mkResponse 0 200))) /\
      wf s' /\
      published s' = mkFrame <$> (pre ++ fs) /\
      receiving_frames (animation_manager s') = false /\
      current_frame (animation_manager s') = 0 /\
      frame_delay (animation_manager s') = delay /\
      display s' = display s.
Proof.
  induction fs as [| f fs IH]; intros k pre s Hwf Hne Hfs Hn Hpre;
    [congruence |].
  destruct (Hfs f ltac:(left)) as [Hdec Hvalid].
  set (m := transfer_message b64encode id n w (Z.of_nat (k + 0)) delay f).
  destruct (SimulatorSpec.handle_valid b64decode s m (Str (b64encode f)) f Hwf eq_refl
              Hdec Hvalid)
    as (s1 & Hrun & Hwf1 & Hpend & Hpub & Hrecv & Hcf & Hfd & Hdisp).
  change (default 0 (PicOffset m)) with (Z.of_nat (k + 0))
    in Hpend, Hpub, Hrecv, Hcf.
  change (default 1 (PicNum m)) with n in Hpub, Hrecv, Hcf.
  change (default 100 (PicSpeed m)) with delay in Hfd.
  pose proof (handle_post_frame s s1 m eq_refl Hrun) as Hpost.
  assert (Hpend1 : pending s1 = mkFrame <$> (pre ++ [f])).
  { rewrite Hpend, fmap_app. destruct Hpre as [[-> ->] | [Hk ->]].
    - reflexivity.
    - destruct (Z.eqb_spec (Z.of_nat (k + 0)) 0); [lia | reflexivity]. }
  cbn [imap deliver]. fold m. unfold bind at 1. rewrite Hpost.
  destruct fs as [| f' fs].
  - cbn [imap deliver]. unfold bind, ret. exists s1.
    split; [reflexivity |]. split; [exact Hwf1 |].
    cbn [length] in Hn.
    destruct (Z.eqb_spec (Z.of_nat (k + 0)) (n - 1)) as [_ | Hx]; [| lia].
    rewrite Hpub, Hpend1. auto.
  - destruct (IH (S k) (pre ++ [f]) s1 Hwf1 ltac:(discriminate))
      as (s' & Hrun' & Hwf' & Hpub' & Hrecv' & Hcf' & Hfd' & Hdisp').
    + intros g Hg. apply Hfs. right. exact Hg.
    + cbn [length] in *. lia.
    + right. split; [lia | exact Hpend1].
    + rewrite (imap_ext _
                 (fun i f0 =>
                    transfer_message b64encode id n w (Z.of_nat (S k + i))
                      delay f0)).
      2:{ intros i x _. unfold compose. f_equal. lia. }
      unfold bind at 1. rewrite Hrun'. unfold ret. exists s'.
      split; [reflexivity |]. split; [exact Hwf' |].
      rewrite Hpub', <- app_assoc. cbn [app].
      rewrite Hdisp', Hdisp. auto.
Qed.

(** A whole animation arriving at the simulator. *)
Lemma deliver_animation (id w delay : Z) (fs : list (list byte))
    (s : Pixoo64Simulator) :
  wf s ->
  fs <> [] ->
  (forall f, f ∈ fs -> b64decode (b64encode f) = Some f /\ valid_frame f) ->
  exists s',
    deliver b64decode
      (imap (fun i f =>
               transfer_message b64encode id (Z.of_nat (length fs)) w
                 (Z.of_nat i) delay f) fs) s
    = (s', Ret (replicate (length fs) (mkResponse 0 200))) /\
    wf s' /\
    published s' = mkFrame <$> fs /\
    receiving_frames (animation_manager s') = false /\
    current_frame (animation_manager s') = 0 /\
    frame_delay (animation_manager s') = delay /\
    display s' = display s.
Proof.
  intros Hwf Hne Hfs.
  exact (deliver_transfer id (Z.of_nat (length fs)) w delay fs 0 [] s
           Hwf Hne Hfs eq_refl (or_introl (conj eq_refl eq_refl))).
Qed.

End Link.

(** X13: the encoder and the reassembler agree.  With the transport up,
    the requests [display_animation] posts for a non-empty animation of
    64*64*3-byte frames, handled by the simulator in order, are all
    answered 200 and leave it with exactly the first 60 frames published,
    in order, playback at frame 0, no transfer in progress, the frame
    delay of the animation, and nothing shown yet that was not shown
    before.  The decoder only has to invert the encoder on the frames. *)
Theorem animation_round_trip
    (b64encode : list byte -> string)
    (b64decode : string -> option (list byte))
    (post_ok : list Payload -> Payload -> bool)
    (image : Pixoo64Animation) (pic_id : option Z) (d : DivoomPixoo64)
    (s : Pixoo64Simulator) :
  (forall h p, post_ok h p = true) ->
  (forall f, f ∈ encoded_frames image -> b64decode (b64encode f) = Some f) ->
  (forall f, f ∈ encoded_frames image -> valid_frame f) ->
  encoded_frames image <> [] ->
  wf s ->
  let sent :=
    sent_since d (display_animation b64encode post_ok image pic_id d) in
  let r := deliver b64decode sent s in
  outcome_of r = Ret (replicate (length sent) (mkResponse 0 200)) /\
  Z.of_nat (length sent)
  = Z.min (Z.of_nat (length (encoded_frames image))) 60 /\
  published (state_after r) = mkFrame <$> take 60 (encoded_frames image) /\
  receiving_frames (animation_manager (state_after r)) = false /\
  current_frame (animation_manager (state_after r)) = 0 /\
  frame_delay (animation_manager (state_after r)) = Pixoo.frame_delay image /\
  display (state_after r) = display s.
Proof.
  intros Hup Hdec Hvalid Hne Hwf sent r.
  assert (Hlen : Z.of_nat (length (take 60 (encoded_frames image)))
                 = Z.min (Z.of_nat (length (encoded_frames image))) 60).
  { rewrite length_take. lia. }
  assert (Hsent : sent
            = imap (fun i frame =>
                      transfer_message b64encode
                        (default (_pic_id_counter d + 1) pic_id)
                        (Z.of_nat (length (take 60 (encoded_frames image))))
                        (pic_width image) (Z.of_nat i)
                        (Pixoo.frame_delay image) frame)
                (take 60 (encoded_frames image))).
  { unfold sent, sent_since.
    rewrite (PixooSpec.display_animation_sends b64encode post_ok Hup image
               pic_id d Hne).
    unfold state_after, posted. cbn [fst wire]. rewrite Hlen.
    destruct pic_id; cbn [wire _get_next_pic_id fst];
      apply drop_app_length. }
  assert (Hne' : take 60 (encoded_frames image) <> []).
  { destruct (encoded_frames image); [congruence | discriminate]. }
  destruct (deliver_animation b64encode b64decode
              (default (_pic_id_counter d + 1) pic_id) (pic_width image)
              (Pixoo.frame_delay image) (take 60 (encoded_frames image))
              s Hwf Hne')
    as (s' & Hrun & _ & Hpub & Hrecv & Hcf & Hfd & Hdisp).
  { intros f Hf. apply subseteq_take in Hf. split; auto. }
  unfold r. rewrite Hsent, Hrun. unfold outcome_of, state_after.
  cbn [fst snd]. rewrite length_imap.
  split; [reflexivity |]. split; [exact Hlen |]. auto 10.
Qed.

Lemma animation_round_trip_witness :
  published
    (state_after
       (deliver from_text
          (sent_since (Pixoo.init 0)
             (display_animation as_text always_up two_frames None
                (Pixoo.init 0)))
          init))
  = [mkFrame (solid x01); mkFrame (solid x02)].
Proof.
  assert (Hvalid : forall f, f ∈ encoded_frames two_frames -> valid_frame f).
  { intros f Hf. cbn in Hf.
    apply elem_of_cons in Hf as [-> | Hf]; [apply SimulatorSpec.solid_valid |].
    apply elem_of_cons in Hf as [-> | Hf]; [apply SimulatorSpec.solid_valid |].
    apply elem_of_nil in Hf. contradiction. }
  destruct (animation_round_trip as_text from_text always_up two_frames None
              (Pixoo.init 0) init)
    as (_ & _ & Hpub & _).
  - intros h p. reflexivity.
  - intros f _. unfold from_text, as_text.
    rewrite list_byte_of_string_of_list_byte. reflexivity.
  - exact Hvalid.
  - discriminate.
  - exact SimulatorSpec.init_wf.
  - exact Hpub.
Defined.

(** X14: what is drawn is what is shown.  With the transport up,
    [flush_buffer] followed by the simulator handling what was posted
    publishes one frame, the 12288 bytes of the controller's buffer, with
    the delay given; the next pass of the display loop with the delay
    elapsed shows exactly those bytes. *)
Theorem flushed_buffer_is_shown
    (b64encode : list byte -> string)
    (b64decode : string -> option (list byte))
    (post_ok : list Payload -> Payload -> bool)
    (pic_id : option Z) (delay : Z) (d : DivoomPixoo64)
    (s : Pixoo64Simulator) :
  (forall h p, post_ok h p = true) ->
  buffer_wf d ->
  b64decode (b64encode (tobytes (_buffer d))) = Some (tobytes (_buffer d)) ->
  wf s ->
  let sent := sent_since d (flush_buffer b64encode post_ok pic_id delay d) in
  let s1 := state_after (deliver b64decode sent s) in
  outcome_of (deliver b64decode sent s) = Ret [mkResponse 0 200] /\
  published s1 = [mkFrame (tobytes (_buffer d))] /\
  frame_delay (animation_manager s1) = delay /\
  display (state_after (run_display_tick true s1))
  = display s ++ [tobytes (_buffer d)].
Proof.
  intros Hup Hbuf Hdec Hwf sent s1.
  assert (Hsent : sent
            = imap (fun i frame =>
                      transfer_message b64encode
                        (default (_pic_id_counter d + 1) pic_id)
                        (Z.of_nat (length [tobytes (_buffer d)]))
                        buffer_width (Z.of_nat i) delay frame)
                [tobytes (_buffer d)]).
  { unfold sent, sent_since.
    rewrite (PixooSpec.flush_buffer_sends b64encode post_ok pic_id delay d
               Hup).
    unfold state_after, posted. cbn [fst wire].
    destruct pic_id; cbn [wire _get_next_pic_id fst];
      apply drop_app_length. }
  assert (Hvalid : valid_frame (tobytes (_buffer d))).
  { unfold valid_frame. rewrite PixooSpec.tobytes_length.
    unfold buffer_wf, buffer_width in Hbuf. lia. }
  destruct (deliver_animation b64encode b64decode
              (default (_pic_id_counter d + 1) pic_id) buffer_width delay
              [tobytes (_buffer d)] s Hwf ltac:(discriminate))
    as (s' & Hrun & _ & Hpub & Hrecv & Hcf & Hfd & Hdisp).
  { intros f Hf. apply list_elem_of_singleton in Hf as ->. auto. }
  unfold s1. rewrite Hsent, Hrun. unfold outcome_of, state_after.
  cbn [fst snd]. split; [reflexivity |]. split; [exact Hpub |].
  split; [exact Hfd |].
  destruct (SimulatorSpec.tick_shows s' Hrecv) as (frame & Hf & Htick).
  { rewrite Hcf, Hpub. cbn. lia. }
  rewrite Hcf, Hpub in Hf. cbn in Hf. injection Hf as <-.
  rewrite Htick. cbn [fst display data]. rewrite Hdisp. reflexivity.
Qed.

Lemma flushed_buffer_is_shown_witness :
  let d := state_after (clear_buffer orange (Pixoo.init 0)) in
  let sent := sent_since d (flush_buffer as_text always_up None 100 d) in
  display
    (state_after
       (run_display_tick true (state_after (deliver from_text sent init))))
  = [tobytes (_buffer d)].
Proof.
  intros d sent.
  assert (Hbuf : buffer_wf d).
  { unfold d, buffer_wf, clear_buffer, modify, with_buffer, state_after.
    cbn [fst _buffer]. rewrite length_fmap.
    apply (PixooSpec.init_buffer_wf 0). }
  destruct (flushed_buffer_is_shown as_text from_text always_up None 100 d
              init)
    as (_ & _ & _ & Hshown).
  - intros h p. reflexivity.
  - exact Hbuf.
  - unfold from_text, as_text.
    rewrite list_byte_of_string_of_list_byte. reflexivity.
  - exact SimulatorSpec.init_wf.
  - exact Hshown.
Defined.


Lemma take_imap {A B} (f : nat -> A -> B) (l : list A) :
  forall k : nat, take k (imap f l) = imap f (take k l).
Proof.
  revert f. induction l as [| x l IH]; intros f [| k]; try reflexivity.
  cbn [imap take]. rewrite IH. reflexivity.
Qed.

Section Interrupted.

Variable b64encode : list byte -> string.
Variable b64decode : string -> option (list byte).

(** The first messages of a transfer that does not reach its last one. *)
Lemma deliver_partial (id n w delay : Z) (fs : list (list byte)) :
  forall (j : nat) (pre : list (list byte)) (s : Pixoo64Simulator),
    wf s ->
    fs <> [] ->
    (forall f, f ∈ fs -> b64decode (b64encode f) = Some f /\ valid_frame f) ->
    Z.of_nat (j + length fs) < n ->
    (j = 0%nat /\ pre = []) \/
    ((0 < j)%nat /\ pending s = mkFrame <$> pre /\
     receiving_frames (animation_manager s) = true /\
     current_animation (animation_manager s)
     <> next_animation (animation_manager s)) ->
    exists s',
      deliver b64decode
        (imap (fun i f =>
                 transfer_message b64encode id n w (Z.of_nat (j + i)) delay f)
           fs) s
      = (s', Ret (replicate (length fs) (mkResponse 0 200))) /\
      pending s' = mkFrame <$> (pre ++ fs) /\
      receiving_frames (animation_manager s') = true /\
      published s' = published s /\
      current_frame (animation_manager s')
      = current_frame (animation_manager s) /\
      frame_delay (animation_manager s') = delay /\
      display s' = display s.
Proof.
  induction fs as [| f fs IH]; intros j pre s Hwf Hne Hfs Hn Hpre;
    [congruence |].
  destruct (Hfs f ltac:(left)) as [Hdec Hvalid].
  set (m := transfer_message b64encode id n w (Z.of_nat (j + 0)) delay f).
  destruct (SimulatorSpec.handle_valid b64decode s m (Str (b64encode f)) f
              Hwf eq_refl Hdec Hvalid)
    as (s1 & Hrun & Hwf1 & Hpend & Hpub & Hrecv & Hcf & Hfd & Hdisp).
  destruct (SimulatorSpec.handle_valid_refs b64decode s m
              (Str (b64encode f)) f eq_refl Hdec Hvalid)
    as [Hnxt Hcur].
  rewrite Hrun in Hnxt, Hcur. unfold state_after in Hnxt, Hcur.
  cbn [fst] in Hnxt, Hcur.
  change (default 0 (PicOffset m)) with (Z.of_nat (j + 0))
    in Hpend, Hpub, Hrecv, Hcf, Hnxt, Hcur.
  change (default 1 (PicNum m)) with n in Hpub, Hrecv, Hcf, Hcur.
  change (default 100 (PicSpeed m)) with delay in Hfd.
  cbn [length] in Hn.
  destruct (Z.eqb_spec (Z.of_nat (j + 0)) (n - 1)) as [Hx | _]; [lia |].
  pose proof (handle_post_frame b64decode s s1 m eq_refl Hrun) as Hpost.
  assert (Hpend1 : pending s1 = mkFrame <$> (pre ++ [f])).
  { rewrite Hpend, fmap_app. destruct Hpre as [[-> ->] | (Hj & -> & _)].
    - reflexivity.
    - destruct (Z.eqb_spec (Z.of_nat (j + 0)) 0); [lia | reflexivity]. }
  assert (Hrecv1 : receiving_frames (animation_manager s1) = true).
  { rewrite Hrecv.
    destruct (Z.eqb_spec (Z.of_nat (j + 0)) 0) as [Hz | Hz]; [reflexivity |].
    destruct Hpre as [[-> _] | (_ & _ & Hr & _)]; [lia | exact Hr]. }
  assert (Hpub1 : published s1 = published s).
  { rewrite Hpub. destruct (Z.eqb_spec (Z.of_nat (j + 0)) 0) as [Hz | Hz];
      [reflexivity |].
    destruct Hpre as [[-> _] | (_ & _ & _ & Hrefs)]; [lia |].
    destruct (decide (current_animation (animation_manager s)
                      = next_animation (animation_manager s)));
      [contradiction | reflexivity]. }
  assert (Hrefs1 : current_animation (animation_manager s1)
                   <> next_animation (animation_manager s1)).
  { rewrite Hcur, Hnxt.
    destruct (Z.eqb_spec (Z.of_nat (j + 0)) 0) as [Hz | Hz].
    - destruct Hwf as [Hc _]. lia.
    - destruct Hpre as [[-> _] | (_ & _ & _ & Hrefs)]; [lia | exact Hrefs]. }
  cbn [imap deliver]. fold m. unfold bind at 1. rewrite Hpost.
  destruct fs as [| f' fs].
  - cbn [imap deliver]. unfold bind, ret. exists s1.
    split; [reflexivity |]. auto 10.
  - destruct (IH (S j) (pre ++ [f]) s1 Hwf1 ltac:(discriminate))
      as (s' & Hrun' & Hpend' & Hrecv' & Hpub' & Hcf' & Hfd' & Hdisp').
    + intros g Hg. apply Hfs. right. exact Hg.
    + cbn [length] in *. lia.
    + right. split; [lia |]. auto.
    + rewrite (imap_ext _
                 (fun i f0 =>
                    transfer_message b64encode id n w (Z.of_nat (S j + i))
                      delay f0)).
      2:{ intros i x _. unfold compose. f_equal. lia. }
      unfold bind at 1. rewrite Hrun'. unfold ret. exists s'.
      split; [reflexivity |].
      rewrite Hpend', <- app_assoc. cbn [app].
      rewrite Hpub', Hpub1, Hcf', Hcf, Hdisp', Hdisp. auto 10.
Qed.

End Interrupted.

(** X15: a transfer that is cut short freezes the display.  When only the
    first [k] messages of an animation of more than [k] frames reach the
    simulator (as when the transport fails under [display_animation]),
    they are all answered 200 and held as pending; the animation published
    before stays published and the frame index stays where it was, but the
    simulator is left receiving, so no pass of the display loop shows
    anything or moves the index. *)
Theorem interrupted_transfer_freezes_display
    (b64encode : list byte -> string)
    (b64decode : string -> option (list byte))
    (id n w delay : Z) (fs : list (list byte)) (k : nat)
    (s : Pixoo64Simulator) :
  wf s ->
  (0 < k <= length fs)%nat ->
  Z.of_nat k < n ->
  (forall f, f ∈ fs -> b64decode (b64encode f) = Some f /\ valid_frame f) ->
  let msgs := imap (fun i f =>
                      transfer_message b64encode id n w (Z.of_nat i) delay f)
                fs in
  let r := deliver b64decode (take k msgs) s in
  let s' := state_after r in
  outcome_of r = Ret (replicate k (mkResponse 0 200)) /\
  pending s' = mkFrame <$> take k fs /\
  receiving_frames (animation_manager s') = true /\
  published s' = published s /\
  current_frame (animation_manager s') = current_frame (animation_manager s) /\
  display s' = display s /\
  forall due : bool, run_display_tick due s' = (s', Ret tt).
Proof.
  intros Hwf Hk Hn Hfs msgs r s'.
  assert (Hlen : length (take k fs) = k) by (rewrite length_take; lia).
  destruct (deliver_partial b64encode b64decode id n w delay (take k fs)
              0 [] s Hwf)
    as (s1 & Hrun & Hpend & Hrecv & Hpub & Hcf & _ & Hdisp).
  { intros E. rewrite E in Hlen. cbn in Hlen. lia. }
  { intros f Hf. apply Hfs. apply subseteq_take in Hf. exact Hf. }
  { rewrite Hlen. lia. }
  { left. auto. }
  assert (Hr : r = (s1, Ret (replicate k (mkResponse 0 200)))).
  { unfold r, msgs. rewrite take_imap. rewrite Hlen in Hrun. exact Hrun. }
  unfold s'. rewrite Hr. unfold outcome_of, state_after. cbn [fst snd].
  split; [reflexivity |]. split; [exact Hpend |]. split; [exact Hrecv |].
  split; [exact Hpub |]. split; [exact Hcf |]. split; [exact Hdisp |].
  intros due. apply SimulatorSpec.run_display_tick_receiving, Hrecv.
Qed.

Lemma interrupted_transfer_freezes_display_witness :
  let msgs := imap (fun i f =>
                      transfer_message as_text 1 2 64 (Z.of_nat i) 50 f)
                (encoded_frames two_frames) in
  let s' := state_after (deliver from_text (take 1 msgs) init) in
  receiving_frames (animation_manager s') = true /\
  run_display_tick true s' = (s', Ret tt).
Proof.
  intros msgs s'.
  assert (Hfs : forall f, f ∈ encoded_frames two_frames ->
              from_text (as_text f) = Some f /\ valid_frame f).
  { intros f Hf. split.
    - unfold from_text, as_text.
      rewrite list_byte_of_string_of_list_byte. reflexivity.
    - cbn in Hf.
      apply elem_of_cons in Hf as [-> | Hf];
        [apply SimulatorSpec.solid_valid |].
      apply elem_of_cons in Hf as [-> | Hf];
        [apply SimulatorSpec.solid_valid |].
      apply elem_of_nil in Hf. contradiction. }
  destruct (interrupted_transfer_freezes_display as_text from_text 1 2 64 50
              (encoded_frames two_frames) 1 init SimulatorSpec.init_wf)
    as (_ & _ & Hrecv & _ & _ & _ & Htick).
  - cbn. lia.
  - lia.
  - exact Hfs.
  - split; [exact Hrecv | exact (Htick true)].
Defined.

End LinkSpec.
